(** * asciidoctor-kroki: the diagram preprocessor ([src/preprocess.js])

    A shallow embedding of [preprocess.js] and the properties of its
    PlantUML include expansion and of its Vega-Lite data inlining.

    JavaScript strings are sequences of UTF-16 code units; a code unit is
    a number below 65536 and is modelled as an [N].  The regular
    expressions of the source are kept as pattern text and given to a
    model of the [RegExp] constructor, followed by a backtracking matcher
    that follows the matcher semantics of ECMAScript (continuations,
    ordered alternatives, greedy and lazy repetition, captures and
    look-behind). *)

From Stdlib Require Import String Ascii Bool Arith NArith ZArith Lia List.
Import ListNotations.

Set Implicit Arguments.
Set Warnings "-register-all".
Local Open Scope list_scope.

(* ================================================================== *)
(** ** JavaScript strings *)

Module JS.

Definition jschar := N.
Definition jsstring := list jschar.

(** A string literal of the source whose characters are all ASCII. *)
Definition js (s : string) : jsstring :=
  map N_of_ascii (list_ascii_of_string s).

Definition LF : jschar := 10%N.
Definition CR : jschar := 13%N.

Definition chr (a : ascii) : jschar := N_of_ascii a.

Fixpoint str_eqb (a b : jsstring) : bool :=
  match a, b with
  | [], [] => true
  | x :: a', y :: b' => N.eqb x y && str_eqb a' b'
  | _, _ => false
  end.

Lemma str_eqb_spec a b : reflect (a = b) (str_eqb a b).
Proof.
  revert b; induction a as [|x a IH]; intros [|y b]; simpl;
    try (constructor; congruence).
  destruct (N.eqb_spec x y); simpl.
  - destruct (IH b); constructor; congruence.
  - constructor; congruence.
Qed.

Lemma str_eqb_refl a : str_eqb a a = true.
Proof. destruct (str_eqb_spec a a); congruence. Qed.

Lemma str_eqb_eq a b : str_eqb a b = true <-> a = b.
Proof. destruct (str_eqb_spec a b); split; congruence. Qed.

Lemma str_eqb_neq a b : str_eqb a b = false <-> a <> b.
Proof. destruct (str_eqb_spec a b); split; congruence. Qed.

(** [Array.prototype.includes] on an array of strings. *)
Definition includes (l : list jsstring) (s : jsstring) : bool :=
  existsb (str_eqb s) l.

Lemma includes_In l s : includes l s = true <-> In s l.
Proof.
  unfold includes; rewrite existsb_exists; split.
  - intros (x & Hx & E). apply str_eqb_eq in E. now subst.
  - intros H. exists s. split; [assumption | apply str_eqb_refl].
Qed.

Lemma includes_not_In l s : includes l s = false <-> ~ In s l.
Proof.
  rewrite <- includes_In. destruct (includes l s); split; congruence.
Qed.

(** [String.prototype.startsWith]. *)
Fixpoint startsWith (p s : jsstring) : bool :=
  match p, s with
  | [], _ => true
  | x :: p', y :: s' => N.eqb x y && startsWith p' s'
  | _ :: _, [] => false
  end.

(** Line terminators of ECMAScript: LF, CR, LS and PS. *)
Definition is_line_terminator (c : jschar) : bool :=
  (c =? 10)%N || (c =? 13)%N || (c =? 8232)%N || (c =? 8233)%N.

(** White space as [\s], [trim] and [parseInt] see it: the WhiteSpace
    and LineTerminator productions. *)
Definition is_space (c : jschar) : bool :=
  ((9 <=? c) && (c <=? 13))%N || (c =? 32)%N || (c =? 160)%N
  || (c =? 5760)%N || ((8192 <=? c) && (c <=? 8202))%N
  || (c =? 8232)%N || (c =? 8233)%N || (c =? 8239)%N
  || (c =? 8287)%N || (c =? 12288)%N || (c =? 65279)%N.

Definition is_digit (c : jschar) : bool := ((48 <=? c) && (c <=? 57))%N.

Definition is_word (c : jschar) : bool :=
  is_digit c || ((65 <=? c) && (c <=? 90))%N
  || ((97 <=? c) && (c <=? 122))%N || (c =? 95)%N.

Fixpoint trimStart (s : jsstring) : jsstring :=
  match s with
  | c :: s' => if is_space c then trimStart s' else s
  | [] => []
  end.

(** [String.prototype.trim]. *)
Definition trim (s : jsstring) : jsstring :=
  rev (trimStart (rev (trimStart s))).

(** [String.prototype.toLowerCase] on the letters A to Z; other code
    units below 128 are fixed by it. *)
Definition lower (c : jschar) : jschar :=
  if ((65 <=? c) && (c <=? 90))%N then (c + 32)%N else c.

Definition toLowerCase (s : jsstring) : jsstring := map lower s.

(** [String.prototype.split] with a separator of one code unit: the
    result always has at least one element. *)
Fixpoint split (sep : jschar) (s : jsstring) : list jsstring :=
  match s with
  | [] => [[]]
  | c :: s' =>
      if N.eqb c sep then [] :: split sep s'
      else match split sep s' with
           | w :: ws => (c :: w) :: ws
           | [] => [[c]]
           end
  end.

(** [Array.prototype.join] with a separator of one code unit. *)
Fixpoint join (sep : jschar) (l : list jsstring) : jsstring :=
  match l with
  | [] => []
  | [w] => w
  | w :: ws => w ++ sep :: join sep ws
  end.

(** [parseInt(s, 10)]: leading white space is skipped, one sign is
    read, then the longest run of decimal digits; [None] is NaN.  The
    value is kept exact (the source only compares it with a counter
    that starts at -1 and grows by one per match). *)
Fixpoint digits_value (acc : Z) (s : jsstring) : Z :=
  match s with
  | c :: s' =>
      if is_digit c then digits_value (10 * acc + (Z.of_N c - 48)) s'
      else acc
  | [] => acc
  end.

Definition parseInt (s : jsstring) : option Z :=
  let t := trimStart s in
  let '(neg, t) :=
    match t with
    | c :: t' => if (c =? 45)%N then (true, t')
                 else if (c =? 43)%N then (false, t') else (false, t)
    | [] => (false, t)
    end in
  match t with
  | c :: _ =>
      if is_digit c
      then Some (if neg then (- digits_value 0 t)%Z else digits_value 0 t)
      else None
  | [] => None
  end.

End JS.
Import JS.

(* ================================================================== *)
(** ** Regular expressions: syntax *)

Module RegExp.

(** Members of a character class. *)
Inductive citem :=
| ISingle (c : jschar)
| IRange (lo hi : jschar)
| ISpace (pos : bool)      (* \s when [pos], \S otherwise *)
| IDigit (pos : bool)      (* \d, \D *)
| IWord (pos : bool).      (* \w, \W *)

Inductive regex :=
| Empty
| Char (c : jschar)
| Dot
| Class (neg : bool) (items : list citem)
| Seq (a b : regex)
| Alt (a b : regex)
| Quant (min : nat) (max : option nat) (greedy : bool) (a : regex)
| Group (n : nat) (a : regex)
| Look (ahead positive : bool) (a : regex)
| Bol
| Eol.

Definition item_match (i : citem) (c : jschar) : bool :=
  match i with
  | ISingle d => N.eqb c d
  | IRange lo hi => ((lo <=? c) && (c <=? hi))%N
  | ISpace pos => Bool.eqb pos (is_space c)
  | IDigit pos => Bool.eqb pos (is_digit c)
  | IWord pos => Bool.eqb pos (is_word c)
  end.

Definition class_match (neg : bool) (items : list citem) (c : jschar) : bool :=
  xorb neg (existsb (fun i => item_match i c) items).

(** The capture groups inside a term: a repetition resets them at each
    round. *)
Fixpoint groups (r : regex) : list nat :=
  match r with
  | Seq a b | Alt a b => groups a ++ groups b
  | Quant _ _ _ a | Look _ _ a => groups a
  | Group n a => n :: groups a
  | _ => []
  end.

(* ------------------------------------------------------------------ *)
(** *** The pattern grammar

    [parse] reads the pattern text of a [RegExp]: alternatives, the
    quantifiers [*], [+], [?] and their lazy forms, groups, look-around
    assertions, classes, [^], [$], [.] and the escapes below.  [None]
    stands for a pattern that the constructor rejects with a SyntaxError
    or that uses syntax outside this grammar (counted repetition, back
    references, [\b], [\x], [\u], [\c], named groups). *)

Definition escape_item (c : jschar) : option citem :=
  if (c =? chr "s")%N then Some (ISpace true)
  else if (c =? chr "S")%N then Some (ISpace false)
  else if (c =? chr "d")%N then Some (IDigit true)
  else if (c =? chr "D")%N then Some (IDigit false)
  else if (c =? chr "w")%N then Some (IWord true)
  else if (c =? chr "W")%N then Some (IWord false)
  else if (c =? chr "n")%N then Some (ISingle 10%N)
  else if (c =? chr "r")%N then Some (ISingle 13%N)
  else if (c =? chr "t")%N then Some (ISingle 9%N)
  else if (c =? chr "v")%N then Some (ISingle 11%N)
  else if (c =? chr "f")%N then Some (ISingle 12%N)
  else if is_word c then None
  else Some (ISingle c).

Definition item_regex (i : citem) : regex :=
  match i with
  | ISingle c => Char c
  | _ => Class false [i]
  end.

(** The members of a class, up to its closing bracket. *)
Fixpoint parse_class (s : jsstring) (acc : list citem)
  : option (list citem * jsstring) :=
  match s with
  | [] => None
  | c :: s1 =>
      if (c =? chr "]")%N then Some (rev acc, s1)
      else if (c =? chr "\")%N then
        match s1 with
        | e :: s2 =>
            match (if (e =? chr "b")%N then Some (ISingle 8%N)
                   else if (e =? chr "-")%N then Some (ISingle e)
                   else escape_item e) with
            | Some i => parse_class s2 (i :: acc)
            | None => None
            end
        | [] => None
        end
      else
        match s1 with
        | d :: h :: s3 =>
            if ((d =? chr "-")%N && negb (h =? chr "]")%N)%bool then
              if ((h =? chr "\")%N || (h <? c)%N)%bool then None
              else parse_class s3 (IRange c h :: acc)
            else parse_class s1 (ISingle c :: acc)
        | _ => parse_class s1 (ISingle c :: acc)
        end
  end.

(** A quantifier after an atom, when there is one. *)
Definition parse_quant (a : regex) (s : jsstring) : option (regex * jsstring) :=
  let lazy (min : nat) (max : option nat) (s1 : jsstring) :=
    match s1 with
    | q :: s2 => if (q =? chr "?")%N then Some (Quant min max false a, s2)
                 else Some (Quant min max true a, s1)
    | [] => Some (Quant min max true a, s1)
    end in
  match s with
  | c :: s1 =>
      if (c =? chr "*")%N then lazy 0 None s1
      else if (c =? chr "+")%N then lazy 1 None s1
      else if (c =? chr "?")%N then lazy 0 (Some 1) s1
      else if (c =? chr "{")%N then None
      else Some (a, s)
  | [] => Some (a, s)
  end.

(** An assertion takes no quantifier. *)
Definition no_quant (a : regex) (s : jsstring) : option (regex * jsstring) :=
  match s with
  | c :: _ =>
      if ((c =? chr "*")%N || (c =? chr "+")%N || (c =? chr "?")%N
          || (c =? chr "{")%N)%bool then None
      else Some (a, s)
  | [] => Some (a, s)
  end.

Fixpoint mk_seq (terms : list regex) : regex :=
  match terms with
  | [] => Empty
  | [t] => t
  | t :: ts => Seq t (mk_seq ts)
  end.

Fixpoint mk_alt (alts : list regex) : regex :=
  match alts with
  | [] => Empty
  | [a] => a
  | a :: more => Alt a (mk_alt more)
  end.

Definition finish (alts terms : list regex) : regex :=
  mk_alt (rev (mk_seq (rev terms) :: alts)).

(** A disjunction, read up to a closing parenthesis or the end of the
    pattern.  [n] counts the capture groups opened so far, [alts] holds
    the finished alternatives and [terms] the terms of the current one,
    both latest first. *)
Fixpoint parse_disj (fuel : nat) (s : jsstring) (n : nat)
    (alts terms : list regex) {struct fuel}
  : option (regex * jsstring * nat) :=
  match fuel with
  | O => None
  | S fuel' =>
      let continue (n' : nat) (t : option (regex * jsstring)) :=
        match t with
        | Some (a, rest) => parse_disj fuel' rest n' alts (a :: terms)
        | None => None
        end in
      let group (body : jsstring) (n0 : nat) (wrap : regex -> regex)
                (quantified : bool) :=
        match parse_disj fuel' body n0 [] [] with
        | Some (a, close :: rest, n') =>
            if (close =? chr ")")%N
            then continue n' (if quantified then parse_quant (wrap a) rest
                              else no_quant (wrap a) rest)
            else None
        | _ => None
        end in
      match s with
      | [] => Some (finish alts terms, [], n)
      | c :: s1 =>
          if (c =? chr ")")%N then Some (finish alts terms, s, n)
          else if (c =? chr "|")%N then
            parse_disj fuel' s1 n (mk_seq (rev terms) :: alts) []
          else if (c =? chr "^")%N then continue n (no_quant Bol s1)
          else if (c =? chr "$")%N then continue n (no_quant Eol s1)
          else if (c =? chr ".")%N then continue n (parse_quant Dot s1)
          else if (c =? chr "(")%N then
            match s1 with
            | q :: s2 =>
                if (q =? chr "?")%N then
                  match s2 with
                  | k :: s3 =>
                      if (k =? chr ":")%N then group s3 n (fun a => a) true
                      else if (k =? chr "=")%N then group s3 n (Look true true) false
                      else if (k =? chr "!")%N then group s3 n (Look true false) false
                      else if (k =? chr "<")%N then
                        match s3 with
                        | b :: s4 =>
                            if (b =? chr "=")%N then group s4 n (Look false true) false
                            else if (b =? chr "!")%N then group s4 n (Look false false) false
                            else None
                        | [] => None
                        end
                      else None
                  | [] => None
                  end
                else group s1 (S n) (Group (S n)) true
            | [] => None
            end
          else if (c =? chr "[")%N then
            let '(neg, body) :=
              match s1 with
              | h :: s2 => if (h =? chr "^")%N then (true, s2) else (false, s1)
              | [] => (false, s1)
              end in
            match parse_class body [] with
            | Some (items, rest) => continue n (parse_quant (Class neg items) rest)
            | None => None
            end
          else if (c =? chr "\")%N then
            match s1 with
            | e :: s2 =>
                match escape_item e with
                | Some i => continue n (parse_quant (item_regex i) s2)
                | None => None
                end
            | [] => None
            end
          else if ((c =? chr "*")%N || (c =? chr "+")%N || (c =? chr "?")%N
                   || (c =? chr "{")%N || (c =? chr "}")%N || (c =? chr "]")%N)%bool
          then None
          else continue n (parse_quant (Char c) s1)
      end
  end.

(** [new RegExp(source)]: the whole text must be one disjunction. *)
Definition parse (source : jsstring) : option regex :=
  match parse_disj (S (length source)) source 0 [] [] with
  | Some (r, [], _) => Some r
  | _ => None
  end.

End RegExp.
Import RegExp.

(* ================================================================== *)
(** ** Regular expressions: matching *)

Module Matcher.

(** A position in the input, with the captures made so far.  [before]
    holds the text left of the position, nearest code unit first;
    [after] is the text right of it. *)
Record mstate := MState {
  before : jsstring;
  after : jsstring;
  caps : list (nat * jsstring)
}.

Definition cont := mstate -> option mstate.

Definition pos (x : mstate) : nat := length (before x).

(** One code unit in the direction of the match: forward outside a
    look-behind, backward inside. *)
Definition step (fwd : bool) (x : mstate) : option (jschar * mstate) :=
  if fwd then
    match after x with
    | c :: r => Some (c, MState (c :: before x) r (caps x))
    | [] => None
    end
  else
    match before x with
    | c :: l => Some (c, MState l (c :: after x) (caps x))
    | [] => None
    end.

Definition match_char (p : jschar -> bool) (fwd : bool) (x : mstate) (c : cont)
  : option mstate :=
  match step fwd x with
  | Some (ch, y) => if p ch then c y else None
  | None => None
  end.

Definition clear (gs : list nat) (x : mstate) : mstate :=
  match gs with
  | [] => x
  | _ => MState (before x) (after x)
           (filter (fun kv => negb (existsb (Nat.eqb (fst kv)) gs)) (caps x))
  end.

Definition orelse (a : option mstate) (b : unit -> option mstate) : option mstate :=
  match a with
  | Some z => Some z
  | None => b tt
  end.

(** RepeatMatcher: [ma] matches the repeated term once.  A round that
    is not required ([min] is 0) and leaves the position unchanged
    fails, so every further round moves, and [fuel] above the length of
    the input plus [min] is never used up. *)
Fixpoint repeat_matcher (ma : mstate -> cont -> option mstate)
    (gs : list nat) (greedy : bool) (c : cont)
    (fuel min : nat) (max : option nat) (x : mstate) {struct fuel}
  : option mstate :=
  match max with
  | Some O => c x
  | _ =>
      match fuel with
      | O => None
      | S fuel' =>
          let d := fun y =>
            if ((min =? 0) && (pos y =? pos x))%nat then None
            else repeat_matcher ma gs greedy c fuel' (Nat.pred min)
                   (option_map Nat.pred max) y in
          let xr := clear gs x in
          if negb (min =? 0)%nat then ma xr d
          else if greedy then orelse (ma xr d) (fun _ => c x)
          else orelse (c x) (fun _ => ma xr d)
      end
  end.

Definition input_length (x : mstate) : nat :=
  length (before x) + length (after x).

(** The text between two positions of one input. *)
Definition between (x y : mstate) : jsstring :=
  firstn (pos y - pos x) (after x).

(** The matcher of a term.  [ml] is the multiline flag, [fwd] the
    direction, [c] what has to match after the term. *)
Fixpoint matcher (ml : bool) (r : regex) (fwd : bool) (x : mstate) (c : cont)
    {struct r} : option mstate :=
  match r with
  | Empty => c x
  | Char ch => match_char (N.eqb ch) fwd x c
  | Dot => match_char (fun ch => negb (is_line_terminator ch)) fwd x c
  | Class neg items => match_char (class_match neg items) fwd x c
  | Seq a b =>
      if fwd
      then matcher ml a fwd x (fun y => matcher ml b fwd y c)
      else matcher ml b fwd x (fun y => matcher ml a fwd y c)
  | Alt a b =>
      orelse (matcher ml a fwd x c) (fun _ => matcher ml b fwd x c)
  | Quant min max greedy a =>
      repeat_matcher (fun x' c' => matcher ml a fwd x' c') (groups a) greedy c
        (S (min + input_length x)) min max x
  | Group n a =>
      matcher ml a fwd x
        (fun y => c (MState (before y) (after y)
                       ((n, if fwd then between x y else between y x) :: caps y)))
  | Look ahead positive a =>
      match matcher ml a ahead x (fun y => Some y) with
      | Some y =>
          if positive then c (MState (before x) (after x) (caps y)) else None
      | None => if positive then None else c x
      end
  | Bol =>
      match before x with
      | [] => c x
      | ch :: _ => if ml && is_line_terminator ch then c x else None
      end
  | Eol =>
      match after x with
      | [] => c x
      | ch :: _ => if ml && is_line_terminator ch then c x else None
      end
  end.

(** A successful match: where it starts, the matched text, what follows
    it, and the captures. *)
Record result := Result {
  prefix : jsstring;       (* the input before the match, in order *)
  matched : jsstring;
  suffix : jsstring;
  captures : list (nat * jsstring)
}.

(** [match[n]]; [None] is [undefined]. *)
Fixpoint capture (cs : list (nat * jsstring)) (n : nat) : option jsstring :=
  match cs with
  | [] => None
  | (k, v) :: cs' => if (k =? n)%nat then Some v else capture cs' n
  end.

Definition group (m : result) (n : nat) : option jsstring :=
  capture (captures m) n.

Definition match_at (ml : bool) (r : regex) (bef aft : jsstring) : option result :=
  let x := MState bef aft [] in
  match matcher ml r true x (fun y => Some y) with
  | Some y => Some (Result (rev bef) (between x y) (after y) (caps y))
  | None => None
  end.

(** The leftmost match at or after the current position
    (RegExpBuiltinExec without the sticky flag). *)
Fixpoint search (ml : bool) (r : regex) (bef aft : jsstring) {struct aft}
  : option result :=
  match match_at ml r bef aft with
  | Some m => Some m
  | None =>
      match aft with
      | [] => None
      | ch :: aft' => search ml r (ch :: bef) aft'
      end
  end.

(** [regex.exec(text)] for a fresh regular expression or one without
    the global flag: the search starts at index 0. *)
Definition exec (ml : bool) (r : regex) (text : jsstring) : option result :=
  search ml r [] text.

(** [text.replace(regex, replacement)] with the global flag and a
    replacement text without [$]: every match, found left to right
    from the end of the one before, is replaced; after an empty match
    the search moves on by one code unit. *)
Fixpoint replace_from (ml : bool) (r : regex) (repl : jsstring)
    (fuel : nat) (bef aft : jsstring) {struct fuel} : jsstring :=
  match fuel with
  | O => aft
  | S fuel' =>
      match search ml r bef aft with
      | None => aft
      | Some m =>
          let skipped := firstn (length (prefix m) - length bef) aft in
          match matched m, suffix m with
          | [], [] => skipped ++ repl
          | [], ch :: rest =>
              skipped ++ repl ++ ch ::
                replace_from ml r repl fuel' (ch :: rev (prefix m)) rest
          | mt, rest =>
              skipped ++ repl ++
                replace_from ml r repl fuel' (rev mt ++ rev (prefix m)) rest
          end
      end
  end.

Definition replace_all (ml : bool) (r : regex) (repl text : jsstring) : jsstring :=
  replace_from ml r repl (S (length text)) [] text.

(** [text.replace(regex, fn)] without the global flag, in a monad-free
    form: the first match and the text around it, for the caller to put
    the callback's result in between. *)
Definition first_match (r : regex) (text : jsstring) : option result :=
  exec false r text.

End Matcher.
Import Matcher.

(* ================================================================== *)
(** ** The regular expressions of [preprocess.js] *)

Module Patterns.

Definition compile (source : string) : regex :=
  match parse (js source) with
  | Some r => r
  | None => Empty
  end.

(** [regExCommentMultiLine], flag g. *)
Definition regExCommentMultiLine : regex :=
  Eval vm_compute in compile "/'([\s\S]*?)'/".

(** [regExCommentSingleLine], flag g. *)
Definition regExCommentSingleLine : regex :=
  Eval vm_compute in compile ".*'.*'.*(\r\n|\n)".

(** [regExInclude], no flag. *)
Definition regExInclude : regex :=
  Eval vm_compute in
    compile "^\s*!(include(?:_many|_once|url|sub)?)\s+((?:(?<=\\)[ ]|[^ ])+)(.*)".

(** The escaped space replaced in the reference, flag g. *)
Definition regExEscapedSpace : regex :=
  Eval vm_compute in compile "\\ ".

(** The block pattern of [getPlantUmlTextFromIndex] and
    [getPlantUmlTextOrFirstBlock], flags gm. *)
Definition regExBlock : regex :=
  Eval vm_compute in compile "@startuml(?:\r\n|\n)([\s\S]*?)(?:\r\n|\n)@enduml".

(** The extension pattern of [preprocessVegaLite]. *)
Definition regExExtension : regex :=
  Eval vm_compute in compile "(?:\.([^.]+))?$".

(** The pattern texts built around a selector by [getPlantUmlTextFromSub]
    and [getPlantUmlTextFromId]. *)
Definition subPattern (sub : jsstring) : jsstring :=
  js "!startsub\s+" ++ sub ++ js "(?:\r\n|\n)([\s\S]*?)(?:\r\n|\n)!endsub".

Definition idPattern (id : jsstring) : jsstring :=
  js "@startuml\(id=" ++ id ++ js "\)(?:\r\n|\n)([\s\S]*?)(?:\r\n|\n)@enduml".

Lemma regExCommentMultiLine_source :
  parse (js "/'([\s\S]*?)'/") = Some regExCommentMultiLine.
Proof. reflexivity. Qed.

Lemma regExCommentSingleLine_source :
  parse (js ".*'.*'.*(\r\n|\n)") = Some regExCommentSingleLine.
Proof. reflexivity. Qed.

Lemma regExInclude_source :
  parse (js "^\s*!(include(?:_many|_once|url|sub)?)\s+((?:(?<=\\)[ ]|[^ ])+)(.*)")
  = Some regExInclude.
Proof. reflexivity. Qed.

Lemma regExEscapedSpace_source : parse (js "\\ ") = Some regExEscapedSpace.
Proof. reflexivity. Qed.

Lemma regExBlock_source :
  parse (js "@startuml(?:\r\n|\n)([\s\S]*?)(?:\r\n|\n)@enduml") = Some regExBlock.
Proof. reflexivity. Qed.

Lemma regExExtension_source :
  parse (js "(?:\.([^.]+))?$") = Some regExExtension.
Proof. reflexivity. Qed.

End Patterns.
Import Patterns.

(* ================================================================== *)
(** ** Block extraction *)

Module Extract.

(** How a call can end without a value. *)
Inductive error :=
| CycleError (path : jsstring)
| ReadError (path cause : jsstring)
| DuplicateIncludeError (path : jsstring).

Inductive failure :=
| Thrown (e : error)          (* one of the three errors of the engine *)
| SyntaxError (pattern : jsstring)   (* [new RegExp] rejects the pattern *)
| TypeError                   (* a method called on [undefined] *)
| NeverReturns                (* a loop whose state stops changing *)
| OutOfFuel.                  (* includes nested deeper than the fuel *)

(** [match[1]] used as text: [undefined] reads "undefined". *)
Definition group1 (m : result) : jsstring :=
  match group m 1 with
  | Some s => s
  | None => js "undefined"
  end.

(** The next [regEx.exec(text)] of a regular expression with the global
    flag whose last match was [m]: the search resumes at the end of [m]. *)
Definition exec_next (r : regex) (m : result) : option result :=
  search true r (rev (matched m) ++ rev (prefix m)) (suffix m).

(** The [while] loop of [getPlantUmlTextRegEx].  An empty match leaves
    [lastIndex] where it is, every later [exec] returns the same match
    and the loop never ends.  Any other match moves [lastIndex] on, so
    the length of the text bounds the rounds ([fuel]). *)
Fixpoint regex_loop (r : regex) (fuel : nat) (m : option result)
    (matchedStrings : jsstring) {struct fuel} : failure + jsstring :=
  match m with
  | None => inr matchedStrings
  | Some mr =>
      match fuel, matched mr with
      | _, [] => inl NeverReturns
      | O, _ => inl OutOfFuel
      | S fuel', _ =>
          regex_loop r fuel' (exec_next r mr) (matchedStrings ++ LF :: group1 mr)
      end
  end.

Definition getPlantUmlTextRegEx (text : jsstring) (regEx : regex)
  : failure + jsstring :=
  match exec true regEx text with
  | Some m =>
      match matched m with
      | [] => inl NeverReturns
      | _ => regex_loop regEx (length text) (exec_next regEx m) ([] ++ group1 m)
      end
  | None => inr []
  end.

Definition with_pattern (source : jsstring) (k : regex -> failure + jsstring)
  : failure + jsstring :=
  match parse source with
  | Some regEx => k regEx
  | None => inl (SyntaxError source)
  end.

Definition getPlantUmlTextFromSub (text sub : jsstring) : failure + jsstring :=
  with_pattern (subPattern sub) (getPlantUmlTextRegEx text).

Definition getPlantUmlTextFromId (text id : jsstring) : failure + jsstring :=
  with_pattern (idPattern id) (getPlantUmlTextRegEx text).

(** The loop of [getPlantUmlTextFromIndex]; [n] bounds the rounds left,
    each of which adds one to [idx]. *)
Fixpoint index_loop (r : regex) (n : nat) (idx index : Z) (m : option result)
    (matchedStrings : jsstring) {struct n} : jsstring :=
  match m with
  | None => matchedStrings
  | Some mr =>
      if (idx <? index)%Z then
        match n with
        | O => matchedStrings
        | S n' =>
            if (idx + 1 =? index)%Z
            then index_loop r n' (idx + 1) index m (matchedStrings ++ group1 mr)
            else index_loop r n' (idx + 1) index (exec_next r mr) matchedStrings
        end
      else matchedStrings
  end.

Definition getPlantUmlTextFromIndex (text : jsstring) (index : Z) : jsstring :=
  index_loop regExBlock (Z.to_nat (index + 1)) (-1) index
    (exec true regExBlock text) [].

(** The matches a regular expression with the global flag yields on
    successive calls of [exec], numbered from 0, and the body of the
    block found by the k-th call with the block pattern: the k-th
    top-level block of the text. *)
Fixpoint nth_match (r : regex) (text : jsstring) (k : nat) : option result :=
  match k with
  | O => exec true r text
  | S k' =>
      match nth_match r text k' with
      | Some m => exec_next r m
      | None => None
      end
  end.

Definition nth_block (text : jsstring) (k : nat) : option jsstring :=
  option_map group1 (nth_match regExBlock text k).

(** The matches from [m] on, until [exec] returns null. *)
Fixpoint successive (r : regex) (fuel : nat) (m : option result)
  : option (list result) :=
  match m with
  | None => Some []
  | Some mr =>
      match fuel, matched mr with
      | _, [] => None
      | O, _ => None
      | S fuel', _ => option_map (cons mr) (successive r fuel' (exec_next r mr))
      end
  end.

(** All the matches of a text, when none of them is empty. *)
Definition all_matches (r : regex) (text : jsstring) : option (list result) :=
  successive r (S (length text)) (exec true r text).

Definition getPlantUmlTextOrFirstBlock (text : jsstring) : jsstring :=
  match exec true regExBlock text with
  | Some m => group1 m
  | None => text
  end.

End Extract.
Import Extract.

(* ================================================================== *)
(** ** Include expansion *)

Module PlantUML.

(** The two arrays shared by all the calls of one expansion, and the
    warnings written to the console. *)
Inductive warning :=
| SkipStdlib (url : jsstring)
| SkipRemote (url cause : jsstring).

Record state := State {
  includeOnce : list jsstring;
  includeStack : list jsstring;
  warnings : list warning
}.

(** A computation reads and updates the shared state and returns a value
    or fails; what it did to the state before failing stays done. *)
Definition M (A : Type) : Type := state -> (failure + A) * state.

Definition ret {A} (a : A) : M A := fun st => (inr a, st).

Definition fail {A} (f : failure) : M A := fun st => (inl f, st).

Definition throw {A} (e : error) : M A := fail (Thrown e).

Definition bind {A B} (m : M A) (k : A -> M B) : M B :=
  fun st =>
    match m st with
    | (inr a, st') => k a st'
    | (inl f, st') => (inl f, st')
    end.

Definition lift {A} (r : failure + A) : M A := fun st => (r, st).

Notation "x <- m ;; k" := (bind m (fun x => k))
  (at level 61, m at next level, right associativity).
Notation "m ;;; k" := (bind m (fun _ => k))
  (at level 61, right associativity).

Definition warn (w : warning) : M unit :=
  fun st => (inr tt, State (includeOnce st) (includeStack st) (warnings st ++ [w])).

(** [includeStack.push(p)] and [includeStack.pop()]. *)
Definition push_stack (p : jsstring) : M unit :=
  fun st => (inr tt, State (includeOnce st) (includeStack st ++ [p]) (warnings st)).

Definition pop_stack : M unit :=
  fun st => (inr tt, State (includeOnce st) (removelast (includeStack st)) (warnings st)).

(** [Array.prototype.map] with a callback that has effects: the lines
    are visited in order and the first failure ends the visit. *)
Fixpoint mapM {A B} (f : A -> M B) (l : list A) : M (list B) :=
  match l with
  | [] => ret []
  | a :: l' => b <- f a ;; bs <- mapM f l' ;; ret (b :: bs)
  end.

(** The result object of [readPlantUmlInclude]. *)
Record include_result := IncludeResult {
  skip : bool;
  text : jsstring;
  filePath : jsstring
}.

(** The three directive kinds the callback tells apart. *)
Definition include_once_kw : jsstring := js "include_once".
Definition includesub_kw : jsstring := js "includesub".

(** What the callback reads off a match of [regExInclude]: the keyword
    in lower case, the reference with its escaped spaces resolved, and
    the selector after the first [!] of the reference, if any. *)
Record directive := Directive {
  include : jsstring;
  url : jsstring;
  sub : option jsstring
}.

Definition directive_of (m : result) : option directive :=
  match group m 1, group m 2 with
  | Some arg0, Some arg1 =>
      let urlSub := split (chr "!") (trim arg1) in
      Some (Directive (toLowerCase arg0)
              (replace_all false regExEscapedSpace (js " ") (hd [] urlSub))
              (nth_error urlSub 1))
  | _, _ => None
  end.

(** The two passes that remove comments before the lines are split. *)
Definition strip_block_comments (diagramText : jsstring) : jsstring :=
  replace_all false regExCommentMultiLine [] diagramText.

Definition strip_line_comments (diagramText : jsstring) : jsstring :=
  replace_all false regExCommentSingleLine [] diagramText.

Definition strip_comments (diagramText : jsstring) : jsstring :=
  strip_line_comments (strip_block_comments diagramText).

(** Whether a line holds a directive, and whether a text holds a
    comment of either kind, as the three patterns see it. *)
Definition is_directive (line : jsstring) : bool :=
  match first_match regExInclude line with
  | Some _ => true
  | None => false
  end.

Definition has_block_comment (diagramText : jsstring) : bool :=
  match exec false regExCommentMultiLine diagramText with
  | Some _ => true
  | None => false
  end.

Definition has_line_comment (diagramText : jsstring) : bool :=
  match exec false regExCommentSingleLine diagramText with
  | Some _ => true
  | None => false
  end.

Section Engine.

(** The virtual file system handed in by the caller, and what the
    platform provides: [path.join], [path.dirname] and the [URL]
    constructor ([None] when it throws). *)
Variable vfs_exists : jsstring -> bool.
Variable vfs_read : jsstring -> jsstring + jsstring.   (* [inl e]: throws [e] *)
Variable path_join : jsstring -> jsstring -> jsstring.
Variable path_dirname : jsstring -> jsstring.
Variable URL_protocol : jsstring -> option jsstring.

Definition isRemoteUrl (s : jsstring) : bool :=
  match URL_protocol s with
  | Some protocol => negb (str_eqb protocol (js "file:"))
  | None => false
  end.

Definition readPlantUmlInclude (url dirPath : jsstring) : M include_result :=
  fun st =>
  if startsWith (js "<") url then
    (w <- warn (SkipStdlib url) ;; ret (IncludeResult true [] url)) st
  else if includes (includeStack st) url then
    throw (CycleError url) st
  else if isRemoteUrl url then
    match vfs_read url with
    | inr t => ret (IncludeResult false t url) st
    | inl e => (w <- warn (SkipRemote url e) ;; ret (IncludeResult true [] url)) st
    end
  else
    let filePath := path_join dirPath url in
    let filePath := if negb (vfs_exists filePath) then url else filePath in
    if includes (includeStack st) filePath then
      throw (CycleError filePath) st
    else
      match vfs_read filePath with
      | inr t => ret (IncludeResult false t filePath) st
      | inl e => throw (ReadError filePath e) st
      end.

Definition checkIncludeOnce (text filePath : jsstring) : M unit :=
  fun st =>
  if includes (includeOnce st) filePath then
    throw (DuplicateIncludeError filePath) st
  else
    (inr tt, State (includeOnce st ++ [filePath]) (includeStack st) (warnings st)).

(** The part of the callback that narrows the text that was read to the
    selected blocks. *)
Definition select (include : jsstring) (sub : option jsstring) (text : jsstring)
  : failure + jsstring :=
  match sub with
  | Some ((_ :: _) as sub) =>
      if str_eqb include includesub_kw then getPlantUmlTextFromSub text sub
      else
        match parseInt sub with
        | None => getPlantUmlTextFromId text sub
        | Some index => inr (getPlantUmlTextFromIndex text index)
        end
  | _ => inr (getPlantUmlTextOrFirstBlock text)
  end.

(** The callback given to [line.replace(regExInclude, ...)], with the
    recursive call as a parameter: first what it does once the
    directive is read off the match. *)
Definition include_file
    (recur : jsstring -> jsstring -> M jsstring)
    (line dirPath : jsstring) (d : directive) : M jsstring :=
  result <- readPlantUmlInclude (url d) dirPath ;;
  if skip result then ret line
  else
    (if str_eqb (include d) include_once_kw
     then checkIncludeOnce (text result) (filePath result)
     else ret tt) ;;;
    selected <- lift (select (include d) (sub d) (text result)) ;;
    push_stack (filePath result) ;;;
    expanded <- recur selected (path_dirname (filePath result)) ;;
    pop_stack ;;;
    ret expanded.

Definition expand_directive
    (recur : jsstring -> jsstring -> M jsstring)
    (line dirPath : jsstring) (m : result) : M jsstring :=
  match directive_of m with
  | None => fail TypeError
  | Some d => include_file recur line dirPath d
  end.

(** [line.replace(regExInclude, callback)]: the first match, if any, is
    replaced by what the callback returns. *)
Definition replace_line
    (recur : jsstring -> jsstring -> M jsstring)
    (dirPath line : jsstring) : M jsstring :=
  match first_match regExInclude line with
  | None => ret line
  | Some m =>
      r <- expand_directive recur line dirPath m ;;
      ret (prefix m ++ r ++ suffix m)
  end.

(** [fuel] bounds how deep includes may nest; a text without directive
    needs none. *)
Fixpoint preprocessPlantUmlIncludes (fuel : nat) (diagramText dirPath : jsstring)
    {struct fuel} : M jsstring :=
  let recur :=
    match fuel with
    | O => fun _ _ => fail OutOfFuel
    | S fuel' => preprocessPlantUmlIncludes fuel'
    end in
  let diagramLines := split LF (strip_comments diagramText) in
  diagramProcessed <- mapM (replace_line recur dirPath) diagramLines ;;
  ret (join LF diagramProcessed).

(** The recursive call as the callback sees it. *)
Definition nested (fuel : nat) : jsstring -> jsstring -> M jsstring :=
  match fuel with
  | O => fun _ _ => fail OutOfFuel
  | S fuel' => preprocessPlantUmlIncludes fuel'
  end.

(** [preprocessPlantUML(diagramText, context)] with the virtual file
    system of the context: both arrays start empty. *)
Definition initial : state := State [] [] [].

Definition preprocessPlantUML (fuel : nat) (diagramText : jsstring)
  : (failure + jsstring) * state :=
  preprocessPlantUmlIncludes fuel diagramText (js ".") initial.

End Engine.

End PlantUML.
Import PlantUML.

(* ================================================================== *)
(** ** A platform to run the engine on

    POSIX [path.dirname] and [path.join] as Node.js defines them, a
    [URL] constructor reduced to the scheme, and a file system held in a
    list.  The theorems on the engine hold for every platform; this one
    gives the concrete runs. *)

Module Reference.

Definition slash : jschar := chr "/".
Definition dot : jschar := chr ".".

Fixpoint drop_while (p : jschar -> bool) (s : jsstring) : jsstring :=
  match s with
  | c :: s' => if p c then drop_while p s' else s
  | [] => []
  end.

Definition dirname (path : jsstring) : jsstring :=
  match path with
  | [] => [dot]
  | c0 :: tl =>
      let hasRoot := N.eqb c0 slash in
      let base := drop_while (N.eqb slash) (rev tl) in
      match drop_while (fun c => negb (N.eqb slash c)) base with
      | [] => if hasRoot then [slash] else [dot]
      | _ :: r =>
          if hasRoot && (length r =? 0)%nat then [slash; slash]
          else c0 :: rev r
      end
  end.

(** [normalizeString]: the segments kept so far, last one first. *)
Fixpoint normalize_segments (allowAboveRoot : bool) (segs kept : list jsstring)
  : list jsstring :=
  match segs with
  | [] => kept
  | seg :: segs' =>
      if str_eqb seg [] || str_eqb seg [dot] then
        normalize_segments allowAboveRoot segs' kept
      else if str_eqb seg [dot; dot] then
        match kept with
        | top :: kept' =>
            if str_eqb top [dot; dot]
            then normalize_segments allowAboveRoot segs'
                   (if allowAboveRoot then seg :: kept else kept)
            else normalize_segments allowAboveRoot segs' kept'
        | [] =>
            normalize_segments allowAboveRoot segs'
              (if allowAboveRoot then [seg] else [])
        end
      else normalize_segments allowAboveRoot segs' (seg :: kept)
  end.

Definition normalize (path : jsstring) : jsstring :=
  match path with
  | [] => [dot]
  | c0 :: _ =>
      let isAbsolute := N.eqb c0 slash in
      let trailingSeparator := N.eqb (last path 0%N) slash in
      let p := join slash (rev (normalize_segments (negb isAbsolute)
                                  (split slash path) [])) in
      match p with
      | [] => if isAbsolute then [slash]
              else if trailingSeparator then [dot; slash] else [dot]
      | _ =>
          let p := if trailingSeparator then p ++ [slash] else p in
          if isAbsolute then slash :: p else p
      end
  end.

Definition path_join (a b : jsstring) : jsstring :=
  match a, b with
  | [], [] => [dot]
  | [], _ => normalize b
  | _, [] => normalize a
  | _, _ => normalize (a ++ slash :: b)
  end.

Definition is_alpha (c : jschar) : bool :=
  (((65 <=? c) && (c <=? 90)) || ((97 <=? c) && (c <=? 122)))%N.

Fixpoint scheme_rest (s acc : jsstring) : option jsstring :=
  match s with
  | [] => None
  | c :: s' =>
      if (c =? chr ":")%N then Some (rev (c :: acc))
      else if is_alpha c || is_digit c || (c =? chr "+")%N
              || (c =? chr "-")%N || (c =? chr ".")%N
      then scheme_rest s' (lower c :: acc)
      else None
  end.

(** The protocol of a reference that starts with a scheme. *)
Definition URL_protocol (s : jsstring) : option jsstring :=
  match s with
  | c :: s' => if is_alpha c then scheme_rest s' [lower c] else None
  | [] => None
  end.

Definition files := list (jsstring * jsstring).

Fixpoint lookup (fs : files) (p : jsstring) : option jsstring :=
  match fs with
  | [] => None
  | (q, t) :: fs' => if str_eqb q p then Some t else lookup fs' p
  end.

Definition vfs_exists (fs : files) (p : jsstring) : bool :=
  match lookup fs p with Some _ => true | None => false end.

Definition vfs_read (fs : files) (p : jsstring) : jsstring + jsstring :=
  match lookup fs p with
  | Some t => inr t
  | None => inl (js "ENOENT")
  end.

(** [preprocessPlantUML] over the files [fs]. *)
Definition run (fs : files) (fuel : nat) (diagramText : jsstring)
  : (failure + jsstring) * state :=
  preprocessPlantUML (vfs_exists fs) (vfs_read fs) path_join dirname
    URL_protocol fuel diagramText.

Definition run_from (fs : files) (fuel : nat) (diagramText dirPath : jsstring)
    (st : state) : (failure + jsstring) * state :=
  preprocessPlantUmlIncludes (vfs_exists fs) (vfs_read fs) path_join dirname
    URL_protocol fuel diagramText dirPath st.

End Reference.

(* ================================================================== *)
(** ** Vega-Lite data inlining *)

Module VegaLite.

(** The values [JSON5.parse] builds.  A number is kept as the text
    [String(n)] gives for it; an object keeps its members in property
    order. *)
Inductive value :=
| VUndefined
| VNull
| VBool (b : bool)
| VNumber (repr : jsstring)
| VString (s : jsstring)
| VArray (items : list value)
| VObject (members : list (jsstring * value)).

(** ToBoolean. *)
Definition truthy (v : value) : bool :=
  match v with
  | VUndefined | VNull => false
  | VBool b => b
  | VNumber t => negb (str_eqb t (js "0") || str_eqb t (js "NaN"))
  | VString s => negb (str_eqb s [])
  | VArray _ | VObject _ => true
  end.

Fixpoint lookup_member (k : jsstring) (ms : list (jsstring * value)) : option value :=
  match ms with
  | [] => None
  | (k', v) :: ms' => if str_eqb k' k then Some v else lookup_member k ms'
  end.

(** [v.k] for the property names the source reads ([data], [url],
    [format]): only an object has them. *)
Definition get (v : value) (k : jsstring) : value :=
  match v with
  | VObject ms =>
      match lookup_member k ms with
      | Some w => w
      | None => VUndefined
      end
  | _ => VUndefined
  end.

(** [o.k = v] on the members of an object: an existing property keeps
    its place, a new one goes last. *)
Fixpoint set_member (k : jsstring) (v : value) (ms : list (jsstring * value))
  : list (jsstring * value) :=
  match ms with
  | [] => [(k, v)]
  | (k', w) :: ms' =>
      if str_eqb k' k then (k', v) :: ms' else (k', w) :: set_member k v ms'
  end.

Definition set (o : value) (k : jsstring) (v : value) : value :=
  match o with
  | VObject ms => VObject (set_member k v ms)
  | _ => o
  end.


(** ToString, as the template texts, [new URL] and [exec] apply it to
    [data.url]. *)
Fixpoint ToString (v : value) : jsstring :=
  match v with
  | VUndefined => js "undefined"
  | VNull => js "null"
  | VBool true => js "true"
  | VBool false => js "false"
  | VNumber t => t
  | VString s => s
  | VArray items =>
      (fix elements (l : list value) : jsstring :=
         match l with
         | [] => []
         | i :: l' =>
             let t := match i with
                      | VUndefined | VNull => []
                      | _ => ToString i
                      end in
             match l' with
             | [] => t
             | _ => t ++ chr "," :: elements l'
             end
         end) items
  | VObject _ => js "[object Object]"
  end.

(** QuoteJSONString. *)
Definition hex_digit (n : N) : jschar :=
  if (n <? 10)%N then (48 + n)%N else (87 + n)%N.

Definition unicode_escape (c : jschar) : jsstring :=
  js "\u" ++ [hex_digit (c / 4096); hex_digit ((c / 256) mod 16);
               hex_digit ((c / 16) mod 16); hex_digit (c mod 16)]%N.

Definition is_lead (c : jschar) : bool := ((55296 <=? c) && (c <=? 56319))%N.
Definition is_trail (c : jschar) : bool := ((56320 <=? c) && (c <=? 57343))%N.

Fixpoint quote_body (s : jsstring) : jsstring :=
  match s with
  | [] => []
  | c :: s' =>
      if (c =? 8)%N then js "\b" ++ quote_body s'
      else if (c =? 9)%N then js "\t" ++ quote_body s'
      else if (c =? 10)%N then js "\n" ++ quote_body s'
      else if (c =? 12)%N then js "\f" ++ quote_body s'
      else if (c =? 13)%N then js "\r" ++ quote_body s'
      else if (c =? 34)%N then 92%N :: 34%N :: quote_body s'
      else if (c =? 92)%N then 92%N :: 92%N :: quote_body s'
      else if (c <? 32)%N then unicode_escape c ++ quote_body s'
      else if is_lead c then
        match s' with
        | d :: s'' =>
            if is_trail d then c :: d :: quote_body s''
            else unicode_escape c ++ quote_body s'
        | [] => unicode_escape c
        end
      else if is_trail c then unicode_escape c ++ quote_body s'
      else c :: quote_body s'
  end.

Definition quote (s : jsstring) : jsstring := 34%N :: quote_body s ++ [34%N].

(** SerializeJSONProperty without indentation; [None] is [undefined],
    which an object leaves out and an array prints as null. *)
Fixpoint serialize (v : value) : option jsstring :=
  match v with
  | VUndefined => None
  | VNull => Some (js "null")
  | VBool true => Some (js "true")
  | VBool false => Some (js "false")
  | VNumber t =>
      if str_eqb t (js "NaN") || str_eqb t (js "Infinity")
         || str_eqb t (js "-Infinity")
      then Some (js "null") else Some t
  | VString s => Some (quote s)
  | VArray items =>
      Some (chr "[" ::
            join (chr ",")
              ((fix elements (l : list value) : list jsstring :=
                  match l with
                  | [] => []
                  | i :: l' =>
                      match serialize i with
                      | Some t => t :: elements l'
                      | None => js "null" :: elements l'
                      end
                  end) items) ++ [chr "]"])
  | VObject ms =>
      Some (chr "{" ::
            join (chr ",")
              ((fix members (l : list (jsstring * value)) : list jsstring :=
                  match l with
                  | [] => []
                  | (k, w) :: l' =>
                      match serialize w with
                      | Some t => (quote k ++ chr ":" :: t) :: members l'
                      | None => members l'
                      end
                  end) ms) ++ [chr "}"])
  end.

(** [JSON.stringify(v)] for a value that is not [undefined]. *)
Definition JSON_stringify (v : value) : jsstring :=
  match serialize v with
  | Some t => t
  | None => js "undefined"
  end.

Inductive vl_failure :=
| ParseError (cause document : jsstring)
| LocalReadError (url cause : jsstring)
| NullMatch.                 (* [exec] returned [null] and [[1]] was read *)

Definition known_types : list jsstring :=
  [js "json"; js "csv"; js "tsv"; js "dsv"; js "topojson"].

(** The first capture of the extension pattern on a text; the outer
    [None] is a failed match. *)
Definition extension (u : jsstring) : option (option jsstring) :=
  match exec false regExExtension u with
  | Some m => Some (group m 1)
  | None => None
  end.

(** The type the source settles on for a captured extension. *)
Definition format_type (captured : option jsstring) : jsstring :=
  match captured with
  | Some t => if includes known_types t then t else js "json"
  | None => js "json"
  end.

Section Transform.

(** [JSON5.parse], [vfs.read] and the [URL] constructor; [inl e] is a
    call that throws [e]. *)
Variable JSON5_parse : jsstring -> jsstring + value.
Variable vfs_read : value -> jsstring + value.
Variable URL_protocol : jsstring -> option jsstring.

Definition isRemoteUrl (s : jsstring) : bool :=
  match URL_protocol s with
  | Some protocol => negb (str_eqb protocol (js "file:"))
  | None => false
  end.

(** The result and the warnings written to the console. *)
Definition preprocessVegaLite (diagramText : jsstring)
  : (vl_failure + jsstring) * list jsstring :=
  match JSON5_parse diagramText with
  | inl e => (inl (ParseError e diagramText), [])
  | inr diagramObject =>
      if negb (truthy diagramObject)
         || negb (truthy (get diagramObject (js "data")))
         || negb (truthy (get (get diagramObject (js "data")) (js "url")))
      then (inr diagramText, [])
      else
        let data := get diagramObject (js "data") in
        let url := get data (js "url") in
        match vfs_read url with
        | inl e =>
            if isRemoteUrl (ToString url)
            then (inr diagramText, [ToString url])
            else (inl (LocalReadError (ToString url) e), [])
        | inr content =>
            let data := set data (js "values") content in
            let format :=
              if negb (truthy (get data (js "format"))) then
                match extension (ToString url) with
                | Some captured =>
                    inr (Some (VObject [(js "type", VString (format_type captured))]))
                | None => inl NullMatch
                end
              else inr None in
            match format with
            | inl f => (inl f, [])
            | inr f =>
                let data := match f with
                            | Some o => set data (js "format") o
                            | None => data
                            end in
                let data := set data (js "url") VUndefined in
                (inr (JSON_stringify (set diagramObject (js "data") data)), [])
            end
        end
  end.

End Transform.

End VegaLite.

(* ================================================================== *)
(** * Properties *)

(** ** Strings *)

Module JSFacts.

Lemma split_nonempty sep s : split sep s <> [].
Proof.
  destruct s as [|c s]; simpl; [discriminate|].
  destruct (N.eqb c sep); [discriminate|].
  destruct (split sep s); discriminate.
Qed.

(** Joining what [split] gives back restores the text. *)
Lemma join_split sep s : join sep (split sep s) = s.
Proof.
  induction s as [|c s IH]; simpl; [reflexivity|].
  destruct (N.eqb_spec c sep) as [->|Hne].
  - pose proof (split_nonempty sep s) as Hs.
    destruct (split sep s) as [|w ws] eqn:E; [congruence|].
    simpl. now rewrite <- IH.
  - destruct (split sep s) as [|w ws] eqn:E.
    + now destruct (split_nonempty sep s).
    + destruct ws as [|w' ws]; simpl in *; now rewrite <- IH.
Qed.

Lemma removelast_snoc {A} (l : list A) (a : A) : removelast (l ++ [a]) = l.
Proof. apply removelast_last. Qed.

End JSFacts.

(* ------------------------------------------------------------------ *)
(** ** The matcher *)

Module MatcherFacts.

(** The whole input of a state. *)
Definition whole (x : mstate) : jsstring := rev (before x) ++ after x.

(** [y] is a state of the same input, not behind [x] in the direction
    of the match. *)
Definition advances (fwd : bool) (x y : mstate) : Prop :=
  whole y = whole x /\ (if fwd then pos x <= pos y else pos y <= pos x).

Lemma advances_refl fwd x : advances fwd x x.
Proof. split; [reflexivity | destruct fwd; lia]. Qed.

Lemma advances_trans fwd x y z :
  advances fwd x y -> advances fwd y z -> advances fwd x z.
Proof.
  intros [H1 H2] [H3 H4]; split; [congruence | destruct fwd; lia].
Qed.

Lemma step_advances fwd x ch y :
  step fwd x = Some (ch, y) -> advances fwd x y.
Proof.
  unfold step, advances, whole, pos.
  destruct fwd.
  - destruct (after x) as [|c r] eqn:E; [discriminate|].
    intros [= <- <-]; simpl. rewrite <- app_assoc. simpl. split; [reflexivity | lia].
  - destruct (before x) as [|c l] eqn:E; [discriminate|].
    intros [= <- <-]; simpl. rewrite <- app_assoc. simpl. split; [reflexivity | lia].
Qed.

Lemma clear_advances fwd gs x : advances fwd x (clear gs x).
Proof.
  unfold clear; destruct gs; [apply advances_refl|].
  split; [reflexivity | unfold pos; simpl; destruct fwd; lia].
Qed.

Lemma clear_after gs x : after (clear gs x) = after x.
Proof. now destruct gs. Qed.

Lemma clear_before gs x : before (clear gs x) = before x.
Proof. now destruct gs. Qed.

Lemma clear_pos gs x : pos (clear gs x) = pos x.
Proof. unfold pos. now rewrite clear_before. Qed.

Section Invariant.

Variable ml : bool.

(** What a matcher guarantees: a successful result went through the
    continuation at a state of the same input, not behind the start. *)
Definition sound (fwd : bool) (ma : mstate -> cont -> option mstate) : Prop :=
  forall x c z, ma x c = Some z ->
    exists y, c y = Some z /\ advances fwd x y.

Lemma match_char_sound p fwd : sound fwd (match_char p fwd).
Proof.
  intros x c z. unfold match_char.
  destruct (step fwd x) as [[ch y]|] eqn:E; [|discriminate].
  destruct (p ch); [|discriminate].
  intros H. exists y. split; [assumption | eapply step_advances; eassumption].
Qed.

Lemma repeat_matcher_sound fwd ma gs greedy c :
  sound fwd ma ->
  forall fuel min max x z,
    repeat_matcher ma gs greedy c fuel min max x = Some z ->
    exists y, c y = Some z /\ advances fwd x y.
Proof.
  intros Hma. induction fuel as [|fuel IH]; intros min max x z H.
  - simpl in H. destruct max as [[|k]|]; try discriminate.
    exists x. split; [assumption | apply advances_refl].
  - simpl in H.
    assert (Hround : forall d',
      d' = (fun y => if ((min =? 0)%nat && (pos y =? pos x)%nat)%bool then None
                     else repeat_matcher ma gs greedy c fuel (Nat.pred min)
                            (option_map Nat.pred max) y) ->
      ma (clear gs x) d' = Some z -> exists y, c y = Some z /\ advances fwd x y).
    { intros d' -> Hm. apply Hma in Hm. destruct Hm as (y & Hd & Hadv).
      destruct ((min =? 0)%nat && (pos y =? pos x)%nat)%bool; [discriminate|].
      apply IH in Hd. destruct Hd as (y' & Hc & Hadv').
      exists y'. split; [assumption|].
      eapply advances_trans; [apply clear_advances|].
      eapply advances_trans; eassumption. }
    assert (Hstop : c x = Some z -> exists y, c y = Some z /\ advances fwd x y).
    { intros Hc. exists x. split; [assumption | apply advances_refl]. }
    destruct max as [[|k]|].
    + now apply Hstop.
    + destruct (negb (min =? 0)%nat); [eapply Hround; [reflexivity | exact H]|].
      destruct greedy; unfold orelse in H.
      * match type of H with
        | match ?e with _ => _ end = _ => destruct e eqn:E
        end.
        -- inversion H; subst. eapply Hround; [reflexivity | exact E].
        -- now apply Hstop.
      * destruct (c x) eqn:E.
        -- inversion H; subst. now apply Hstop.
        -- eapply Hround; [reflexivity | exact H].
    + destruct (negb (min =? 0)%nat); [eapply Hround; [reflexivity | exact H]|].
      destruct greedy; unfold orelse in H.
      * match type of H with
        | match ?e with _ => _ end = _ => destruct e eqn:E
        end.
        -- inversion H; subst. eapply Hround; [reflexivity | exact E].
        -- now apply Hstop.
      * destruct (c x) eqn:E.
        -- inversion H; subst. now apply Hstop.
        -- eapply Hround; [reflexivity | exact H].
Qed.

Lemma matcher_sound r : forall fwd, sound fwd (matcher ml r fwd).
Proof.
  induction r as [ | ch | | neg items | a IHa b IHb | a IHa b IHb
                 | min max greedy a IHa | n a IHa | ahead positive a IHa | | ];
    intros fwd x c z H.
  - exists x. split; [assumption | apply advances_refl].
  - now apply match_char_sound in H.
  - now apply match_char_sound in H.
  - now apply match_char_sound in H.
  - simpl in H. destruct fwd.
    + apply IHa in H. destruct H as (y1 & H & A1).
      apply IHb in H. destruct H as (y2 & H & A2).
      exists y2. split; [assumption | eapply advances_trans; eassumption].
    + apply IHb in H. destruct H as (y1 & H & A1).
      apply IHa in H. destruct H as (y2 & H & A2).
      exists y2. split; [assumption | eapply advances_trans; eassumption].
  - simpl in H. unfold orelse in H. destruct (matcher ml a fwd x c) eqn:E.
    + inversion H; subst. now apply IHa in E.
    + now apply IHb in H.
  - eapply (repeat_matcher_sound (fwd := fwd)); [|exact H].
    intros x' c' z'. apply IHa.
  - simpl in H. apply IHa in H. destruct H as (y & H & A).
    eexists. split; [exact H|].
    destruct A as [A1 A2]. split; [exact A1 | exact A2].
  - simpl in H. destruct (matcher ml a ahead x (fun y => Some y)) as [y|] eqn:E.
    + destruct positive; [|discriminate].
      eexists. split; [exact H|]. split; [reflexivity | unfold pos; simpl; destruct fwd; lia].
    + destruct positive; [discriminate|].
      exists x. split; [assumption | apply advances_refl].
  - simpl in H. exists x. split; [|apply advances_refl].
    destruct (before x); [assumption|].
    destruct (ml && _)%bool; [assumption | discriminate].
  - simpl in H. exists x. split; [|apply advances_refl].
    destruct (after x); [assumption|].
    destruct (ml && _)%bool; [assumption | discriminate].
Qed.

End Invariant.

Lemma app_eq_longer {A} (q : list A) : forall p a b,
  p ++ a = q ++ b -> length q <= length p ->
  exists k, p = q ++ k /\ b = k ++ a.
Proof.
  induction q as [|h q IH]; intros p a b H L; simpl in *.
  - exists p. auto.
  - destruct p as [|h' p]; simpl in *; [lia|].
    injection H as -> H.
    destruct (IH p a b H ltac:(lia)) as (k & -> & ->).
    exists k. auto.
Qed.

(** Two states of one input, the second not behind the first: the text
    between them and the text after the second make up the text after
    the first. *)
Lemma between_after x y :
  advances true x y -> between x y ++ after y = after x.
Proof.
  unfold advances, whole, between, pos. intros [Hw Hp].
  destruct (app_eq_longer (rev (before x)) (rev (before y)) (after y) (after x) Hw)
    as (k & E1 & E2).
  { rewrite !length_rev. exact Hp. }
  assert (L : length (before y) - length (before x) = length k).
  { apply (f_equal (@length _)) in E1.
    rewrite length_app, !length_rev in E1. lia. }
  rewrite L, E2, firstn_app, Nat.sub_diag, firstn_all, firstn_O, app_nil_r.
  reflexivity.
Qed.

(** A match leaves the text before it alone and splits the text after
    it into the matched text and the rest. *)
Lemma match_at_inv ml r bef aft m :
  match_at ml r bef aft = Some m ->
  prefix m = rev bef /\ matched m ++ suffix m = aft.
Proof.
  unfold match_at.
  destruct (matcher ml r true (MState bef aft []) (fun y => Some y)) as [y|] eqn:E;
    [|discriminate].
  intros [= <-]; simpl. split; [reflexivity|].
  apply matcher_sound in E. destruct E as (y' & [= ->] & A).
  now apply between_after in A.
Qed.

(** What [search] finds: the text skipped before the match, the match,
    and the rest. *)
Lemma search_inv ml r : forall aft bef m,
  search ml r bef aft = Some m ->
  exists skipped,
    aft = skipped ++ matched m ++ suffix m /\
    prefix m = rev bef ++ skipped /\
    match_at ml r (rev skipped ++ bef) (matched m ++ suffix m) = Some m.
Proof.
  induction aft as [|ch aft IH]; intros bef m H; simpl in H.
  - destruct (match_at ml r bef []) as [m'|] eqn:E; [|discriminate].
    inversion H; subst m'. destruct (match_at_inv _ _ _ _ E) as [P S].
    exists []. simpl. rewrite app_nil_r, S. auto.
  - destruct (match_at ml r bef (ch :: aft)) as [m'|] eqn:E.
    + inversion H; subst m'. destruct (match_at_inv _ _ _ _ E) as [P S].
      exists []. simpl. rewrite app_nil_r, S. auto.
    + apply IH in H. destruct H as (sk & H1 & H2 & H3).
      exists (ch :: sk). simpl. rewrite <- H1. split; [reflexivity|].
      split.
      * rewrite H2. simpl. now rewrite <- app_assoc.
      * rewrite <- app_assoc. simpl. exact H3.
Qed.

(** Without a match the global replacement changes nothing. *)
Lemma replace_all_no_match ml r repl text :
  exec ml r text = None -> replace_all ml r repl text = text.
Proof.
  unfold exec, replace_all. simpl. now intros ->.
Qed.

(** *** Global replacement, one position at a time *)

Section Replace.

Variables (ml : bool) (r : regex) (repl : jsstring).

Lemma search_here bef aft m :
  match_at ml r bef aft = Some m -> search ml r bef aft = Some m.
Proof. intros H. destruct aft; simpl; now rewrite H. Qed.

Lemma search_next bef ch aft :
  match_at ml r bef (ch :: aft) = None ->
  search ml r bef (ch :: aft) = search ml r (ch :: bef) aft.
Proof. intros H. simpl. now rewrite H. Qed.

(** More fuel than the text is long is as good as any. *)
Lemma replace_from_fuel : forall fuel fuel' bef aft,
  length aft < fuel -> length aft < fuel' ->
  replace_from ml r repl fuel bef aft = replace_from ml r repl fuel' bef aft.
Proof.
  induction fuel as [|fuel IH]; intros [|fuel'] bef aft H H'; try lia.
  simpl. destruct (search ml r bef aft) as [m|] eqn:E; [|reflexivity].
  apply search_inv in E. destruct E as (sk & E & _).
  assert (L : length aft = length sk + (length (matched m) + length (suffix m))).
  { rewrite E at 1. now rewrite !length_app. }
  destruct (matched m) as [|a mt]; destruct (suffix m) as [|ch rest];
    simpl in L; try reflexivity.
  - f_equal. f_equal. f_equal. apply IH; lia.
  - f_equal. f_equal. apply IH; simpl; lia.
  - f_equal. f_equal. apply IH; simpl; lia.
Qed.

Lemma replace_from_S fuel bef aft :
  replace_from ml r repl (S fuel) bef aft
  = match search ml r bef aft with
    | None => aft
    | Some m =>
        let skipped := firstn (length (prefix m) - length bef) aft in
        match matched m, suffix m with
        | [], [] => skipped ++ repl
        | [], ch :: rest =>
            skipped ++ repl ++ ch ::
              replace_from ml r repl fuel (ch :: rev (prefix m)) rest
        | mt, rest =>
            skipped ++ repl ++
              replace_from ml r repl fuel (rev mt ++ rev (prefix m)) rest
        end
    end.
Proof. reflexivity. Qed.

(** The replacement with as much fuel as it takes. *)
Definition replace_at (bef aft : jsstring) : jsstring :=
  replace_from ml r repl (S (length aft)) bef aft.

Lemma replace_all_at text : replace_all ml r repl text = replace_at [] text.
Proof. reflexivity. Qed.

(** At a match that is not empty, the replacement text comes out and
    the replacement goes on after the match. *)
Lemma replace_at_hit bef aft m :
  match_at ml r bef aft = Some m ->
  matched m <> [] ->
  replace_at bef aft = repl ++ replace_at (rev (matched m) ++ bef) (suffix m).
Proof.
  intros H Hne. unfold replace_at. rewrite replace_from_S.
  rewrite (@search_here bef aft m H). cbv zeta.
  destruct (match_at_inv _ _ _ _ H) as [P S].
  rewrite P, length_rev, Nat.sub_diag, rev_involutive. cbn [firstn app].
  assert (L : length aft = length (matched m) + length (suffix m))
    by (now rewrite <- S, length_app).
  destruct (matched m) as [|a mt] eqn:Em; [congruence|].
  f_equal. apply replace_from_fuel; simpl in *; lia.
Qed.

(** Where the pattern does not match, the code unit is kept and the
    replacement goes on after it. *)
Lemma replace_at_miss bef ch aft :
  match_at ml r bef (ch :: aft) = None ->
  replace_at bef (ch :: aft) = ch :: replace_at (ch :: bef) aft.
Proof.
  intros H. unfold replace_at. rewrite !replace_from_S.
  rewrite (@search_next bef ch aft H).
  destruct (search ml r (ch :: bef) aft) as [m|] eqn:E; [|reflexivity].
  apply search_inv in E. destruct E as (sk & E & P & _).
  assert (L : length aft = length sk + (length (matched m) + length (suffix m))).
  { rewrite E at 1. now rewrite !length_app. }
  cbv zeta. rewrite P, length_app, length_rev. cbn [length].
  replace (S (length bef) + length sk - length bef) with (S (length sk)) by lia.
  replace (S (length bef) + length sk - S (length bef)) with (length sk) by lia.
  cbn [firstn].
  destruct (matched m) as [|a mt]; destruct (suffix m) as [|c rest];
    cbn [length] in L; try reflexivity.
  - cbn [app]. f_equal. f_equal. f_equal. f_equal. apply replace_from_fuel; lia.
  - cbn [app]. f_equal. f_equal. f_equal. apply replace_from_fuel; cbn [length]; lia.
  - cbn [app]. f_equal. f_equal. f_equal. apply replace_from_fuel; cbn [length]; lia.
Qed.

Lemma replace_at_nil bef :
  match_at ml r bef [] = None -> replace_at bef [] = [].
Proof.
  intros H. unfold replace_at. rewrite replace_from_S. simpl search. now rewrite H.
Qed.

(** Without a match in the text, nothing is replaced. *)
Lemma replace_at_none bef aft :
  search ml r bef aft = None -> replace_at bef aft = aft.
Proof. intros H. unfold replace_at. rewrite replace_from_S. now rewrite H. Qed.

End Replace.

(** *** What a match reads, and the captures it leaves alone *)

Section Reading.

Variable ml : bool.

(** The texts a term can match, read left to right.  The rounds of a
    repetition are within its bounds (a lower bound above the upper one
    is not reached). *)
Definition rounds (min : nat) (max : option nat) (n : nat) : Prop :=
  match max with Some k => n <= k | None => True end /\
  (min <= n \/ match max with Some k => k < min | None => False end).

Fixpoint denotes (r : regex) (s : jsstring) : Prop :=
  match r with
  | Empty | Bol | Eol | Look _ _ _ => s = []
  | Char ch => s = [ch]
  | Dot => exists ch, s = [ch] /\ is_line_terminator ch = false
  | Class neg items => exists ch, s = [ch] /\ class_match neg items ch = true
  | Seq a b => exists s1 s2, s = s1 ++ s2 /\ denotes a s1 /\ denotes b s2
  | Alt a b => denotes a s \/ denotes b s
  | Quant min max _ a =>
      exists parts,
        s = concat parts /\ Forall (denotes a) parts /\
        rounds min max (length parts)
  | Group _ a => denotes a s
  end.

Lemma between_refl x : between x x = [].
Proof. unfold between. now rewrite Nat.sub_diag. Qed.

Lemma between_trans x y z :
  advances true x y -> advances true y z ->
  between x z = between x y ++ between y z.
Proof.
  intros A B.
  pose proof (between_after A) as E1. pose proof (between_after B) as E2.
  pose proof (between_after (advances_trans A B)) as E3.
  rewrite <- E2, app_assoc in E1. rewrite <- E1 in E3.
  now apply app_inv_tail in E3.
Qed.

Lemma step_between x ch y :
  step true x = Some (ch, y) -> between x y = [ch].
Proof.
  unfold step. destruct (after x) as [|c r] eqn:E; [discriminate|].
  intros [= <- <-]. unfold between, pos. cbn [before after]. rewrite E.
  cbn [length]. replace (S (length (before x)) - length (before x)) with 1 by lia.
  reflexivity.
Qed.

Lemma match_char_reads p x c z :
  match_char p true x c = Some z ->
  exists y ch, c y = Some z /\ advances true x y /\ between x y = [ch] /\
               p ch = true /\ caps y = caps x.
Proof.
  unfold match_char. destruct (step true x) as [[ch y]|] eqn:E; [|discriminate].
  destruct (p ch) eqn:P; [|discriminate]. intros H.
  exists y, ch. split; [assumption|]. split; [eapply step_advances; eassumption|].
  split; [now apply step_between|]. split; [assumption|].
  unfold step in E. destruct (after x); [discriminate|]. now injection E as _ <-.
Qed.

(** A text in the direction of the match between two states that hold
    the same place. *)
Definition same_place (x y : mstate) : Prop :=
  before y = before x /\ after y = after x.

Lemma same_place_between x x' y : same_place x x' -> between x' y = between x y.
Proof. intros [B A]. unfold between, pos. now rewrite B, A. Qed.

Lemma same_place_advances x x' y :
  same_place x x' -> advances true x' y -> advances true x y.
Proof. intros [B A]. unfold advances, whole, pos. now rewrite B, A. Qed.

Lemma clear_same_place gs x : same_place x (clear gs x).
Proof. split; [apply clear_before | apply clear_after]. Qed.

Lemma rounds_none min k : rounds min (Some 0) k -> k = 0.
Proof. intros [H _]. lia. Qed.

Lemma repeat_reads ma gs greedy c a :
  (forall x c z, ma x c = Some z ->
     exists y, c y = Some z /\ advances true x y /\ denotes a (between x y)) ->
  forall fuel min max x z,
    repeat_matcher ma gs greedy c fuel min max x = Some z ->
    exists y parts,
      c y = Some z /\ advances true x y /\ between x y = concat parts /\
      Forall (denotes a) parts /\ rounds min max (length parts).
Proof.
  intros Hma. induction fuel as [|fuel IH]; intros min max x z H.
  - simpl in H. destruct max as [[|k]|]; try discriminate.
    exists x, []. split; [assumption|]. split; [apply advances_refl|].
    split; [apply between_refl|]. split; [constructor|].
    unfold rounds. simpl. split; [lia|]. destruct min; [left; lia | right; lia].
  - assert (Hstop : min = 0 \/ max = Some 0 -> c x = Some z ->
      exists y parts,
        c y = Some z /\ advances true x y /\ between x y = concat parts /\
        Forall (denotes a) parts /\ rounds min max (length parts)).
    { intros Hmin Hc. exists x, []. split; [assumption|].
      split; [apply advances_refl|].
      split; [apply between_refl|]. split; [constructor|].
      unfold rounds. simpl. split; [destruct max; [lia | exact I]|].
      destruct Hmin as [-> | ->]; [left; lia|].
      destruct min; [left; lia | right; lia]. }
    assert (Hround : max <> Some 0 -> forall d',
      d' = (fun y => if ((min =? 0)%nat && (pos y =? pos x)%nat)%bool then None
                     else repeat_matcher ma gs greedy c fuel (Nat.pred min)
                            (option_map Nat.pred max) y) ->
      ma (clear gs x) d' = Some z ->
      exists y parts,
        c y = Some z /\ advances true x y /\ between x y = concat parts /\
        Forall (denotes a) parts /\ rounds min max (length parts)).
    { intros Hmax d' -> Hm. apply Hma in Hm. destruct Hm as (y & Hd & Hadv & Hden).
      destruct ((min =? 0)%nat && (pos y =? pos x)%nat)%bool; [discriminate|].
      apply IH in Hd. destruct Hd as (y' & parts & Hc & Hadv' & Hb & Hall & Hlen).
      pose proof (same_place_advances (clear_same_place gs x) Hadv) as Hadv0.
      exists y', (between x y :: parts). split; [exact Hc|].
      split; [exact (advances_trans Hadv0 Hadv')|].
      split; [rewrite (between_trans Hadv0 Hadv'), Hb; reflexivity|].
      split.
      - constructor; [|exact Hall].
        now rewrite <- (same_place_between y (clear_same_place gs x)).
      - unfold rounds in *. destruct Hlen as [Hup Hlow].
        destruct max as [[|k]|]; simpl in *; [congruence | |].
        + split; [lia|]. destruct Hlow as [Hlow | Hlow]; [left; lia | right; lia].
        + split; [exact I|]. destruct Hlow as [Hlow | []]. left. lia. }
    simpl in H. destruct max as [[|k]|].
    + apply Hstop; [now right | exact H].
    + destruct (min =? 0)%nat eqn:Emin; cbn [negb] in H;
        [|eapply Hround; [discriminate | reflexivity | exact H]].
      apply Nat.eqb_eq in Emin.
      destruct greedy; unfold orelse in H.
      * match type of H with
        | match ?e with _ => _ end = _ => destruct e eqn:E
        end.
        -- inversion H; subst. eapply Hround; [discriminate | reflexivity | exact E].
        -- apply Hstop; [now left | exact H].
      * destruct (c x) eqn:E.
        -- inversion H; subst. apply Hstop; [now left | reflexivity].
        -- eapply Hround; [discriminate | reflexivity | exact H].
    + destruct (min =? 0)%nat eqn:Emin; cbn [negb] in H;
        [|eapply Hround; [discriminate | reflexivity | exact H]].
      apply Nat.eqb_eq in Emin.
      destruct greedy; unfold orelse in H.
      * match type of H with
        | match ?e with _ => _ end = _ => destruct e eqn:E
        end.
        -- inversion H; subst. eapply Hround; [discriminate | reflexivity | exact E].
        -- apply Hstop; [now left | exact H].
      * destruct (c x) eqn:E.
        -- inversion H; subst. apply Hstop; [now left | reflexivity].
        -- eapply Hround; [discriminate | reflexivity | exact H].
Qed.

(** A match that reads forward went through its continuation after a
    text the term denotes. *)
Lemma matcher_reads r : forall x c z,
  matcher ml r true x c = Some z ->
  exists y, c y = Some z /\ advances true x y /\ denotes r (between x y).
Proof.
  induction r as [ | ch | | neg items | a IHa b IHb | a IHa b IHb
                 | min max greedy a IHa | n a IHa | ahead positive a IHa | | ];
    intros x c z H.
  - exists x. split; [assumption|]. split; [apply advances_refl | apply between_refl].
  - apply match_char_reads in H.
    destruct H as (y & c0 & Hc & A & B & P & _).
    apply N.eqb_eq in P. subst c0. exists y. auto.
  - apply match_char_reads in H.
    destruct H as (y & c0 & Hc & A & B & P & _).
    exists y. split; [assumption|]. split; [assumption|].
    exists c0. split; [assumption|]. now apply negb_true_iff in P.
  - apply match_char_reads in H.
    destruct H as (y & c0 & Hc & A & B & P & _).
    exists y. split; [assumption|]. split; [assumption|].
    exists c0. auto.
  - cbn [matcher] in H. apply IHa in H. destruct H as (y1 & H & A1 & D1).
    apply IHb in H. destruct H as (y2 & H & A2 & D2).
    exists y2. split; [assumption|]. split; [eapply advances_trans; eassumption|].
    exists (between x y1), (between y1 y2).
    split; [now apply between_trans | auto].
  - cbn [matcher] in H. unfold orelse in H.
    destruct (matcher ml a true x c) eqn:E.
    + inversion H; subst. apply IHa in E. destruct E as (y & Hc & A & D).
      exists y. split; [assumption|]. split; [assumption | now left].
    + apply IHb in H. destruct H as (y & Hc & A & D).
      exists y. split; [assumption|]. split; [assumption | now right].
  - cbn [matcher] in H.
    apply (@repeat_reads _ _ _ _ a) in H; [|intros x' c' z'; apply IHa].
    destruct H as (y & parts & Hc & A & B & F & L).
    exists y. split; [assumption|]. split; [assumption|].
    exists parts. auto.
  - cbn [matcher] in H. apply IHa in H. destruct H as (y & H & A & D).
    eexists. split; [exact H|]. split; [exact A | exact D].
  - cbn [matcher] in H.
    destruct (matcher ml a ahead x (fun y => Some y)) as [y|] eqn:E.
    + destruct positive; [|discriminate].
      eexists. split; [exact H|]. split.
      * split; [reflexivity | unfold pos; simpl; lia].
      * unfold between, pos. cbn [before]. now rewrite Nat.sub_diag.
    + destruct positive; [discriminate|].
      exists x. split; [assumption|]. split; [apply advances_refl | apply between_refl].
  - cbn [matcher] in H. exists x. split; [|split; [apply advances_refl | apply between_refl]].
    destruct (before x); [assumption|].
    destruct (ml && _)%bool; [assumption | discriminate].
  - cbn [matcher] in H. exists x. split; [|split; [apply advances_refl | apply between_refl]].
    destruct (after x); [assumption|].
    destruct (ml && _)%bool; [assumption | discriminate].
Qed.

End Reading.

Section Captures.

Variable ml : bool.

(** The captures outside the groups [gs] are the same in both states. *)
Definition keeps (gs : list nat) (x y : mstate) : Prop :=
  forall n, ~ In n gs -> capture (caps y) n = capture (caps x) n.

Lemma keeps_refl gs x : keeps gs x x.
Proof. intros n _. reflexivity. Qed.

Lemma keeps_trans g1 g2 x y z :
  keeps g1 x y -> keeps g2 y z -> keeps (g1 ++ g2) x z.
Proof.
  intros H1 H2 n Hn. rewrite H2, H1; [reflexivity | |];
    intros Hin; apply Hn; apply in_or_app; auto.
Qed.

Lemma keeps_more gs gs' x y : incl gs gs' -> keeps gs x y -> keeps gs' x y.
Proof. intros Hi H n Hn. apply H. intros Hin. apply Hn. now apply Hi. Qed.

Lemma keeps_clear gs x : keeps gs x (clear gs x).
Proof.
  intros n Hn. unfold clear. destruct gs as [|g gs]; [reflexivity|].
  cbn [caps]. induction (caps x) as [|[k v] cs IH]; [reflexivity|].
  cbn [filter fst capture].
  destruct (existsb (Nat.eqb k) (g :: gs)) eqn:E; cbn [negb capture].
  - destruct (Nat.eqb_spec k n) as [->|]; [|exact IH].
    apply existsb_exists in E. destruct E as (j & Hj & Ej).
    apply Nat.eqb_eq in Ej. subst j. contradiction.
  - now rewrite IH.
Qed.

Lemma match_char_keeps p fwd x c z :
  match_char p fwd x c = Some z -> exists y, c y = Some z /\ keeps [] x y.
Proof.
  unfold match_char, step.
  destruct fwd.
  - destruct (after x) as [|ch r]; [discriminate|].
    destruct (p ch); [|discriminate]. intros H. eexists. split; [exact H|].
    intros n _. reflexivity.
  - destruct (before x) as [|ch l]; [discriminate|].
    destruct (p ch); [|discriminate]. intros H. eexists. split; [exact H|].
    intros n _. reflexivity.
Qed.

Lemma repeat_keeps ma gs greedy c :
  (forall x c z, ma x c = Some z -> exists y, c y = Some z /\ keeps gs x y) ->
  forall fuel min max x z,
    repeat_matcher ma gs greedy c fuel min max x = Some z ->
    exists y, c y = Some z /\ keeps gs x y.
Proof.
  intros Hma. induction fuel as [|fuel IH]; intros min max x z H.
  - simpl in H. destruct max as [[|k]|]; try discriminate.
    exists x. split; [assumption | apply keeps_refl].
  - simpl in H.
    assert (Hround : forall d',
      d' = (fun y => if ((min =? 0)%nat && (pos y =? pos x)%nat)%bool then None
                     else repeat_matcher ma gs greedy c fuel (Nat.pred min)
                            (option_map Nat.pred max) y) ->
      ma (clear gs x) d' = Some z -> exists y, c y = Some z /\ keeps gs x y).
    { intros d' -> Hm. apply Hma in Hm. destruct Hm as (y & Hd & Hk).
      destruct ((min =? 0)%nat && (pos y =? pos x)%nat)%bool; [discriminate|].
      apply IH in Hd. destruct Hd as (y' & Hc & Hk').
      exists y'. split; [assumption|].
      intros n Hn. rewrite Hk', Hk by assumption. now apply keeps_clear. }
    assert (Hstop : c x = Some z -> exists y, c y = Some z /\ keeps gs x y).
    { intros Hc. exists x. split; [assumption | apply keeps_refl]. }
    destruct max as [[|k]|].
    + now apply Hstop.
    + destruct (negb (min =? 0)%nat); [eapply Hround; [reflexivity | exact H]|].
      destruct greedy; unfold orelse in H.
      * match type of H with
        | match ?e with _ => _ end = _ => destruct e eqn:E
        end.
        -- inversion H; subst. eapply Hround; [reflexivity | exact E].
        -- now apply Hstop.
      * destruct (c x) eqn:E.
        -- inversion H; subst. now apply Hstop.
        -- eapply Hround; [reflexivity | exact H].
    + destruct (negb (min =? 0)%nat); [eapply Hround; [reflexivity | exact H]|].
      destruct greedy; unfold orelse in H.
      * match type of H with
        | match ?e with _ => _ end = _ => destruct e eqn:E
        end.
        -- inversion H; subst. eapply Hround; [reflexivity | exact E].
        -- now apply Hstop.
      * destruct (c x) eqn:E.
        -- inversion H; subst. now apply Hstop.
        -- eapply Hround; [reflexivity | exact H].
Qed.

(** A match changes no capture but those of the groups of its term. *)
Lemma matcher_keeps r : forall fwd x c z,
  matcher ml r fwd x c = Some z ->
  exists y, c y = Some z /\ keeps (groups r) x y.
Proof.
  induction r as [ | ch | | neg items | a IHa b IHb | a IHa b IHb
                 | min max greedy a IHa | n a IHa | ahead positive a IHa | | ];
    intros fwd x c z H.
  - exists x. split; [assumption | apply keeps_refl].
  - now apply match_char_keeps in H.
  - now apply match_char_keeps in H.
  - now apply match_char_keeps in H.
  - cbn [matcher groups] in *. destruct fwd.
    + apply IHa in H. destruct H as (y1 & H & K1).
      apply IHb in H. destruct H as (y2 & H & K2).
      exists y2. split; [assumption | eapply keeps_trans; eassumption].
    + apply IHb in H. destruct H as (y1 & H & K1).
      apply IHa in H. destruct H as (y2 & H & K2).
      exists y2. split; [assumption|].
      eapply keeps_more; [|eapply keeps_trans; eassumption].
      intros k Hk. apply in_app_or in Hk. apply in_or_app. tauto.
  - cbn [matcher groups] in *. unfold orelse in H.
    destruct (matcher ml a fwd x c) eqn:E.
    + inversion H; subst. apply IHa in E. destruct E as (y & Hc & K).
      exists y. split; [assumption|].
      eapply keeps_more; [|exact K]. intros k Hk. apply in_or_app. now left.
    + apply IHb in H. destruct H as (y & Hc & K).
      exists y. split; [assumption|].
      eapply keeps_more; [|exact K]. intros k Hk. apply in_or_app. now right.
  - cbn [matcher groups] in *.
    eapply repeat_keeps; [|exact H]. intros x' c' z'. apply IHa.
  - cbn [matcher groups] in *. apply IHa in H. destruct H as (y & H & K).
    eexists. split; [exact H|].
    intros k Hk. cbn [caps capture].
    destruct (Nat.eqb_spec n k) as [->|]; [elim Hk; now left|].
    apply K. intros Hin. apply Hk. now right.
  - cbn [matcher groups] in *.
    destruct (matcher ml a ahead x (fun y => Some y)) as [y|] eqn:E.
    + destruct positive; [|discriminate].
      apply IHa in E. destruct E as (y0 & [= ->] & K).
      eexists. split; [exact H|]. exact K.
    + destruct positive; [discriminate|].
      exists x. split; [assumption | apply keeps_refl].
  - cbn [matcher] in H. exists x. split; [|apply keeps_refl].
    destruct (before x); [assumption|].
    destruct (ml && _)%bool; [assumption | discriminate].
  - cbn [matcher] in H. exists x. split; [|apply keeps_refl].
    destruct (after x); [assumption|].
    destruct (ml && _)%bool; [assumption | discriminate].
Qed.

End Captures.

End MatcherFacts.

(* ------------------------------------------------------------------ *)
(** ** Repetition of one code unit *)

Module RepeatFacts.

Import MatcherFacts.

(** What the repetitions of the source do on a class of code units,
    written by recursion on the text: the greedy star takes all it can
    and gives back one code unit at a time, the lazy star takes one
    more only when the rest fails. *)
Fixpoint star_greedy (p : jschar -> bool) (c : cont)
    (bef aft : jsstring) (cs : list (nat * jsstring)) : option mstate :=
  match aft with
  | ch :: aft' =>
      if p ch
      then orelse (star_greedy p c (ch :: bef) aft' cs)
                  (fun _ => c (MState bef aft cs))
      else c (MState bef aft cs)
  | [] => c (MState bef aft cs)
  end.

Definition plus_greedy (p : jschar -> bool) (c : cont)
    (bef aft : jsstring) (cs : list (nat * jsstring)) : option mstate :=
  match aft with
  | ch :: aft' => if p ch then star_greedy p c (ch :: bef) aft' cs else None
  | [] => None
  end.

Fixpoint star_lazy (p : jschar -> bool) (c : cont)
    (bef aft : jsstring) (cs : list (nat * jsstring)) : option mstate :=
  match c (MState bef aft cs) with
  | Some z => Some z
  | None =>
      match aft with
      | ch :: aft' => if p ch then star_lazy p c (ch :: bef) aft' cs else None
      | [] => None
      end
  end.

Lemma succ_neq n : (S n =? n)%nat = false.
Proof. apply Nat.eqb_neq. lia. Qed.

Lemma repeat_star_unfold ma gs greedy c fuel x :
  repeat_matcher ma gs greedy c (S fuel) 0 None x
  = if greedy
    then orelse (ma (clear gs x)
                   (fun y => if (pos y =? pos x)%nat then None
                             else repeat_matcher ma gs greedy c fuel 0 None y))
                (fun _ => c x)
    else orelse (c x)
           (fun _ => ma (clear gs x)
                       (fun y => if (pos y =? pos x)%nat then None
                                 else repeat_matcher ma gs greedy c fuel 0 None y)).
Proof. reflexivity. Qed.

Lemma repeat_plus_unfold ma gs greedy c fuel x :
  repeat_matcher ma gs greedy c (S fuel) 1 None x
  = ma (clear gs x) (fun y => repeat_matcher ma gs greedy c fuel 0 None y).
Proof. reflexivity. Qed.

Lemma match_char_cons p ch bef aft cs c :
  match_char p true (MState bef (ch :: aft) cs) c
  = if p ch then c (MState (ch :: bef) aft cs) else None.
Proof. reflexivity. Qed.

Lemma match_char_nil p bef cs c :
  match_char p true (MState bef [] cs) c = None.
Proof. reflexivity. Qed.

Lemma pos_cons ch bef aft aft' cs cs' :
  (pos (MState (ch :: bef) aft cs) =? pos (MState bef aft' cs'))%nat = false.
Proof. unfold pos. simpl before. simpl length. apply succ_neq. Qed.

Lemma repeat_star_greedy p c : forall aft bef cs fuel,
  length aft < fuel ->
  repeat_matcher (match_char p true) [] true c fuel 0 None (MState bef aft cs)
  = star_greedy p c bef aft cs.
Proof.
  induction aft as [|ch aft IH]; intros bef cs [|fuel] Hf; simpl in Hf; try lia;
    rewrite repeat_star_unfold; change (clear [] ?x) with x.
  - now rewrite match_char_nil.
  - rewrite match_char_cons. cbn [star_greedy].
    destruct (p ch); [|reflexivity].
    rewrite pos_cons, IH by lia. reflexivity.
Qed.

Lemma repeat_plus_greedy p c aft bef cs fuel :
  length aft < fuel ->
  repeat_matcher (match_char p true) [] true c fuel 1 None (MState bef aft cs)
  = plus_greedy p c bef aft cs.
Proof.
  destruct fuel as [|fuel]; [lia|]. intros Hf.
  rewrite repeat_plus_unfold. change (clear [] ?x) with x.
  destruct aft as [|ch aft]; [now rewrite match_char_nil|].
  rewrite match_char_cons. cbn [plus_greedy].
  destruct (p ch); [|reflexivity].
  simpl in Hf. now rewrite repeat_star_greedy by lia.
Qed.

Lemma repeat_star_lazy p c : forall aft bef cs fuel,
  length aft < fuel ->
  repeat_matcher (match_char p true) [] false c fuel 0 None (MState bef aft cs)
  = star_lazy p c bef aft cs.
Proof.
  induction aft as [|ch aft IH]; intros bef cs [|fuel] Hf; simpl in Hf; try lia;
    rewrite repeat_star_unfold; change (clear [] ?x) with x; unfold orelse;
    cbn [star_lazy].
  - destruct (c (MState bef [] cs)); [reflexivity|]. now rewrite match_char_nil.
  - destruct (c (MState bef (ch :: aft) cs)); [reflexivity|].
    rewrite match_char_cons.
    destruct (p ch); [|reflexivity].
    rewrite pos_cons, IH by lia. reflexivity.
Qed.

(** An optional term: one round when it moves, none otherwise. *)
Lemma repeat_optional ma gs c fuel x :
  repeat_matcher ma gs true c (S fuel) 0 (Some 1) x
  = orelse (ma (clear gs x)
              (fun y => if (pos y =? pos x)%nat then None else c y))
           (fun _ => c x).
Proof. destruct fuel; reflexivity. Qed.

(** The text between a state and the state a text further. *)
Lemma between_span bef a r cs cs' :
  between (MState bef (a ++ r) cs) (MState (rev a ++ bef) r cs') = a.
Proof.
  unfold between, pos. simpl. rewrite length_app, length_rev.
  replace (length a + length bef - length bef) with (length a) by lia.
  now rewrite firstn_app, Nat.sub_diag, firstn_all, firstn_O, app_nil_r.
Qed.

(** The greedy star stops at the end of the run when the rest of the
    pattern cannot start inside the run. *)
Lemma star_greedy_run p c : forall run bef rest cs,
  forallb p run = true ->
  (match rest with ch :: _ => p ch = false | [] => True end) ->
  (forall i, i < length run ->
     c (MState (rev (firstn i run) ++ bef) (skipn i run ++ rest) cs) = None) ->
  star_greedy p c bef (run ++ rest) cs = c (MState (rev run ++ bef) rest cs).
Proof.
  induction run as [|a run IH]; intros bef rest cs Hall Hrest Hin; simpl.
  - destruct rest as [|ch rest]; [reflexivity|]. simpl in *. now rewrite Hrest.
  - simpl in Hall. apply andb_prop in Hall. destruct Hall as [Ha Hall].
    rewrite Ha, IH; try assumption.
    + rewrite <- app_assoc. simpl.
      destruct (c (MState (rev run ++ a :: bef) rest cs)) eqn:E; [reflexivity|].
      simpl. apply (Hin 0). simpl. lia.
    + intros i Hi. specialize (Hin (S i)). simpl in Hin.
      rewrite <- app_assoc in Hin. simpl in Hin. apply Hin. lia.
Qed.

End RepeatFacts.

(* ------------------------------------------------------------------ *)
(** ** The single-line comment pattern *)

Module LineCommentFacts.

Import MatcherFacts RepeatFacts.

Definition apostrophe : jschar := 39%N.

Definition not_terminator (ch : jschar) : bool := negb (is_line_terminator ch).

(** The newline the pattern ends with, and the text after it. *)
Definition newline (rest : jsstring) : option (jsstring * jsstring) :=
  match rest with
  | a :: r =>
      if (13 =? a)%N then
        match r with
        | b :: r' => if (10 =? b)%N then Some ([CR; LF], r') else None
        | [] => None
        end
      else if (10 =? a)%N then Some ([LF], r)
      else None
  | [] => None
  end.

(** The last part of the pattern: the group with the newline. *)
Definition newline_group : regex :=
  Group 1 (Alt (Seq (Char 13%N) (Char 10%N)) (Char 10%N)).

(** The pattern from its second and from its third star on. *)
Definition tail3 : regex := Seq (Quant 0 None true Dot) newline_group.
Definition tail2 : regex :=
  Seq (Quant 0 None true Dot) (Seq (Char apostrophe) tail3).

Lemma regExCommentSingleLine_tails :
  regExCommentSingleLine
  = Seq (Quant 0 None true Dot) (Seq (Char apostrophe) tail2).
Proof. reflexivity. Qed.

(** What a match of the pattern ends in. *)
Definition ending (c : cont) (bef rest : jsstring) (cs : list (nat * jsstring))
  : option mstate :=
  match newline rest with
  | Some (nl, r) => c (MState (rev nl ++ bef) r ((1, nl) :: cs))
  | None => None
  end.

Lemma newline_group_spec c bef rest cs :
  matcher false newline_group true (MState bef rest cs) c = ending c bef rest cs.
Proof.
  unfold ending, newline_group. cbn [matcher]. unfold orelse.
  pose proof (between_span bef [13%N; 10%N]) as B2. cbn [rev app] in B2.
  pose proof (between_span bef [10%N]) as B1. cbn [rev app] in B1.
  destruct rest as [|a rest]; [reflexivity|].
  rewrite !match_char_cons. cbn [newline].
  destruct (N.eqb_spec 13 a) as [<-|Hcr].
  - destruct rest as [|b rest]; [reflexivity|].
    rewrite match_char_cons.
    destruct (N.eqb_spec 10 b) as [<-|Hlf]; [|reflexivity].
    cbn [before after caps]. rewrite B2.
    now destruct (c _).
  - destruct (N.eqb_spec 10 a) as [<-|Hlf]; [|reflexivity].
    cbn [before after caps]. now rewrite B1.
Qed.

(** The text after a run of the line is empty or starts with a line
    terminator. *)
Definition line_ends (rest : jsstring) : Prop :=
  match rest with
  | ch :: _ => not_terminator ch = false
  | [] => True
  end.

Lemma terminator_not_apostrophe ch :
  not_terminator ch = false -> (apostrophe =? ch)%N = false.
Proof.
  unfold not_terminator, is_line_terminator, apostrophe. intros H.
  apply negb_false_iff in H. apply N.eqb_neq. intros <-. discriminate.
Qed.

Lemma newline_inside ch rest :
  not_terminator ch = true -> newline (ch :: rest) = None.
Proof.
  unfold not_terminator, is_line_terminator, newline. intros H.
  apply negb_true_iff in H.
  destruct (N.eqb_spec 13 ch) as [<-|_]; [discriminate|].
  destruct (N.eqb_spec 10 ch) as [<-|_]; [discriminate|]. reflexivity.
Qed.

Lemma newline_app rest nl r : newline rest = Some (nl, r) -> rest = nl ++ r.
Proof.
  unfold newline. destruct rest as [|a rest]; [discriminate|].
  destruct (N.eqb_spec 13 a) as [<-|_].
  - destruct rest as [|b rest]; [discriminate|].
    destruct (N.eqb_spec 10 b) as [<-|_]; [|discriminate].
    now intros [= <- <-].
  - destruct (N.eqb_spec 10 a) as [<-|_]; [|discriminate].
    now intros [= <- <-].
Qed.

Lemma star_dot ml r c bef aft cs :
  matcher ml (Seq (Quant 0 None true Dot) r) true (MState bef aft cs) c
  = star_greedy not_terminator (fun y => matcher ml r true y c) bef aft cs.
Proof.
  cbn [matcher groups].
  apply (repeat_star_greedy not_terminator). unfold input_length. simpl. lia.
Qed.

Lemma tail3_spec c rest cs seg bef :
  line_ends rest ->
  forallb not_terminator seg = true ->
  matcher false tail3 true (MState bef (seg ++ rest) cs) c
  = ending c (rev seg ++ bef) rest cs.
Proof.
  intros Hrest Hseg. unfold tail3. rewrite star_dot.
  rewrite star_greedy_run; try assumption.
  - apply newline_group_spec.
  - intros i Hi. rewrite newline_group_spec. unfold ending.
    destruct (skipn i seg) as [|a s] eqn:E.
    + apply (f_equal (@length _)) in E. rewrite length_skipn in E. simpl in E. lia.
    + assert (Ha : not_terminator a = true).
      { rewrite forallb_forall in Hseg. apply Hseg.
        rewrite <- (firstn_skipn i seg), E. apply in_or_app. right. now left. }
      simpl app. now rewrite newline_inside.
Qed.

(** The test a run passes for the pattern from one apostrophe earlier,
    given the test for the pattern after that apostrophe. *)
Fixpoint after_quote (T : jsstring -> bool) (seg : jsstring) : bool :=
  match seg with
  | [] => false
  | a :: s => after_quote T s || ((apostrophe =? a)%N && T s)
  end.

Lemma quote_level (inner : regex) (T : jsstring -> bool) c rest cs B :
  line_ends rest ->
  (forall seg bef,
     forallb not_terminator seg = true -> rev seg ++ bef = B ->
     matcher false inner true (MState bef (seg ++ rest) cs) c
     = if T seg then ending c B rest cs else None) ->
  forall seg bef,
    forallb not_terminator seg = true -> rev seg ++ bef = B ->
    matcher false (Seq (Quant 0 None true Dot) (Seq (Char apostrophe) inner))
      true (MState bef (seg ++ rest) cs) c
    = if after_quote T seg then ending c B rest cs else None.
Proof.
  intros Hrest Hinner seg bef Hseg HB. rewrite star_dot.
  revert bef HB. induction seg as [|a s IH]; intros bef HB.
  - simpl app. cbn [after_quote].
    destruct rest as [|ch rest']; simpl.
    + reflexivity.
    + simpl in Hrest. rewrite Hrest. rewrite match_char_cons.
      now rewrite (terminator_not_apostrophe ch Hrest).
  - simpl in Hseg. apply andb_prop in Hseg. destruct Hseg as [Ha Hs].
    simpl app. cbn [star_greedy after_quote]. rewrite Ha.
    assert (HB' : rev s ++ a :: bef = B).
    { rewrite <- HB. simpl. now rewrite <- app_assoc. }
    rewrite (IH Hs (a :: bef) HB').
    cbn [matcher]. rewrite match_char_cons.
    rewrite (Hinner s (a :: bef) Hs HB').
    unfold orelse.
    destruct (after_quote T s), (apostrophe =? a)%N, (T s);
      simpl; try reflexivity; now destruct (ending c B rest cs).
Qed.

Definition apostrophes (seg : jsstring) : nat :=
  length (filter (N.eqb apostrophe) seg).

Lemma after_quote_once seg :
  after_quote (fun _ => true) seg = (1 <=? apostrophes seg)%nat.
Proof.
  unfold apostrophes. induction seg as [|a s IH]; [reflexivity|].
  cbn [after_quote filter]. rewrite IH.
  destruct (apostrophe =? a)%N; cbn [length andb].
  - now rewrite orb_true_r.
  - now rewrite orb_false_r.
Qed.

Lemma after_quote_twice seg :
  after_quote (after_quote (fun _ => true)) seg = (2 <=? apostrophes seg)%nat.
Proof.
  unfold apostrophes. induction seg as [|a s IH]; [reflexivity|].
  cbn [after_quote filter]. fold (after_quote (fun _ : jsstring => true)).
  rewrite IH, after_quote_once. unfold apostrophes.
  destruct (apostrophe =? a)%N; cbn [length andb].
  - destruct (length (filter (N.eqb apostrophe) s)) as [|[|n]]; reflexivity.
  - now rewrite orb_false_r.
Qed.

(** Where the pattern matches: at a position followed by a run of the
    line with two apostrophes or more and then a newline; the match is
    the run and the newline. *)
Theorem line_comment_match_at bef seg rest :
  forallb not_terminator seg = true ->
  line_ends rest ->
  match_at false regExCommentSingleLine bef (seg ++ rest)
  = if (2 <=? apostrophes seg)%nat
    then match newline rest with
         | Some (nl, r) => Some (Result (rev bef) (seg ++ nl) r [(1, nl)])
         | None => None
         end
    else None.
Proof.
  intros Hseg Hrest. unfold match_at.
  rewrite regExCommentSingleLine_tails.
  rewrite (@quote_level tail2 (after_quote (fun _ => true)) (fun y => Some y)
             rest [] (rev seg ++ bef) Hrest); try assumption; try reflexivity.
  - rewrite after_quote_twice.
    destruct (2 <=? apostrophes seg)%nat; [|reflexivity].
    unfold ending. destruct (newline rest) as [[nl r]|] eqn:E; [|reflexivity].
    cbn [before after caps]. f_equal. f_equal.
    apply newline_app in E. subst rest.
    rewrite app_assoc.
    replace (rev nl ++ rev seg ++ bef) with (rev (seg ++ nl) ++ bef)
      by (now rewrite rev_app_distr, <- app_assoc).
    apply between_span.
  - intros seg' bef' Hseg' HB. unfold tail2.
    apply (@quote_level tail3 (fun _ => true) (fun y => Some y)
             rest [] (rev seg ++ bef) Hrest); try assumption.
    intros seg'' bef'' Hseg'' HB''. rewrite tail3_spec by assumption.
    now rewrite HB''.
Qed.

(** *** The pass over a text *)

(** The run of the line a text starts with, and the text from its first
    line terminator on. *)
Fixpoint line_span (aft : jsstring) : jsstring * jsstring :=
  match aft with
  | ch :: aft' =>
      if not_terminator ch
      then (ch :: fst (line_span aft'), snd (line_span aft'))
      else ([], aft)
  | [] => ([], [])
  end.

Lemma line_span_app aft : fst (line_span aft) ++ snd (line_span aft) = aft.
Proof.
  induction aft as [|ch aft IH]; simpl; [reflexivity|].
  destruct (not_terminator ch); simpl; [now rewrite IH | reflexivity].
Qed.

Lemma line_span_run aft : forallb not_terminator (fst (line_span aft)) = true.
Proof.
  induction aft as [|ch aft IH]; simpl; [reflexivity|].
  destruct (not_terminator ch) eqn:E; simpl; [now rewrite E | reflexivity].
Qed.

Lemma line_span_ends aft : line_ends (snd (line_span aft)).
Proof.
  induction aft as [|ch aft IH]; simpl; [exact I|].
  destruct (not_terminator ch) eqn:E; simpl; assumption.
Qed.

(** The comment a text starts with: the run, the newline and the text
    after them. *)
Definition comment_at (aft : jsstring) : option (jsstring * jsstring * jsstring) :=
  if (2 <=? apostrophes (fst (line_span aft)))%nat then
    match newline (snd (line_span aft)) with
    | Some (nl, r) => Some (fst (line_span aft), nl, r)
    | None => None
    end
  else None.

Lemma match_at_comment bef aft :
  match_at false regExCommentSingleLine bef aft
  = match comment_at aft with
    | Some (seg, nl, r) => Some (Result (rev bef) (seg ++ nl) r [(1, nl)])
    | None => None
    end.
Proof.
  rewrite <- (line_span_app aft) at 1.
  rewrite line_comment_match_at by (apply line_span_run || apply line_span_ends).
  unfold comment_at. destruct (2 <=? _)%nat; [|reflexivity].
  now destruct (newline _) as [[nl r]|].
Qed.

Lemma comment_at_split aft seg nl r :
  comment_at aft = Some (seg, nl, r) ->
  aft = seg ++ nl ++ r /\ seg <> [] /\ In LF nl.
Proof.
  unfold comment_at.
  destruct (2 <=? apostrophes (fst (line_span aft)))%nat eqn:E; [|discriminate].
  destruct (newline (snd (line_span aft))) as [[nl' r']|] eqn:En; [|discriminate].
  intros [= <- <- <-]. split; [|split].
  - rewrite <- (line_span_app aft) at 1. f_equal. now apply newline_app.
  - intros Hnil. rewrite Hnil in E. discriminate.
  - revert En. unfold newline. destruct (snd (line_span aft)) as [|a s]; [discriminate|].
    destruct (13 =? a)%N.
    + destruct s as [|b s]; [discriminate|].
      destruct (10 =? b)%N; [|discriminate]. intros [= <- _]. right. now left.
    + destruct (10 =? a)%N; [|discriminate]. intros [= <- _]. now left.
Qed.

Definition strip_at (bef aft : jsstring) : jsstring :=
  replace_at false regExCommentSingleLine [] bef aft.

Lemma strip_line_comments_at text : strip_line_comments text = strip_at [] text.
Proof. reflexivity. Qed.

Lemma strip_at_hit bef aft seg nl r :
  comment_at aft = Some (seg, nl, r) ->
  strip_at bef aft = strip_at (rev (seg ++ nl) ++ bef) r.
Proof.
  intros H. unfold strip_at.
  assert (Hm : match_at false regExCommentSingleLine bef aft
               = Some (Result (rev bef) (seg ++ nl) r [(1, nl)]))
    by (now rewrite match_at_comment, H).
  rewrite (@replace_at_hit false regExCommentSingleLine [] bef aft _ Hm).
  - reflexivity.
  - simpl. destruct (@comment_at_split _ _ _ _ H) as (_ & Hne & _).
    destruct seg; [congruence | discriminate].
Qed.

Lemma strip_at_miss bef ch aft :
  comment_at (ch :: aft) = None ->
  strip_at bef (ch :: aft) = ch :: strip_at (ch :: bef) aft.
Proof.
  intros H. unfold strip_at. apply replace_at_miss.
  now rewrite match_at_comment, H.
Qed.

Lemma strip_at_nil bef : strip_at bef [] = [].
Proof. unfold strip_at. apply replace_at_nil. now rewrite match_at_comment. Qed.

(** The pass does not look behind the position it is at. *)
Lemma strip_at_anywhere : forall n aft bef bef',
  length aft <= n -> strip_at bef aft = strip_at bef' aft.
Proof.
  induction n as [|n IH]; intros aft bef bef' Hn.
  - destruct aft; [|simpl in Hn; lia]. now rewrite !strip_at_nil.
  - destruct (comment_at aft) as [[[seg nl] r]|] eqn:E.
    + rewrite (@strip_at_hit bef _ _ _ _ E), (@strip_at_hit bef' _ _ _ _ E).
      destruct (@comment_at_split _ _ _ _ E) as (-> & Hne & _).
      apply IH. rewrite !length_app in Hn.
      destruct seg; [congruence | simpl in Hn; lia].
    + destruct aft as [|ch aft]; [now rewrite !strip_at_nil|].
      rewrite !strip_at_miss by assumption. f_equal.
      apply IH. simpl in Hn. lia.
Qed.

Definition strip (aft : jsstring) : jsstring := strip_at [] aft.

Lemma strip_hit aft seg nl r :
  comment_at aft = Some (seg, nl, r) -> strip aft = strip r.
Proof.
  intros H. unfold strip. rewrite (@strip_at_hit [] _ _ _ _ H).
  now apply (@strip_at_anywhere (length r)).
Qed.

Lemma strip_miss ch aft :
  comment_at (ch :: aft) = None -> strip (ch :: aft) = ch :: strip aft.
Proof.
  intros H. unfold strip. rewrite (@strip_at_miss [] _ _ H). f_equal.
  now apply (@strip_at_anywhere (length aft)).
Qed.

Lemma strip_nil : strip [] = [].
Proof. apply strip_at_nil. Qed.

(** *** Lines *)

(** [pre] ends where a line ends, seen from the text [rest] after it: it
    is empty, or its last code unit is a line terminator that is not
    the CR of a CR LF pair completed by [rest]. *)
Definition boundary (pre rest : jsstring) : Prop :=
  match rev pre with
  | [] => True
  | t :: _ =>
      not_terminator t = false /\
      ((13 =? t)%N = true ->
       match rest with
       | b :: _ => (10 =? b)%N = false
       | [] => True
       end)
  end.

Lemma boundary_tail c pre rest : boundary (c :: pre) rest -> boundary pre rest.
Proof.
  unfold boundary. simpl. destruct (rev pre) as [|t q]; [trivial|]. simpl. trivial.
Qed.

Lemma boundary_suffix p : forall pre rest,
  boundary (p ++ pre) rest -> boundary pre rest.
Proof.
  induction p as [|c p IH]; intros pre rest H; [assumption|].
  apply IH. now apply boundary_tail in H.
Qed.

Lemma boundary_has_terminator pre rest :
  pre <> [] -> boundary pre rest -> snd (line_span pre) <> [].
Proof.
  intros Hne Hb Hnil.
  pose proof (line_span_app pre) as Happ. rewrite Hnil, app_nil_r in Happ.
  pose proof (line_span_run pre) as Hrun. rewrite Happ in Hrun.
  unfold boundary in Hb.
  destruct (rev pre) as [|t q] eqn:E.
  - apply (f_equal (@rev _)) in E. rewrite rev_involutive in E. now subst.
  - destruct Hb as [Ht _].
    rewrite forallb_forall in Hrun. rewrite Hrun in Ht; [discriminate|].
    apply in_rev. rewrite E. now left.
Qed.

Lemma line_span_before pre rest :
  snd (line_span pre) <> [] ->
  line_span (pre ++ rest)
  = (fst (line_span pre), snd (line_span pre) ++ rest).
Proof.
  induction pre as [|ch pre IH]; simpl; [congruence|].
  destruct (not_terminator ch); simpl; intros H.
  - now rewrite IH.
  - reflexivity.
Qed.

Lemma line_span_run_app seg : forall rest,
  forallb not_terminator seg = true -> line_ends rest ->
  line_span (seg ++ rest) = (seg, rest).
Proof.
  induction seg as [|a seg IH]; intros rest Hseg Hrest.
  - destruct rest as [|ch rest]; [reflexivity|]. simpl in *. now rewrite Hrest.
  - simpl in Hseg. apply andb_prop in Hseg. destruct Hseg as [Ha Hseg].
    simpl. now rewrite Ha, IH.
Qed.

Lemma newline_app_boundary t s rest :
  boundary (t :: s) rest ->
  newline ((t :: s) ++ rest)
  = match newline (t :: s) with
    | Some (nl, r) => Some (nl, r ++ rest)
    | None => None
    end.
Proof.
  intros Hb. cbn [app newline]. destruct (13 =? t)%N eqn:Ecr.
  - destruct s as [|b s]; cbn [app].
    + unfold boundary in Hb. cbn [rev app] in Hb. destruct Hb as [_ Hb].
      specialize (Hb Ecr).
      destruct rest as [|b rest]; [reflexivity|]. now rewrite Hb.
    + now destruct (10 =? b)%N.
  - now destruct (10 =? t)%N.
Qed.

Lemma comment_at_app pre rest :
  pre <> [] -> boundary pre rest ->
  comment_at (pre ++ rest)
  = match comment_at pre with
    | Some (seg, nl, r) => Some (seg, nl, r ++ rest)
    | None => None
    end.
Proof.
  intros Hne Hb. unfold comment_at.
  pose proof (@boundary_has_terminator pre rest Hne Hb) as Hterm.
  rewrite (@line_span_before pre rest Hterm). cbn [fst snd].
  destruct (2 <=? apostrophes (fst (line_span pre)))%nat; [|reflexivity].
  destruct (snd (line_span pre)) as [|t s] eqn:E; [congruence|].
  assert (Hb' : boundary (t :: s) rest).
  { apply (@boundary_suffix (fst (line_span pre))).
    rewrite <- E, line_span_app. exact Hb. }
  rewrite (@newline_app_boundary t s rest Hb').
  now destruct (newline (t :: s)) as [[nl r]|].
Qed.

(** The pass over a text that ends where a line ends, followed by more
    text: the pass over the one, then the pass over the other. *)
Lemma strip_app : forall n pre rest,
  length pre <= n -> boundary pre rest ->
  strip (pre ++ rest) = strip pre ++ strip rest.
Proof.
  induction n as [|n IH]; intros pre rest Hn Hb.
  - destruct pre; [|simpl in Hn; lia]. now rewrite strip_nil.
  - destruct pre as [|c pre1]; [now rewrite strip_nil|].
    pose proof (@comment_at_app (c :: pre1) rest ltac:(discriminate) Hb) as Happ.
    destruct (comment_at (c :: pre1)) as [[[seg nl] r]|] eqn:E.
    + rewrite (@strip_hit _ _ _ _ Happ), (@strip_hit _ _ _ _ E).
      destruct (@comment_at_split _ _ _ _ E) as (Hs & Hne & _).
      apply IH.
      * apply (f_equal (@length _)) in Hs. rewrite !length_app in Hs.
        destruct seg; [congruence | simpl in *; lia].
      * apply (@boundary_suffix (seg ++ nl)).
        rewrite <- app_assoc, <- Hs. exact Hb.
    + change ((c :: pre1) ++ rest) with (c :: pre1 ++ rest) in *.
      rewrite (@strip_miss _ _ Happ), (@strip_miss _ _ E).
      simpl. f_equal. apply IH; [simpl in Hn; lia|].
      now apply boundary_tail in Hb.
Qed.

(** A text without LF holds no comment. *)
Lemma strip_no_newline aft :
  ~ In LF aft -> strip aft = aft.
Proof.
  intros Hno. unfold strip, strip_at. apply replace_at_none.
  destruct (search false regExCommentSingleLine [] aft) as [m|] eqn:E;
    [|reflexivity].
  exfalso. apply search_inv in E. destruct E as (sk & Haft & _ & Hm).
  rewrite match_at_comment in Hm.
  destruct (comment_at (matched m ++ suffix m)) as [[[seg nl] r]|] eqn:Ec;
    [|discriminate].
  injection Hm as Hm. apply (f_equal matched) in Hm. simpl in Hm.
  destruct (@comment_at_split _ _ _ _ Ec) as (_ & _ & Hin).
  apply Hno. rewrite Haft, <- Hm.
  apply in_or_app. right. apply in_or_app. left. apply in_or_app. now right.
Qed.

(** The start of a line: the start of the text, or the place after a
    line terminator. *)
Definition line_start (pre : jsstring) : Prop :=
  pre = [] \/ exists p t, pre = p ++ [t] /\ is_line_terminator t = true.

Lemma line_start_boundary pre rest :
  line_start pre ->
  match rest with b :: _ => (10 =? b)%N = false | [] => True end ->
  boundary pre rest.
Proof.
  intros [-> | (p & t & -> & Ht)] Hrest; unfold boundary.
  - exact I.
  - rewrite rev_app_distr. simpl. split; [|trivial].
    unfold not_terminator. now rewrite Ht.
Qed.

(** A line with two apostrophes or more that a newline follows goes,
    newline included; the text before it and the text after it are
    treated as if each stood alone. *)
Theorem comment_line_deleted pre line nl post :
  line_start pre ->
  forallb not_terminator line = true ->
  2 <= apostrophes line ->
  nl = [LF] \/ nl = [CR; LF] ->
  strip_line_comments (pre ++ line ++ nl ++ post)
  = strip_line_comments pre ++ strip_line_comments post.
Proof.
  intros Hpre Hline Hq Hnl.
  change (strip (pre ++ line ++ nl ++ post) = strip pre ++ strip post).
  assert (Hends : line_ends (nl ++ post)) by (destruct Hnl; subst; reflexivity).
  assert (Hnew : newline (nl ++ post) = Some (nl, post))
    by (destruct Hnl; subst; reflexivity).
  rewrite (@strip_app (length pre)); [|lia|].
  - f_equal. apply (@strip_hit _ line nl post).
    unfold comment_at. rewrite line_span_run_app by assumption. cbn [fst snd].
    apply Nat.leb_le in Hq. now rewrite Hq, Hnew.
  - apply line_start_boundary; [assumption|].
    destruct line as [|a line]; [unfold apostrophes in Hq; simpl in Hq; lia|].
    cbn [forallb] in Hline. apply andb_prop in Hline. destruct Hline as [Ha _].
    cbn [app]. apply N.eqb_neq. intros <-. discriminate Ha.
Qed.

(** What stands after the last LF of a text stays. *)
Theorem last_line_kept pre last :
  line_start pre ->
  ~ In LF last ->
  strip_line_comments (pre ++ last) = strip_line_comments pre ++ last.
Proof.
  intros Hpre Hno. change (strip (pre ++ last) = strip pre ++ last).
  rewrite (@strip_app (length pre)); [|lia|].
  - now rewrite (@strip_no_newline last Hno).
  - apply line_start_boundary; [assumption|].
    destruct last as [|b last]; [exact I|].
    apply N.eqb_neq. intros <-. apply Hno. left. reflexivity.
Qed.

(** A text without apostrophe holds no single-line comment. *)
Lemma no_apostrophe_no_run s :
  ~ In apostrophe s -> apostrophes (fst (line_span s)) = 0.
Proof.
  unfold apostrophes. induction s as [|ch s IH]; intros H; [reflexivity|].
  cbn [line_span]. destruct (not_terminator ch); [|reflexivity].
  cbn [fst filter]. destruct (N.eqb_spec apostrophe ch) as [<-|].
  - elim H. now left.
  - apply IH. intros Hin. apply H. now right.
Qed.

Lemma no_apostrophe_no_line_comment diagramText :
  ~ In apostrophe diagramText -> strip_line_comments diagramText = diagramText.
Proof.
  rewrite strip_line_comments_at. fold (strip diagramText).
  induction diagramText as [|ch s IH]; intros H.
  - apply strip_nil.
  - rewrite strip_miss.
    + f_equal. apply IH. intros Hin. apply H. now right.
    + unfold comment_at. now rewrite (@no_apostrophe_no_run _ H).
Qed.

(** *** Lines that are kept *)

Lemma apostrophes_tail ch s : apostrophes s <= apostrophes (ch :: s).
Proof.
  unfold apostrophes. cbn [filter]. destruct (apostrophe =? ch)%N; simpl; lia.
Qed.

Lemma strip_run rest : forall run,
  forallb not_terminator run = true ->
  apostrophes run < 2 ->
  line_ends rest ->
  strip (run ++ rest) = run ++ strip rest.
Proof.
  induction run as [|ch run IH]; intros Hrun Hq Hrest; [reflexivity|].
  cbn [app]. rewrite strip_miss.
  - f_equal. cbn [forallb] in Hrun. apply andb_prop in Hrun.
    apply IH; [tauto | | exact Hrest].
    pose proof (apostrophes_tail ch run). lia.
  - unfold comment_at. change (ch :: run ++ rest) with ((ch :: run) ++ rest).
    rewrite (@line_span_run_app (ch :: run) rest Hrun Hrest). cbn [fst].
    now replace (2 <=? apostrophes (ch :: run))%nat with false
      by (symmetry; apply Nat.leb_gt; lia).
Qed.

(** X18. The single-line pass keeps a line with fewer than two
    apostrophes, whatever follows it: the line comes out as it is,
    between what the pass makes of the text before it and of the text
    after it.  A line is a run of code units without line terminator,
    not empty, that starts at the start of the text or after a line
    terminator and ends at a line terminator or at the end of the
    text. *)
Theorem line_with_one_apostrophe_is_kept pre line rest :
  line_start pre ->
  forallb not_terminator line = true ->
  line <> [] ->
  apostrophes line < 2 ->
  line_ends rest ->
  strip_line_comments (pre ++ line ++ rest)
  = strip_line_comments pre ++ line ++ strip_line_comments rest.
Proof.
  intros Hpre Hline Hne Hq Hrest.
  change (strip (pre ++ line ++ rest) = strip pre ++ line ++ strip rest).
  rewrite (@strip_app (length pre)); [|lia|].
  - f_equal. now apply strip_run.
  - apply line_start_boundary; [assumption|].
    destruct line as [|b line]; [congruence|]. cbn [app].
    cbn [forallb] in Hline. apply andb_prop in Hline. destruct Hline as [Hb _].
    apply N.eqb_neq. intros <-. discriminate Hb.
Qed.

End LineCommentFacts.

(* ------------------------------------------------------------------ *)
(** ** Where the directive pattern matches *)

Module DirectiveFacts.

Import MatcherFacts RepeatFacts LineCommentFacts.

(** The last term of the directive pattern: the rest of the line. *)
Definition rest_of_line : regex := Group 3 (Quant 0 None true Dot).

(** The terms before it, in order. *)
Definition directive_head : list regex :=
  match regExInclude with
  | Seq t1 (Seq t2 (Seq t3 (Seq t4 (Seq t5 (Seq t6 _))))) => [t1; t2; t3; t4; t5; t6]
  | _ => []
  end.

Lemma regExInclude_terms :
  regExInclude = fold_right Seq rest_of_line directive_head /\
  hd Empty directive_head = Bol.
Proof. split; reflexivity. Qed.

Lemma seq_sound ml a b x c z :
  matcher ml (Seq a b) true x c = Some z ->
  exists y, matcher ml b true y c = Some z /\ advances true x y.
Proof. cbn [matcher]. apply matcher_sound. Qed.

Lemma seqs_sound ml (last : regex) c z : forall terms x,
  matcher ml (fold_right Seq last terms) true x c = Some z ->
  exists y, matcher ml last true y c = Some z /\ advances true x y.
Proof.
  induction terms as [|t terms IH]; intros x H; cbn [fold_right] in H.
  - exists x. split; [assumption | apply advances_refl].
  - apply seq_sound in H. destruct H as (y & H & A).
    apply IH in H. destruct H as (y' & H & A').
    exists y'. split; [assumption | eapply advances_trans; eassumption].
Qed.

(** A greedy run of code units that are no line terminators, before a
    continuation that accepts every position, reaches the end of the
    line. *)
Lemma star_dot_to_line_end (c : cont) cs :
  (forall y, c y <> None) ->
  forall aft bef,
    star_greedy not_terminator c bef aft cs
    = c (MState (rev (fst (line_span aft)) ++ bef) (snd (line_span aft)) cs).
Proof.
  intros Hc. induction aft as [|ch aft IH]; intros bef; [reflexivity|].
  cbn [star_greedy line_span]. destruct (not_terminator ch); [|reflexivity].
  rewrite IH. cbn [fst snd rev]. rewrite <- app_assoc. cbn [app].
  unfold orelse.
  destruct (c (MState (rev (fst (line_span aft)) ++ ch :: bef)
                 (snd (line_span aft)) cs)) eqn:E; [reflexivity|].
  now apply Hc in E.
Qed.

Lemma rest_of_line_end ml y z :
  matcher ml rest_of_line true y (fun s => Some s) = Some z ->
  after z = snd (line_span (after y)).
Proof.
  unfold rest_of_line. cbn [matcher groups]. destruct y as [bef aft cs].
  rewrite (repeat_star_greedy not_terminator)
    by (unfold input_length; cbn [before after length]; lia).
  rewrite star_dot_to_line_end by discriminate.
  now intros [= <-].
Qed.

(** A directive starts the line it is on, and the text the pattern
    leaves after it is empty or starts with a line terminator. *)
Lemma directive_match_at bef aft m :
  match_at false regExInclude bef aft = Some m ->
  bef = [] /\ line_ends (suffix m).
Proof.
  unfold match_at.
  destruct (matcher false regExInclude true (MState bef aft []) (fun y => Some y))
    as [z|] eqn:E; [|discriminate].
  intros [= <-]. cbn [suffix]. split.
  - destruct bef as [|ch bef]; [reflexivity|]. discriminate E.
  - destruct regExInclude_terms as [T _]. rewrite T in E.
    apply seqs_sound in E. destruct E as (y & E & _).
    rewrite (rest_of_line_end _ _ E). apply line_span_ends.
Qed.

Lemma directive_first_match line m :
  first_match regExInclude line = Some m ->
  prefix m = [] /\ matched m ++ suffix m = line /\ line_ends (suffix m).
Proof.
  unfold first_match, exec. intros H.
  apply search_inv in H. destruct H as (sk & E & P & H).
  destruct (directive_match_at _ _ H) as [B L].
  rewrite app_nil_r in B.
  apply (f_equal (@rev _)) in B. rewrite rev_involutive in B. subst sk.
  simpl in *. auto.
Qed.

(** On a line without line terminator the match runs to the end. *)
Lemma directive_whole_line line m :
  forallb not_terminator line = true ->
  first_match regExInclude line = Some m ->
  prefix m = [] /\ matched m = line /\ suffix m = [].
Proof.
  intros Hline H. destruct (directive_first_match _ H) as (P & E & L).
  destruct (suffix m) as [|ch rest] eqn:S.
  - rewrite app_nil_r in E. auto.
  - exfalso. simpl in L.
    rewrite forallb_forall in Hline.
    assert (Hin : In ch line) by (rewrite <- E; apply in_or_app; right; now left).
    apply Hline in Hin. congruence.
Qed.

(** *** Text before the exclamation mark *)

Definition space_class : jschar -> bool := class_match false [ISpace true].

Lemma space_class_spec ch : space_class ch = is_space ch.
Proof.
  unfold space_class, class_match. cbn [existsb item_match].
  now destruct (is_space ch).
Qed.

Lemma regExInclude_start :
  exists tail,
    regExInclude
    = Seq Bol (Seq (Quant 0 None true (Class false [ISpace true]))
                 (Seq (Char (chr "!")) tail)).
Proof. eexists. reflexivity. Qed.

(** A greedy run of white space before a term that needs an
    exclamation mark fails when there is none after the white space. *)
Lemma spaces_then_mark (c : cont) cs :
  (forall y, startsWith (js "!") (after y) = false -> c y = None) ->
  forall aft bef,
    startsWith (js "!") (trimStart aft) = false ->
    star_greedy space_class c bef aft cs = None.
Proof.
  intros Hc. induction aft as [|ch aft IH]; intros bef H.
  - apply Hc. reflexivity.
  - cbn [star_greedy trimStart] in *. rewrite space_class_spec.
    destruct (is_space ch) eqn:S.
    + rewrite (IH _ H). unfold orelse. apply Hc. cbn [after].
      change (startsWith (js "!") (ch :: aft)) with ((33 =? ch)%N && true).
      destruct (N.eqb_spec 33 ch) as [<-|]; [discriminate S | reflexivity].
    + apply Hc. exact H.
Qed.

Lemma mark_needed ml tail k y :
  startsWith (js "!") (after y) = false ->
  matcher ml (Seq (Char (chr "!")) tail) true y k = None.
Proof.
  intros H. cbn [matcher]. unfold match_char, step.
  destruct (after y) as [|ch r]; [reflexivity|].
  change (startsWith (js "!") (ch :: r)) with ((33 =? ch)%N && true) in H.
  change (chr "!") with 33%N.
  destruct (33 =? ch)%N; [discriminate H | reflexivity].
Qed.

Lemma no_mark_no_match line :
  startsWith (js "!") (trimStart line) = false ->
  match_at false regExInclude [] line = None.
Proof.
  intros H. destruct regExInclude_start as (tail & ->).
  unfold match_at. cbn [matcher before groups].
  rewrite (repeat_star_greedy space_class)
    by (unfold input_length; cbn [before after length]; lia).
  rewrite spaces_then_mark; [reflexivity | | exact H].
  intros y Hy. now apply mark_needed.
Qed.

Lemma first_match_at_start line m :
  first_match regExInclude line = Some m ->
  match_at false regExInclude [] line = Some m.
Proof.
  unfold first_match, exec. intros H.
  apply search_inv in H. destruct H as (sk & E & _ & H).
  destruct (directive_match_at _ _ H) as [B _].
  rewrite app_nil_r in B.
  apply (f_equal (@rev _)) in B. rewrite rev_involutive in B. subst sk.
  simpl in *. now rewrite E.
Qed.

Lemma no_mark_no_directive line :
  startsWith (js "!") (trimStart line) = false -> is_directive line = false.
Proof.
  intros H. unfold is_directive.
  destruct (first_match regExInclude line) as [m|] eqn:E; [|reflexivity].
  apply first_match_at_start in E. now rewrite no_mark_no_match in E.
Qed.

(** X4. A directive starts its line: on a line whose first code unit
    after the leading white space is not an exclamation mark (text
    stands before the directive, or there is none) the pattern does not
    match, so the line is no directive. *)
Theorem directive_starts_its_line line :
  startsWith (js "!") (trimStart line) = false -> is_directive line = false.
Proof. apply no_mark_no_directive. Qed.

(** *** The keyword of a directive *)

Definition keyword_term : regex :=
  Eval vm_compute in
    match regExInclude with
    | Seq _ (Seq _ (Seq _ (Seq (Group _ k) _))) => k
    | _ => Empty
    end.

Definition after_keyword : regex :=
  Eval vm_compute in
    match regExInclude with
    | Seq _ (Seq _ (Seq _ (Seq _ rest))) => rest
    | _ => Empty
    end.

Lemma regExInclude_keyword :
  regExInclude
  = Seq Bol (Seq (Quant 0 None true (Class false [ISpace true]))
               (Seq (Char (chr "!")) (Seq (Group 1 keyword_term) after_keyword))).
Proof. reflexivity. Qed.

(** The five kinds of directive. *)
Definition kinds : list jsstring :=
  map js ["include"; "include_many"; "include_once"; "includeurl"; "includesub"]%string.

Ltac open_denotes :=
  repeat match goal with
         | H : exists _, _ |- _ => destruct H
         | H : _ /\ _ |- _ => destruct H
         | H : _ \/ _ |- _ => destruct H
         end.

Lemma keyword_term_reads s : denotes keyword_term s -> In s kinds.
Proof.
  unfold keyword_term. cbn [denotes]. intros H. open_denotes.
  match goal with
  | F : Forall _ ?p, L : rounds 0 (Some 1) (length ?p) |- _ =>
      destruct L as [L _];
      destruct p as [|w [|w' p]];
        [ | inversion F as [|? ? D _]; subst; cbn [denotes] in D; open_denotes
          | simpl in L; lia ]
  end; subst; vm_compute; tauto.
Qed.

Lemma kinds_lower s : In s kinds -> toLowerCase s = s.
Proof.
  intros H. vm_compute in H.
  repeat (destruct H as [<- | H]; [reflexivity|]). destruct H.
Qed.

(** The terms of a sequence read their texts one after the other. *)
Lemma terms_read ml (last : regex) c z : forall terms x,
  matcher ml (fold_right Seq last terms) true x c = Some z ->
  exists y parts,
    matcher ml last true y c = Some z /\ advances true x y /\
    between x y = concat parts /\ Forall2 (denotes) terms parts.
Proof.
  induction terms as [|t terms IH]; intros x H; cbn [fold_right] in H.
  - exists x, []. split; [assumption|]. split; [apply advances_refl|].
    split; [apply between_refl | constructor].
  - cbn [matcher] in H. apply matcher_reads in H.
    destruct H as (y1 & H & A1 & D1).
    apply IH in H. destruct H as (y2 & parts & H & A2 & B2 & F2).
    exists y2, (between x y1 :: parts). split; [assumption|].
    split; [eapply advances_trans; eassumption|].
    split; [rewrite (between_trans A1 A2), B2; reflexivity|].
    now constructor.
Qed.

(** A group between the terms before it and a tail that does not set
    it anew: the text of a match is what the terms before read, what
    the group holds and what the tail reads. *)
Lemma group_in_sequence ml head n body tail bef aft m :
  ~ In n (groups tail) ->
  match_at ml (fold_right Seq (Seq (Group n body) tail) head) bef aft = Some m ->
  exists parts s1 s2,
    matched m = concat parts ++ s1 ++ s2 /\ group m n = Some s1 /\
    Forall2 denotes head parts /\ denotes body s1 /\ denotes tail s2.
Proof.
  intros Htail. unfold match_at.
  destruct (matcher ml _ true (MState bef aft []) (fun y => Some y)) as [z|] eqn:E;
    [|discriminate].
  intros [= <-]. cbn [matched]. unfold group. cbn [captures].
  apply terms_read in E. destruct E as (y1 & parts & E & A1 & B1 & F1).
  cbn [matcher] in E. apply matcher_reads in E.
  destruct E as (y2 & E & A2 & D2).
  pose proof E as E'.
  apply matcher_reads in E. destruct E as (z1 & [= ->] & A3 & D3).
  apply matcher_keeps in E'. destruct E' as (z2 & [= ->] & K).
  rewrite (K n Htail). cbn [caps capture]. rewrite Nat.eqb_refl.
  exists parts, (between y1 y2),
    (between (MState (before y2) (after y2) ((n, between y1 y2) :: caps y2)) z).
  split; [|split; [reflexivity | split; [exact F1 | split; [exact D2 | exact D3]]]].
  assert (S : same_place y2 (MState (before y2) (after y2)
                               ((n, between y1 y2) :: caps y2)))
    by (split; reflexivity).
  pose proof (same_place_advances S A3) as A3'.
  rewrite (between_trans (advances_trans A1 A2) A3').
  rewrite (between_trans A1 A2), B1, <- app_assoc.
  now rewrite (same_place_between z S).
Qed.

Lemma regExInclude_sequence :
  regExInclude
  = fold_right Seq (Seq (Group 1 keyword_term) after_keyword)
      [Bol; Quant 0 None true (Class false [ISpace true]); Char (chr "!")].
Proof. reflexivity. Qed.

Lemma space_parts : forall parts,
  Forall (denotes (Class false [ISpace true])) parts ->
  forallb is_space (concat parts) = true.
Proof.
  induction parts as [|p parts IH]; intros F; [reflexivity|].
  inversion F as [|? ? D F']; subst. cbn [denotes] in D.
  destruct D as (ch & -> & Hc). cbn [concat app forallb].
  rewrite (IH F'), andb_true_r.
  unfold class_match in Hc. cbn [existsb item_match] in Hc.
  now destruct (is_space ch).
Qed.

(** What follows the keyword starts with a white-space character. *)
Lemma after_keyword_reads s :
  denotes after_keyword s -> exists sp rest, s = sp :: rest /\ is_space sp = true.
Proof.
  unfold after_keyword. cbn [denotes].
  intros (s1 & s2 & -> & (parts & -> & F & L) & _).
  destruct parts as [|p parts]; [destruct L as [_ [L | []]]; simpl in L; lia|].
  pose proof (space_parts F) as Hs.
  inversion F as [|? ? D _]; subst. cbn [denotes] in D.
  destruct D as (ch & -> & _). cbn [concat app forallb] in *.
  apply andb_prop in Hs. destruct Hs as [Hs _]. eauto.
Qed.

(** *** The groups of a directive *)

Definition reference_term : regex :=
  Eval vm_compute in
    match after_keyword with
    | Seq _ (Seq (Group _ r) _) => r
    | _ => Empty
    end.

Definition rest_term : regex :=
  Eval vm_compute in
    match after_keyword with
    | Seq _ (Seq _ t) => t
    | _ => Empty
    end.

Lemma regExInclude_reference :
  regExInclude
  = fold_right Seq (Seq (Group 2 reference_term) rest_term)
      [Bol; Quant 0 None true (Class false [ISpace true]); Char (chr "!");
       Group 1 keyword_term; Quant 1 None true (Class false [ISpace true])].
Proof. reflexivity. Qed.

(** A match of the pattern holds its first two groups, so the callback
    reads a directive off every match. *)
Lemma directive_is_read line m :
  first_match regExInclude line = Some m -> exists d, directive_of m = Some d.
Proof.
  intros Hm. apply first_match_at_start in Hm. pose proof Hm as Hm2.
  rewrite regExInclude_sequence in Hm.
  apply group_in_sequence in Hm;
    [|vm_compute; intros [H | [H | []]]; discriminate H].
  destruct Hm as (_ & kw & _ & _ & Hg1 & _).
  rewrite regExInclude_reference in Hm2.
  apply group_in_sequence in Hm2;
    [|vm_compute; intros [H | []]; discriminate H].
  destruct Hm2 as (_ & ref & _ & _ & Hg2 & _).
  unfold directive_of. rewrite Hg1, Hg2. eauto.
Qed.

(** X19. A line is a directive only when it starts with white space (or
    none), an exclamation mark, one of the words include, include_many,
    include_once, includeurl and includesub written in lower case, and
    a white-space character.  The word is what the pattern captures,
    and it is the kind the callback works with: no other word after the
    exclamation mark, and no other spelling of these five, makes a line
    a directive. *)
Theorem directive_kind_is_one_of_five line m d :
  first_match regExInclude line = Some m ->
  directive_of m = Some d ->
  exists ws kw sp rest,
    line = ws ++ chr "!" :: kw ++ sp :: rest /\
    forallb is_space ws = true /\
    In kw kinds /\
    is_space sp = true /\
    group m 1 = Some kw /\
    include d = kw.
Proof.
  intros Hm Hd.
  destruct (directive_first_match _ Hm) as (_ & Hline & _). subst line.
  apply first_match_at_start in Hm. rewrite regExInclude_sequence in Hm.
  apply group_in_sequence in Hm;
    [|vm_compute; intros [H | [H | []]]; discriminate H].
  destruct Hm as (parts & kw & s2 & Hmatched & Hg & F & Hk & Ht).
  apply keyword_term_reads in Hk.
  apply after_keyword_reads in Ht. destruct Ht as (sp & rest & -> & Hsp).
  inversion F as [|? p0 ? ? D0 F0]; subst.
  inversion F0 as [|? p1 ? ? D1 F1]; subst.
  inversion F1 as [|? p2 ? ? D2 F2]; subst. inversion F2; subst.
  cbn [denotes] in D0, D1, D2. subst p0 p2.
  destruct D1 as (ps & -> & Fs & _).
  exists (concat ps), kw, sp, (rest ++ suffix m).
  split; [|split; [now apply space_parts | split; [exact Hk | split; [exact Hsp|]]]].
  - rewrite Hmatched. cbn [concat app]. rewrite <- !app_assoc. reflexivity.
  - split; [exact Hg|].
    unfold directive_of in Hd. rewrite Hg in Hd.
    destruct (group m 2); [|discriminate].
    injection Hd as <-. cbn [include]. now apply kinds_lower.
Qed.

End DirectiveFacts.


(* ------------------------------------------------------------------ *)
(** ** Block comments *)

Module BlockCommentFacts.

Import MatcherFacts RepeatFacts.
Import LineCommentFacts(apostrophe).

Definition solidus : jschar := 47%N.

Definition opening : jsstring := [solidus; apostrophe].
Definition closing : jsstring := [apostrophe; solidus].

(** Whether a text starts with the closing marker, and what follows. *)
Definition closes (s : jsstring) : option jsstring :=
  match s with
  | a :: b :: r => if ((apostrophe =? a)%N && (solidus =? b)%N)%bool then Some r else None
  | _ => None
  end.

(** The text before the first closing marker and the text after it. *)
Fixpoint find_close (s : jsstring) : option (jsstring * jsstring) :=
  match closes s with
  | Some r => Some ([], r)
  | None =>
      match s with
      | a :: s' =>
          match find_close s' with
          | Some (body, r) => Some (a :: body, r)
          | None => None
          end
      | [] => None
      end
  end.

(** A comment that opens at the start of a text and is closed: its body
    and the text after it. *)
Definition block_at (aft : jsstring) : option (jsstring * jsstring) :=
  match aft with
  | a :: b :: s =>
      if ((solidus =? a)%N && (apostrophe =? b)%N)%bool then find_close s else None
  | _ => None
  end.

Lemma closes_spec s r : closes s = Some r -> s = closing ++ r.
Proof.
  destruct s as [|a [|b s]]; try discriminate. unfold closes.
  destruct (N.eqb_spec apostrophe a) as [<-|]; [|discriminate].
  destruct (N.eqb_spec solidus b) as [<-|]; [|discriminate].
  now intros [= <-].
Qed.

Lemma find_close_spec : forall s body r,
  find_close s = Some (body, r) -> s = body ++ closing ++ r.
Proof.
  induction s as [|a s IH]; intros body r H.
  - discriminate.
  - cbn [find_close] in H. destruct (closes (a :: s)) as [r'|] eqn:C.
    + injection H as <- <-. now apply closes_spec.
    + destruct (find_close s) as [[body' r']|]; [|discriminate].
      injection H as <- <-. cbn [app]. f_equal. now apply IH.
Qed.

(** A body without closing marker ends at the marker put after it. *)
Lemma find_close_first : forall body post,
  find_close body = None ->
  find_close (body ++ closing ++ post) = Some (body, post).
Proof.
  induction body as [|a body IH]; intros post H.
  - reflexivity.
  - cbn [find_close] in H.
    destruct (closes (a :: body)) eqn:C; [discriminate|].
    destruct (find_close body) as [[b r]|] eqn:F; [discriminate|].
    cbn [app find_close].
    assert (C' : closes (a :: body ++ closing ++ post) = None).
    { destruct body as [|b body].
      - cbn. now rewrite andb_false_r.
      - cbn [app closes] in *.
        destruct ((apostrophe =? a)%N && (solidus =? b)%N)%bool;
          [discriminate C | reflexivity]. }
    now rewrite C', IH.
Qed.

Definition any_unit : jschar -> bool := class_match false [ISpace true; ISpace false].

Lemma any_unit_true ch : any_unit ch = true.
Proof.
  unfold any_unit, class_match. cbn [existsb item_match].
  now destruct (is_space ch).
Qed.

Definition close_marker : regex := Seq (Char apostrophe) (Char solidus).

Lemma regExCommentMultiLine_parts :
  regExCommentMultiLine
  = Seq (Char solidus)
      (Seq (Char apostrophe)
         (Seq (Group 1 (Quant 0 None false (Class false [ISpace true; ISpace false])))
            close_marker)).
Proof. reflexivity. Qed.

Lemma close_marker_spec ml bef aft cs (k : cont) :
  matcher ml close_marker true (MState bef aft cs) k
  = match closes aft with
    | Some r => k (MState (rev closing ++ bef) r cs)
    | None => None
    end.
Proof.
  unfold close_marker. cbn [matcher].
  destruct aft as [|a aft]; [reflexivity|]. rewrite match_char_cons. cbn [closes].
  destruct aft as [|b aft].
  - destruct (apostrophe =? a)%N; reflexivity.
  - destruct (N.eqb_spec apostrophe a) as [<-|]; [|reflexivity].
    rewrite match_char_cons. cbn [andb].
    destruct (N.eqb_spec solidus b) as [<-|]; reflexivity.
Qed.

(** The lazy body ends at the first closing marker. *)
Lemma lazy_until_close (c : cont) (F : jsstring -> jsstring -> mstate) cs :
  (forall b a, c (MState b a cs)
               = match closes a with Some r => Some (F b r) | None => None end) ->
  forall s bef,
    star_lazy any_unit c bef s cs
    = match find_close s with
      | Some (body, r) => Some (F (rev body ++ bef) r)
      | None => None
      end.
Proof.
  intros Hc. induction s as [|a s IH]; intros bef.
  - cbn [star_lazy find_close]. rewrite Hc. reflexivity.
  - cbn [star_lazy find_close]. rewrite Hc.
    destruct (closes (a :: s)) as [r|]; [reflexivity|].
    rewrite any_unit_true, IH.
    destruct (find_close s) as [[body r]|]; [|reflexivity].
    cbn [rev]. now rewrite <- app_assoc.
Qed.

(** Where the pattern matches: at an opening marker that is closed
    later; the match runs to the first closing marker after it. *)
Theorem block_comment_match_at bef aft :
  match_at false regExCommentMultiLine bef aft
  = match block_at aft with
    | Some (body, r) =>
        Some (Result (rev bef) (opening ++ body ++ closing) r [(1, body)])
    | None => None
    end.
Proof.
  unfold match_at. rewrite regExCommentMultiLine_parts. cbn [matcher].
  destruct aft as [|a aft]; [reflexivity|]. rewrite match_char_cons.
  destruct aft as [|b s].
  { cbn [block_at]. now destruct (solidus =? a)%N. }
  cbn [block_at]. destruct (N.eqb_spec solidus a) as [<-|]; [|reflexivity].
  rewrite match_char_cons.
  destruct (N.eqb_spec apostrophe b) as [<-|]; [|reflexivity].
  cbn [andb matcher groups].
  rewrite (repeat_star_lazy any_unit)
    by (unfold input_length; cbn [before after length]; lia).
  rewrite (@lazy_until_close _
             (fun b r => MState (rev closing ++ b) r
                           [(1, firstn (length b - length (apostrophe :: solidus :: bef)) s)])).
  - destruct (find_close s) as [[body r]|] eqn:F; [|reflexivity].
    apply find_close_spec in F. subst s.
    cbn [before after caps]. f_equal. f_equal.
    + change (solidus :: apostrophe :: body ++ closing ++ r)
        with ((opening ++ body ++ closing) ++ r) at 1
        || (replace (solidus :: apostrophe :: body ++ closing ++ r)
              with ((opening ++ body ++ closing) ++ r)
              by (unfold opening; cbn [app]; now rewrite <- !app_assoc)).
      replace (rev closing ++ rev body ++ apostrophe :: solidus :: bef)
        with (rev (opening ++ body ++ closing) ++ bef)
        by (unfold opening; cbn [app rev]; rewrite !rev_app_distr;
            cbn [rev app]; now rewrite <- !app_assoc).
      apply between_span.
    + rewrite length_app, length_rev.
      replace (length body + length (apostrophe :: solidus :: bef)
               - length (apostrophe :: solidus :: bef)) with (length body) by lia.
      now rewrite firstn_app, Nat.sub_diag, firstn_all, firstn_O, app_nil_r.
  - intros b0 a0. rewrite close_marker_spec. cbn [before after caps].
    unfold between, pos. cbn [before after]. reflexivity.
Qed.

(** *** The pass over a text *)

Definition cut_at (bef aft : jsstring) : jsstring :=
  replace_at false regExCommentMultiLine [] bef aft.

Lemma block_at_spec aft body r :
  block_at aft = Some (body, r) -> aft = opening ++ body ++ closing ++ r.
Proof.
  destruct aft as [|a [|b s]]; try discriminate. cbn [block_at].
  destruct (N.eqb_spec solidus a) as [<-|]; [|discriminate].
  destruct (N.eqb_spec apostrophe b) as [<-|]; [|discriminate].
  cbn [andb]. intros F. apply find_close_spec in F. now subst s.
Qed.

Lemma cut_at_hit bef aft body r :
  block_at aft = Some (body, r) ->
  cut_at bef aft = cut_at (rev (opening ++ body ++ closing) ++ bef) r.
Proof.
  intros H. unfold cut_at.
  assert (Hm : match_at false regExCommentMultiLine bef aft
               = Some (Result (rev bef) (opening ++ body ++ closing) r [(1, body)]))
    by (now rewrite block_comment_match_at, H).
  rewrite (@replace_at_hit false regExCommentMultiLine [] bef aft _ Hm);
    [reflexivity | discriminate].
Qed.

Lemma cut_at_miss bef ch aft :
  block_at (ch :: aft) = None ->
  cut_at bef (ch :: aft) = ch :: cut_at (ch :: bef) aft.
Proof.
  intros H. unfold cut_at. apply replace_at_miss.
  now rewrite block_comment_match_at, H.
Qed.

Lemma cut_at_nil bef : cut_at bef [] = [].
Proof. unfold cut_at. apply replace_at_nil. now rewrite block_comment_match_at. Qed.

(** The pass does not look behind the position it is at. *)
Lemma cut_at_anywhere : forall n aft bef bef',
  length aft <= n -> cut_at bef aft = cut_at bef' aft.
Proof.
  induction n as [|n IH]; intros aft bef bef' Hn.
  - destruct aft; [|simpl in Hn; lia]. now rewrite !cut_at_nil.
  - destruct (block_at aft) as [[body r]|] eqn:E.
    + rewrite (@cut_at_hit bef _ _ _ E), (@cut_at_hit bef' _ _ _ E).
      apply block_at_spec in E. subst aft.
      apply IH. rewrite !length_app in Hn. simpl in Hn. lia.
    + destruct aft as [|ch aft]; [now rewrite !cut_at_nil|].
      rewrite !cut_at_miss by assumption. f_equal.
      apply IH. simpl in Hn. lia.
Qed.

Lemma strip_block_comments_at text : strip_block_comments text = cut_at [] text.
Proof. reflexivity. Qed.

Lemma strip_block_nil : strip_block_comments [] = [].
Proof. rewrite strip_block_comments_at. apply cut_at_nil. Qed.

Lemma strip_block_hit body post :
  find_close body = None ->
  strip_block_comments (opening ++ body ++ closing ++ post)
  = strip_block_comments post.
Proof.
  intros H. rewrite !strip_block_comments_at.
  rewrite (@cut_at_hit [] _ body post).
  - now apply (@cut_at_anywhere (length post)).
  - unfold opening. cbn [app block_at]. rewrite !N.eqb_refl. cbn [andb].
    now apply find_close_first.
Qed.

Lemma strip_block_miss ch text :
  block_at (ch :: text) = None ->
  strip_block_comments (ch :: text) = ch :: strip_block_comments text.
Proof.
  intros H. rewrite !strip_block_comments_at.
  rewrite cut_at_miss by exact H. f_equal.
  now apply (@cut_at_anywhere (length text)).
Qed.

(** X5. The block comment pass is a scan from the left: an opening
    marker that is closed later is removed with everything up to the
    first closing marker after it, and the scan goes on behind that
    marker; any other code unit is kept, so an opening marker that is
    never closed stays in the text. *)
Theorem block_comments_are_cut_out :
  strip_block_comments [] = [] /\
  (forall body post,
     find_close body = None ->
     strip_block_comments (opening ++ body ++ closing ++ post)
     = strip_block_comments post) /\
  (forall ch text,
     block_at (ch :: text) = None ->
     strip_block_comments (ch :: text) = ch :: strip_block_comments text).
Proof.
  split; [apply strip_block_nil|]. split.
  - apply strip_block_hit.
  - apply strip_block_miss.
Qed.

(** A text without apostrophe holds no block comment. *)
Lemma no_apostrophe_no_block diagramText :
  ~ In apostrophe diagramText -> strip_block_comments diagramText = diagramText.
Proof.
  assert (Hnone : forall ch s, ~ In apostrophe (ch :: s) ->
                               block_at (ch :: s) = None).
  { intros ch [|b s] H; [reflexivity|]. cbn [block_at].
    destruct (N.eqb_spec apostrophe b) as [<-|].
    - elim H. right. now left.
    - now rewrite andb_false_r. }
  induction diagramText as [|ch s IH]; intros H.
  - apply strip_block_nil.
  - rewrite strip_block_miss by now apply Hnone. f_equal. apply IH.
    intros Hin. apply H. now right.
Qed.

End BlockCommentFacts.
(* ------------------------------------------------------------------ *)
(** ** Block extraction *)

Module ExtractFacts.

Import MatcherFacts.

(** The match after a match that is not empty has less text after it. *)
Lemma exec_next_shorter r m m' :
  matched m' <> [] ->
  exec_next r m = Some m' ->
  length (suffix m') < length (suffix m).
Proof.
  unfold exec_next. intros Hne H. apply search_inv in H.
  destruct H as (sk & H & _). rewrite H, !length_app.
  destruct (matched m'); [congruence | simpl; lia].
Qed.

Lemma exec_shorter ml r text m :
  matched m <> [] ->
  exec ml r text = Some m ->
  length (suffix m) < length text.
Proof.
  unfold exec. intros Hne H. apply search_inv in H.
  destruct H as (sk & H & _). rewrite H, !length_app.
  destruct (matched m); [congruence | simpl; lia].
Qed.

(** The loop appends, for each further match, a newline and the text of
    its first group. *)
Lemma regex_loop_successive r : forall fuel m acc,
  (forall mr, m = Some mr -> matched mr <> [] -> length (suffix mr) < fuel) ->
  regex_loop r fuel m acc
  = match successive r fuel m with
    | Some ms => inr (acc ++ concat (map (fun x => LF :: group1 x) ms))
    | None => inl NeverReturns
    end.
Proof.
  induction fuel as [|fuel IH]; intros [mr|] acc Hfuel; simpl;
    try (now rewrite app_nil_r).
  - destruct (matched mr) eqn:E; [reflexivity|].
    specialize (Hfuel mr eq_refl). rewrite E in Hfuel.
    specialize (Hfuel ltac:(discriminate)). lia.
  - destruct (matched mr) as [|c mt] eqn:E; [reflexivity|].
    rewrite IH.
    + destruct (successive r fuel (exec_next r mr)); simpl; [|reflexivity].
      now rewrite <- app_assoc.
    + intros mr' Hn Hne.
      pose proof (exec_next_shorter _ _ Hne Hn).
      specialize (Hfuel mr eq_refl). rewrite E in Hfuel.
      specialize (Hfuel ltac:(discriminate)). lia.
Qed.

Lemma successive_more_fuel r : forall fuel m,
  (forall mr, m = Some mr -> matched mr <> [] -> length (suffix mr) < fuel) ->
  successive r (S fuel) m = successive r fuel m.
Proof.
  induction fuel as [|fuel IH]; intros [mr|] Hfuel; try reflexivity.
  - simpl. destruct (matched mr) eqn:E; [reflexivity|].
    specialize (Hfuel mr eq_refl). rewrite E in Hfuel.
    specialize (Hfuel ltac:(discriminate)). lia.
  - change (successive r (S (S fuel)) (Some mr))
      with (match matched mr with
            | [] => None
            | _ => option_map (cons mr) (successive r (S fuel) (exec_next r mr))
            end).
    change (successive r (S fuel) (Some mr))
      with (match matched mr with
            | [] => None
            | _ => option_map (cons mr) (successive r fuel (exec_next r mr))
            end).
    destruct (matched mr) as [|c mt] eqn:E; [reflexivity|].
    rewrite IH; [reflexivity|].
    intros mr' Hn Hne.
    pose proof (exec_next_shorter _ _ Hne Hn).
    specialize (Hfuel mr eq_refl). rewrite E in Hfuel.
    specialize (Hfuel ltac:(discriminate)). lia.
Qed.

Lemma join_cons sep b bs :
  join sep (b :: bs) = b ++ concat (map (fun x => sep :: x) bs).
Proof.
  revert b. induction bs as [|b' bs IH]; intros b; simpl.
  - now rewrite app_nil_r.
  - f_equal. f_equal. apply IH.
Qed.

(** [getPlantUmlTextRegEx]: the first groups of all the matches, in
    order, with one newline between two of them and none at the end;
    the empty text without a match; no result when a match is empty. *)
Theorem getPlantUmlTextRegEx_join text regEx :
  getPlantUmlTextRegEx text regEx
  = match all_matches regEx text with
    | Some ms => inr (join LF (map group1 ms))
    | None => inl NeverReturns
    end.
Proof.
  unfold getPlantUmlTextRegEx, all_matches.
  destruct (exec true regEx text) as [m|] eqn:E; [|reflexivity].
  change (successive regEx (S (length text)) (Some m))
    with (match matched m with
          | [] => None
          | _ => option_map (cons m)
                   (successive regEx (length text) (exec_next regEx m))
          end).
  destruct (matched m) as [|c mt] eqn:Em; [reflexivity|].
  assert (Hlen : length (suffix m) < length text).
  { eapply exec_shorter; [rewrite Em; discriminate | exact E]. }
  rewrite regex_loop_successive.
  - destruct (successive regEx (length text) (exec_next regEx m)) as [ms|];
      [|reflexivity].
    simpl option_map. cbv iota. rewrite map_cons, join_cons, map_map. reflexivity.
  - intros mr' Hn Hne. pose proof (exec_next_shorter _ _ Hne Hn). lia.
Qed.

Lemma getPlantUmlTextRegEx_outcome text regEx :
  getPlantUmlTextRegEx text regEx = inl NeverReturns \/
  exists t, getPlantUmlTextRegEx text regEx = inr t.
Proof.
  rewrite getPlantUmlTextRegEx_join.
  destruct (all_matches regEx text); eauto.
Qed.

(** *** Blocks by position *)

Lemma nth_match_none_stays r text : forall k j,
  nth_match r text k = None -> k <= j -> nth_match r text j = None.
Proof.
  intros k j H Hle. induction Hle as [|j Hle IH]; [assumption|].
  simpl. now rewrite IH.
Qed.

Lemma index_loop_spec r text (k : nat) : forall d j acc,
  j + d = k ->
  index_loop r (S d) (Z.of_nat j - 1) (Z.of_nat k) (nth_match r text j) acc
  = match nth_match r text k with
    | Some m => acc ++ group1 m
    | None => acc
    end.
Proof.
  induction d as [|d IH]; intros j acc Hj.
  - assert (j = k) by lia. subst j.
    destruct (nth_match r text k) as [m|] eqn:E; simpl; [|reflexivity].
    replace (Z.of_nat k - 1 <? Z.of_nat k)%Z with true by (symmetry; apply Z.ltb_lt; lia).
    replace (Z.of_nat k - 1 + 1 =? Z.of_nat k)%Z with true
      by (symmetry; apply Z.eqb_eq; lia).
    replace (Z.of_nat k - 1 + 1 <? Z.of_nat k)%Z with false
      by (symmetry; apply Z.ltb_ge; lia).
    reflexivity.
  - destruct (nth_match r text j) as [m|] eqn:E.
    + cbn [index_loop].
      replace (Z.of_nat j - 1 <? Z.of_nat k)%Z with true by (symmetry; apply Z.ltb_lt; lia).
      replace (Z.of_nat j - 1 + 1 =? Z.of_nat k)%Z with false
        by (symmetry; apply Z.eqb_neq; lia).
      replace (Z.of_nat j - 1 + 1)%Z with (Z.of_nat (S j) - 1)%Z by lia.
      replace (exec_next r m) with (nth_match r text (S j))
        by (simpl; now rewrite E).
      apply IH. lia.
    + rewrite (@nth_match_none_stays r text j k E) by lia. reflexivity.
Qed.

(** *** The first block and the whole text *)

Lemma index_loop_result text k :
  getPlantUmlTextFromIndex text (Z.of_nat k)
  = match nth_match regExBlock text k with
    | Some m => group1 m
    | None => []
    end.
Proof.
  unfold getPlantUmlTextFromIndex.
  replace (Z.to_nat (Z.of_nat k + 1)) with (S k) by lia.
  change (-1)%Z with (Z.of_nat 0 - 1)%Z.
  change (exec true regExBlock text) with (nth_match regExBlock text 0).
  rewrite (@index_loop_spec regExBlock text k k 0 [] eq_refl).
  now destruct (nth_match regExBlock text k).
Qed.

(** A pattern that starts with a code unit matches where that code unit
    stands. *)
Lemma leading_char_at ml ch r bef aft m :
  match_at ml (Seq (Char ch) r) bef aft = Some m -> exists s, aft = ch :: s.
Proof.
  unfold match_at. cbn [matcher]. unfold match_char, step. cbn [after].
  destruct aft as [|a aft]; [discriminate|].
  destruct (N.eqb_spec ch a) as [<-|]; [eauto | discriminate].
Qed.

Lemma regExBlock_start : exists tail, regExBlock = Seq (Char (chr "@")) tail.
Proof. eexists. reflexivity. Qed.

Lemma no_at_sign_no_block text :
  ~ In (chr "@") text -> exec true regExBlock text = None.
Proof.
  intros H. destruct (exec true regExBlock text) as [m|] eqn:E; [|reflexivity].
  unfold exec in E. apply search_inv in E. destruct E as (sk & E & _ & Hm).
  destruct regExBlock_start as (tail & R). rewrite R in Hm.
  apply leading_char_at in Hm. destruct Hm as (s & Hs).
  elim H. rewrite E, Hs. apply in_or_app. right. now left.
Qed.

(** X16. Without selector the body of the first block is taken, which is
    what the selector 0 takes, and a text without block is taken whole,
    where every number selects the empty text.  A text without at sign
    holds no block.  A negative number selects the empty text. *)
Theorem first_block_or_whole_text text :
  (forall body,
     nth_block text 0 = Some body ->
     getPlantUmlTextOrFirstBlock text = body /\
     getPlantUmlTextFromIndex text 0 = body) /\
  (nth_block text 0 = None ->
     getPlantUmlTextOrFirstBlock text = text /\
     forall k, getPlantUmlTextFromIndex text (Z.of_nat k) = []) /\
  (~ In (chr "@") text -> getPlantUmlTextOrFirstBlock text = text) /\
  (forall index, (index < 0)%Z -> getPlantUmlTextFromIndex text index = []).
Proof.
  split; [|split; [|split]].
  - intros body H. unfold nth_block in H. cbn [nth_match] in H.
    change 0%Z with (Z.of_nat 0). rewrite index_loop_result. cbn [nth_match].
    unfold getPlantUmlTextOrFirstBlock.
    destruct (exec true regExBlock text) as [m|]; [|discriminate].
    injection H as <-. auto.
  - intros H. unfold nth_block in H. cbn [nth_match] in H.
    unfold getPlantUmlTextOrFirstBlock.
    destruct (exec true regExBlock text) as [m|] eqn:E; [discriminate|].
    split; [reflexivity|]. intros k. rewrite index_loop_result.
    now rewrite (@nth_match_none_stays regExBlock text 0 k E (Nat.le_0_l k)).
  - intros H. unfold getPlantUmlTextOrFirstBlock.
    now rewrite no_at_sign_no_block.
  - intros index H. unfold getPlantUmlTextFromIndex.
    replace (Z.to_nat (index + 1)) with 0 by lia.
    destruct (exec true regExBlock text) as [m|]; [|reflexivity].
    cbn [index_loop]. now destruct (-1 <? index)%Z.
Qed.

End ExtractFacts.

(* ------------------------------------------------------------------ *)
(** ** Selectors of plain characters *)

Module SelectorFacts.

Import MatcherFacts ExtractFacts.

(** The code units that are syntax in a pattern; every other one
    stands for itself. *)
Definition is_syntax (c : jschar) : bool :=
  existsb (N.eqb c)
    (map chr [")"; "|"; "^"; "$"; "."; "("; "["; "\"; "*"; "+"; "?"; "{"; "}"; "]"]%char).

Definition plain (s : jsstring) : bool := forallb (fun c => negb (is_syntax c)) s.

(** The text does not start with a quantifier. *)
Definition no_quantifier (s : jsstring) : bool :=
  match s with
  | c :: _ => negb ((c =? chr "*")%N || (c =? chr "+")%N || (c =? chr "?")%N
                    || (c =? chr "{")%N)
  | [] => true
  end.

Lemma parse_quant_none a s :
  no_quantifier s = true -> parse_quant a s = Some (a, s).
Proof.
  destruct s as [|c s]; [reflexivity|]. unfold no_quantifier, parse_quant.
  intros H. apply negb_true_iff in H.
  repeat (apply orb_false_iff in H; destruct H as [H ?]).
  now rewrite H, H0, H1, H2.
Qed.

Ltac not_syntax c H :=
  repeat match goal with
         | |- context [(c =? ?k)%N] =>
             destruct (N.eqb_spec c k) as [->|_]; [discriminate H|]
         end.

Lemma plain_no_quantifier c s : is_syntax c = false -> no_quantifier (c :: s) = true.
Proof. intros H. unfold no_quantifier. not_syntax c H. reflexivity. Qed.

Lemma word_plain s : forallb is_word s = true -> plain s = true.
Proof.
  unfold plain. induction s as [|c s IH]; [reflexivity|].
  cbn [forallb]. intros H. apply andb_prop in H. destruct H as [Hc Hs].
  rewrite (IH Hs), andb_true_r. unfold is_syntax. cbn [map existsb].
  not_syntax c Hc. reflexivity.
Qed.

(** One plain code unit is one term. *)
Lemma parse_plain fuel c s n alts terms :
  is_syntax c = false -> no_quantifier s = true ->
  parse_disj (S fuel) (c :: s) n alts terms
  = parse_disj fuel s n alts (Char c :: terms).
Proof.
  intros Hc Hs. cbn [parse_disj]. not_syntax c Hc. cbn [orb].
  now rewrite parse_quant_none.
Qed.

Lemma parse_plain_text rest n alts : forall w fuel terms,
  plain w = true -> no_quantifier rest = true ->
  parse_disj (length w + fuel) (w ++ rest) n alts terms
  = parse_disj fuel rest n alts (rev (map Char w) ++ terms).
Proof.
  unfold plain.
  induction w as [|c w IH]; intros fuel terms Hw Hrest; [reflexivity|].
  cbn [forallb] in Hw. apply andb_prop in Hw. destruct Hw as [Hc Hw].
  apply negb_true_iff in Hc.
  cbn [length Nat.add app]. rewrite parse_plain; [|assumption|].
  - rewrite IH by assumption. cbn [map rev]. now rewrite <- app_assoc.
  - destruct w as [|d w]; [exact Hrest|].
    cbn [forallb] in Hw. apply andb_prop in Hw. destruct Hw as [Hd _].
    apply negb_true_iff in Hd. now apply plain_no_quantifier.
Qed.

(** White space, once or more, before a text that does not start with
    a question mark. *)
Lemma parse_spaces fuel c s n alts terms :
  is_syntax c = false ->
  parse_disj (S fuel) (js "\s+" ++ c :: s) n alts terms
  = parse_disj fuel (c :: s) n alts
      (Quant 1 None true (Class false [ISpace true]) :: terms).
Proof.
  intros Hc.
  change (parse_disj (S fuel) (js "\s+" ++ c :: s) n alts terms)
    with (match (if (c =? chr "?")%N
                 then Some (Quant 1 None false (Class false [ISpace true]), s)
                 else Some (Quant 1 None true (Class false [ISpace true]), c :: s))
          with
          | Some (a, rest) => parse_disj fuel rest n alts (a :: terms)
          | None => None
          end).
  not_syntax c Hc. reflexivity.
Qed.

(** The terms of a sequence. *)
Fixpoint terms_of (r : regex) : list regex :=
  match r with
  | Seq a b => a :: terms_of b
  | _ => [r]
  end.

Definition sub_before : list regex :=
  Eval vm_compute in terms_of (compile "!startsub\s+").
Definition sub_after : list regex :=
  Eval vm_compute in terms_of (compile "(?:\r\n|\n)([\s\S]*?)(?:\r\n|\n)!endsub").

(** The pattern around a selector that is read as it is written. *)
Definition literal_selector (before after : list regex) (sel : jsstring) : regex :=
  mk_seq (before ++ map Char sel ++ after).

Lemma sub_after_parsed terms :
  parse_disj 42 (js "(?:\r\n|\n)([\s\S]*?)(?:\r\n|\n)!endsub") 0 [] terms
  = Some (finish [] (rev sub_after ++ terms), [], 1).
Proof. reflexivity. Qed.

Lemma plain_sub_pattern sub :
  sub <> [] -> plain sub = true ->
  parse (subPattern sub) = Some (literal_selector sub_before sub_after sub).
Proof.
  intros Hne Hw. unfold parse, subPattern.
  rewrite !length_app.
  replace (S (length (js "!startsub\s+") + (length sub
             + length (js "(?:\r\n|\n)([\s\S]*?)(?:\r\n|\n)!endsub"))))
    with (length (js "!startsub") + S (length sub + 42))
    by (change (length (js "!startsub\s+")) with 12;
        change (length (js "(?:\r\n|\n)([\s\S]*?)(?:\r\n|\n)!endsub")) with 39;
        change (length (js "!startsub")) with 9; lia).
  destruct sub as [|c sub]; [congruence|].
  assert (Hc : is_syntax c = false).
  { unfold plain in Hw. cbn [forallb] in Hw. apply andb_prop in Hw.
    destruct Hw as [Hc _]. now apply negb_true_iff in Hc. }
  change (js "!startsub\s+" ++ (c :: sub) ++ js "(?:\r\n|\n)([\s\S]*?)(?:\r\n|\n)!endsub")
    with (js "!startsub" ++ js "\s+" ++ c :: sub
            ++ js "(?:\r\n|\n)([\s\S]*?)(?:\r\n|\n)!endsub").
  rewrite parse_plain_text by reflexivity.
  rewrite parse_spaces by assumption.
  rewrite app_comm_cons, parse_plain_text by (assumption || reflexivity).
  rewrite sub_after_parsed. unfold finish, literal_selector.
  cbn [rev mk_alt app]. rewrite !rev_app_distr, !rev_involutive, <- !app_assoc.
  reflexivity.
Qed.

(** A pattern that starts with a code unit never matches the empty
    text. *)
Lemma leading_char_match ml ch r bef aft m :
  match_at ml (Seq (Char ch) r) bef aft = Some m -> matched m <> [].
Proof.
  unfold match_at.
  destruct (matcher ml (Seq (Char ch) r) true (MState bef aft []) (fun y => Some y))
    as [z|] eqn:E; [|discriminate].
  intros [= <-]. cbn [matched].
  cbn [matcher] in E. unfold match_char, step in E. cbn [after before caps] in E.
  destruct aft as [|a aft]; [discriminate|].
  destruct (ch =? a)%N; [|discriminate].
  apply matcher_sound in E. destruct E as (y & [= ->] & _ & P).
  unfold between, pos in *. cbn [before after length] in *.
  destruct (length (before z) - length bef) eqn:L; [lia | discriminate].
Qed.

Lemma successive_total r :
  (forall bef aft m, search true r bef aft = Some m -> matched m <> []) ->
  forall fuel m,
    (forall mr, m = Some mr -> matched mr <> [] /\ length (suffix mr) < fuel) ->
    exists ms, successive r fuel m = Some ms.
Proof.
  intros Hne. induction fuel as [|fuel IH]; intros [mr|] H;
    try (exists []; reflexivity).
  - destruct (H mr eq_refl) as [_ L]. lia.
  - destruct (H mr eq_refl) as [N L]. cbn [successive].
    destruct (matched mr) as [|c mt] eqn:E; [congruence|].
    destruct (IH (exec_next r mr)) as (ms & Hms).
    + intros mr' Hn. assert (N' : matched mr' <> []) by (eapply Hne; exact Hn).
      split; [exact N'|]. pose proof (exec_next_shorter _ _ N' Hn). lia.
    + exists (mr :: ms). now rewrite Hms.
Qed.

Lemma all_matches_total r text :
  (forall bef aft m, match_at true r bef aft = Some m -> matched m <> []) ->
  exists ms, all_matches r text = Some ms.
Proof.
  intros Hne.
  assert (Hs : forall bef aft m, search true r bef aft = Some m -> matched m <> []).
  { intros bef aft m H. apply search_inv in H. destruct H as (sk & _ & _ & H).
    eapply Hne; exact H. }
  apply successive_total; [exact Hs|].
  intros mr Hm. assert (N : matched mr <> []) by (eapply Hs; exact Hm).
  split; [exact N|]. pose proof (exec_shorter _ _ _ N Hm). lia.
Qed.

(** *** Blocks named by an id *)

Definition id_before : list regex :=
  Eval vm_compute in terms_of (compile "@startuml\(id=").
Definition id_after : list regex :=
  Eval vm_compute in terms_of (compile "\)(?:\r\n|\n)([\s\S]*?)(?:\r\n|\n)@enduml").

(** An escaped parenthesis is one term. *)
Lemma parse_escaped_paren fuel s n alts terms :
  no_quantifier s = true ->
  parse_disj (S fuel) (js "\(" ++ s) n alts terms
  = parse_disj fuel s n alts (Char (chr "(") :: terms).
Proof.
  intros Hs.
  change (parse_disj (S fuel) (js "\(" ++ s) n alts terms)
    with (match parse_quant (Char (chr "(")) s with
          | Some (a, rest) => parse_disj fuel rest n alts (a :: terms)
          | None => None
          end).
  now rewrite parse_quant_none.
Qed.

Lemma id_after_parsed terms :
  parse_disj 43 (js "\)(?:\r\n|\n)([\s\S]*?)(?:\r\n|\n)@enduml") 0 [] terms
  = Some (finish [] (rev id_after ++ terms), [], 1).
Proof. reflexivity. Qed.

Lemma plain_id_pattern id :
  plain id = true ->
  parse (idPattern id) = Some (literal_selector id_before id_after id).
Proof.
  intros Hw. unfold parse, idPattern.
  rewrite !length_app.
  replace (S (length (js "@startuml\(id=") + (length id
             + length (js "\)(?:\r\n|\n)([\s\S]*?)(?:\r\n|\n)@enduml"))))
    with (length (js "@startuml") + S (length (js "id=") + (length id + 43)))
    by (change (length (js "@startuml\(id=")) with 14;
        change (length (js "\)(?:\r\n|\n)([\s\S]*?)(?:\r\n|\n)@enduml")) with 41;
        change (length (js "@startuml")) with 9;
        change (length (js "id=")) with 3; lia).
  change (js "@startuml\(id=" ++ id ++ js "\)(?:\r\n|\n)([\s\S]*?)(?:\r\n|\n)@enduml")
    with (js "@startuml" ++ js "\(" ++ js "id=" ++ id
            ++ js "\)(?:\r\n|\n)([\s\S]*?)(?:\r\n|\n)@enduml").
  rewrite parse_plain_text by reflexivity.
  rewrite parse_escaped_paren by reflexivity.
  assert (Hq : no_quantifier
                 (id ++ js "\)(?:\r\n|\n)([\s\S]*?)(?:\r\n|\n)@enduml") = true).
  { destruct id as [|c id]; [reflexivity|]. apply plain_no_quantifier.
    unfold plain in Hw. cbn [forallb] in Hw. apply andb_prop in Hw.
    destruct Hw as [Hc _]. now apply negb_true_iff in Hc. }
  rewrite parse_plain_text by (reflexivity || exact Hq).
  rewrite parse_plain_text by (assumption || reflexivity).
  rewrite id_after_parsed. unfold finish, literal_selector.
  cbn [rev mk_alt app]. rewrite !rev_app_distr, !rev_involutive, <- !app_assoc.
  reflexivity.
Qed.

(** *** The text of a match *)

(** A sequence of terms reads the texts of its terms one after the
    other. *)
Lemma seqs_read ml (last : regex) c z : forall terms x,
  matcher ml (fold_right Seq last terms) true x c = Some z ->
  exists y parts,
    matcher ml last true y c = Some z /\ advances true x y /\
    between x y = concat parts /\ Forall2 (denotes) terms parts.
Proof.
  induction terms as [|t terms IH]; intros x H; cbn [fold_right] in H.
  - exists x, []. split; [assumption|]. split; [apply advances_refl|].
    split; [apply between_refl | constructor].
  - cbn [matcher] in H. apply matcher_reads in H.
    destruct H as (y1 & H & A1 & D1).
    apply IH in H. destruct H as (y2 & parts & H & A2 & B2 & F2).
    exists y2, (between x y1 :: parts). split; [assumption|].
    split; [eapply advances_trans; eassumption|].
    split; [rewrite (between_trans A1 A2), B2; reflexivity|].
    now constructor.
Qed.

Lemma mk_seq_app l1 t l2 :
  mk_seq (l1 ++ t :: l2) = fold_right Seq (mk_seq (t :: l2)) l1.
Proof.
  induction l1 as [|a l1 IH]; [reflexivity|].
  cbn [app fold_right]. rewrite <- IH.
  destruct (l1 ++ t :: l2) eqn:E; [|reflexivity].
  destruct l1; discriminate E.
Qed.

(** Code units read as themselves. *)
Lemma chars_read w : forall parts,
  Forall2 denotes (map Char w) parts -> concat parts = w.
Proof.
  induction w as [|ch w IH]; intros parts F; inversion F; subst; [reflexivity|].
  cbn [denotes] in *. subst. cbn [concat app]. f_equal. now apply IH.
Qed.

Definition newline_form (nl : jsstring) : Prop := nl = [CR; LF] \/ nl = [LF].

(** What every match of a pattern with one group between a head and a
    tail without group is made of. *)
Lemma one_group_match ml head body tail bef aft m :
  groups tail = [] ->
  match_at ml (fold_right Seq (Seq (Group 1 body) tail) head) bef aft = Some m ->
  exists parts s2,
    matched m = concat parts ++ group1 m ++ s2 /\
    Forall2 denotes head parts /\ denotes tail s2.
Proof.
  intros Htail. unfold match_at.
  destruct (matcher ml _ true (MState bef aft []) (fun y => Some y)) as [z|] eqn:E;
    [|discriminate].
  intros [= <-]. cbn [matched]. unfold group1, group. cbn [captures].
  apply seqs_read in E. destruct E as (y1 & parts & E & A1 & B1 & F1).
  cbn [matcher] in E. apply matcher_reads in E.
  destruct E as (y2 & E & A2 & _).
  pose proof E as E'.
  apply matcher_reads in E. destruct E as (z1 & [= ->] & A3 & D3).
  apply matcher_keeps in E'. destruct E' as (z2 & [= ->] & K).
  rewrite Htail in K. rewrite (K 1 (fun H => H)). cbn [caps capture Nat.eqb].
  exists parts, (between (MState (before y2) (after y2)
                            ((1, between y1 y2) :: caps y2)) z).
  split; [|split; [exact F1 | exact D3]].
  assert (S : same_place y2 (MState (before y2) (after y2)
                               ((1, between y1 y2) :: caps y2)))
    by (split; reflexivity).
  pose proof (same_place_advances S A3) as A3'.
  rewrite (between_trans (advances_trans A1 A2) A3').
  rewrite (between_trans A1 A2), B1, <- app_assoc.
  now rewrite (same_place_between z S).
Qed.

(** The matches of a text are matches of the pattern. *)
Lemma successive_are_matches r : forall fuel m ms,
  (forall mr, m = Some mr -> exists bef aft, match_at true r bef aft = Some mr) ->
  successive r fuel m = Some ms ->
  Forall (fun mr => exists bef aft, match_at true r bef aft = Some mr) ms.
Proof.
  induction fuel as [|fuel IH]; intros [mr|] ms Hm H; cbn [successive] in H.
  - destruct (matched mr); discriminate.
  - injection H as <-. constructor.
  - destruct (matched mr); [discriminate|].
    destruct (successive r fuel (exec_next r mr)) as [ms'|] eqn:E; [|discriminate].
    injection H as <-. constructor; [now apply Hm|].
    apply (IH (exec_next r mr)); [|exact E].
    intros mr' Hn. unfold exec_next in Hn. apply search_inv in Hn.
    destruct Hn as (sk & _ & _ & Hn). eauto.
  - injection H as <-. constructor.
Qed.

Lemma all_matches_are_matches r text ms :
  all_matches r text = Some ms ->
  Forall (fun mr => exists bef aft, match_at true r bef aft = Some mr) ms.
Proof.
  unfold all_matches. apply successive_are_matches.
  intros mr Hm. unfold exec in Hm. apply search_inv in Hm.
  destruct Hm as (sk & _ & _ & Hm). eauto.
Qed.

(** *** Sub-blocks and blocks with an id *)

Definition newline_term : regex := Eval vm_compute in hd Empty sub_after.

Definition block_body : regex :=
  Eval vm_compute in
    match sub_after with
    | _ :: Group _ b :: _ => b
    | _ => Empty
    end.

Definition sub_tail : regex := Eval vm_compute in mk_seq (tl (tl sub_after)).
Definition id_tail : regex := Eval vm_compute in mk_seq (tl (tl (tl id_after))).

Lemma literal_sub_shape sub :
  literal_selector sub_before sub_after sub
  = fold_right Seq (Seq (Group 1 block_body) sub_tail)
      (sub_before ++ map Char sub ++ [newline_term]).
Proof.
  unfold literal_selector.
  change sub_after
    with ([newline_term] ++ Group 1 block_body :: tl (tl sub_after)).
  rewrite !app_assoc, mk_seq_app. reflexivity.
Qed.

Lemma literal_id_shape id :
  literal_selector id_before id_after id
  = fold_right Seq (Seq (Group 1 block_body) id_tail)
      (id_before ++ map Char id ++ [Char (chr ")"); newline_term]).
Proof.
  unfold literal_selector.
  change id_after
    with ([Char (chr ")"); newline_term]
            ++ Group 1 block_body :: tl (tl (tl id_after))).
  rewrite !app_assoc, mk_seq_app. reflexivity.
Qed.

Ltac open_reading :=
  repeat match goal with
         | H : exists _, _ |- _ => destruct H
         | H : _ /\ _ |- _ => destruct H
         | H : _ \/ _ |- _ => destruct H
         end.

Lemma newline_term_reads s : denotes newline_term s -> newline_form s.
Proof.
  unfold newline_term, newline_form. cbn [denotes]. intros H.
  open_reading; subst; auto.
Qed.

Lemma spaces_read : forall parts,
  Forall (denotes (Class false [ISpace true])) parts ->
  forallb is_space (concat parts) = true /\
  (1 <= length parts -> concat parts <> []).
Proof.
  induction parts as [|p parts IH]; intros F.
  - split; [reflexivity | simpl; lia].
  - inversion F as [|? ? D F']; subst. cbn [denotes] in D.
    destruct D as (ch & -> & Hc). destruct (IH F') as [Hs _].
    cbn [concat app forallb]. split; [|discriminate].
    rewrite Hs, andb_true_r.
    unfold class_match in Hc. cbn [existsb item_match] in Hc.
    now destruct (is_space ch).
Qed.

Ltac read_terms :=
  repeat match goal with
         | H : Forall2 denotes (_ :: _) _ |- _ => inversion H; clear H; subst
         | H : Forall2 denotes [] _ |- _ => inversion H; clear H; subst
         end.

Lemma sub_before_reads parts :
  Forall2 denotes sub_before parts ->
  exists ws, concat parts = js "!startsub" ++ ws /\ ws <> [] /\
             forallb is_space ws = true.
Proof.
  unfold sub_before. intros F. read_terms. cbn [denotes] in *. open_reading. subst.
  match goal with
  | F : Forall _ ?p, L : rounds 1 None (length ?p) |- _ =>
      destruct (spaces_read F) as [Hs Hn]; destruct L as [_ [L | []]];
      exists (concat p); cbn [concat app]; rewrite app_nil_r;
      split; [reflexivity | split; [now apply Hn | exact Hs]]
  end.
Qed.

Lemma id_before_reads parts :
  Forall2 denotes id_before parts -> concat parts = js "@startuml(id=".
Proof.
  unfold id_before. intros F. read_terms. cbn [denotes] in *. subst. reflexivity.
Qed.

Lemma sub_tail_reads s :
  denotes sub_tail s -> exists nl, s = nl ++ js "!endsub" /\ newline_form nl.
Proof.
  unfold sub_tail. cbn [denotes]. intros H. open_reading; subst.
  - exists [CR; LF]. split; [reflexivity | now left].
  - exists [LF]. split; [reflexivity | now right].
Qed.

Lemma id_tail_reads s :
  denotes id_tail s -> exists nl, s = nl ++ js "@enduml" /\ newline_form nl.
Proof.
  unfold id_tail. cbn [denotes]. intros H. open_reading; subst.
  - exists [CR; LF]. split; [reflexivity | now left].
  - exists [LF]. split; [reflexivity | now right].
Qed.

(** A sub-block that carries the name [sub], and a block with the id
    [id]: the text of the match [m] and its first group. *)
Definition sub_block (sub : jsstring) (m : result) : Prop :=
  exists ws nl1 nl2,
    matched m
    = js "!startsub" ++ ws ++ sub ++ nl1 ++ group1 m ++ nl2 ++ js "!endsub" /\
    ws <> [] /\ forallb is_space ws = true /\
    newline_form nl1 /\ newline_form nl2.

Definition id_block (id : jsstring) (m : result) : Prop :=
  exists nl1 nl2,
    matched m
    = js "@startuml(id=" ++ id ++ js ")" ++ nl1 ++ group1 m ++ nl2 ++ js "@enduml" /\
    newline_form nl1 /\ newline_form nl2.

Lemma literal_sub_match sub bef aft m :
  match_at true (literal_selector sub_before sub_after sub) bef aft = Some m ->
  sub_block sub m.
Proof.
  rewrite literal_sub_shape. intros H.
  apply one_group_match in H; [|reflexivity].
  destruct H as (parts & s2 & E & F & D).
  apply Forall2_app_inv_l in F. destruct F as (p1 & p23 & F1 & F23 & ->).
  apply Forall2_app_inv_l in F23. destruct F23 as (p2 & p3 & F2 & F3 & ->).
  apply sub_before_reads in F1. destruct F1 as (ws & E1 & Hne & Hws).
  apply chars_read in F2.
  inversion F3 as [|? nl1 ? ? D3 F3']; subst. inversion F3'; subst.
  apply newline_term_reads in D3.
  apply sub_tail_reads in D. destruct D as (nl2 & -> & Hnl2).
  exists ws, nl1, nl2. split; [|auto].
  rewrite E, !concat_app, E1. cbn [concat]. rewrite app_nil_r.
  now rewrite <- !app_assoc.
Qed.

Lemma literal_id_match id bef aft m :
  match_at true (literal_selector id_before id_after id) bef aft = Some m ->
  id_block id m.
Proof.
  rewrite literal_id_shape. intros H.
  apply one_group_match in H; [|reflexivity].
  destruct H as (parts & s2 & E & F & D).
  apply Forall2_app_inv_l in F. destruct F as (p1 & p23 & F1 & F23 & ->).
  apply Forall2_app_inv_l in F23. destruct F23 as (p2 & p3 & F2 & F3 & ->).
  apply id_before_reads in F1.
  apply chars_read in F2.
  inversion F3 as [|? paren ? ? D0 F3']; subst.
  inversion F3' as [|? nl1 ? ? D3 F3'']; subst. inversion F3''; subst.
  cbn [denotes] in D0. subst paren.
  apply newline_term_reads in D3.
  apply id_tail_reads in D. destruct D as (nl2 & -> & Hnl2).
  exists nl1, nl2. split; [|auto].
  rewrite E, !concat_app, F1. cbn [concat]. rewrite app_nil_r.
  now rewrite <- !app_assoc.
Qed.

(** *** Top-level blocks *)

Definition block_head : list regex :=
  map Char (js "@startuml") ++ [newline_term].

Lemma regExBlock_shape :
  regExBlock = fold_right Seq (Seq (Group 1 block_body) id_tail) block_head.
Proof. reflexivity. Qed.

(** A top-level block: the text of the match [m] and its first group. *)
Definition top_block (m : result) : Prop :=
  exists nl1 nl2,
    matched m = js "@startuml" ++ nl1 ++ group1 m ++ nl2 ++ js "@enduml" /\
    newline_form nl1 /\ newline_form nl2.

Lemma block_match bef aft m :
  match_at true regExBlock bef aft = Some m -> top_block m.
Proof.
  rewrite regExBlock_shape. intros H.
  apply one_group_match in H; [|reflexivity].
  destruct H as (parts & s2 & E & F & D).
  apply Forall2_app_inv_l in F. destruct F as (p1 & p2 & F1 & F2 & ->).
  apply chars_read in F1.
  inversion F2 as [|? nl1 ? ? D1 F2']; subst. inversion F2'; subst.
  apply newline_term_reads in D1.
  apply id_tail_reads in D. destruct D as (nl2 & -> & Hnl2).
  exists nl1, nl2. split; [|auto].
  rewrite E, concat_app, F1. cbn [concat]. rewrite app_nil_r.
  now rewrite <- !app_assoc.
Qed.

Lemma exec_whole ml r text m :
  exec ml r text = Some m -> prefix m ++ matched m ++ suffix m = text.
Proof.
  unfold exec. intros H. apply search_inv in H.
  destruct H as (sk & E & P & _). now rewrite P, E.
Qed.

Lemma exec_next_whole r m m' :
  exec_next r m = Some m' ->
  exists gap,
    prefix m' = prefix m ++ matched m ++ gap /\
    suffix m = gap ++ matched m' ++ suffix m'.
Proof.
  unfold exec_next. intros H. apply search_inv in H.
  destruct H as (sk & E & P & _). exists sk. split; [|exact E].
  rewrite P, rev_app_distr, !rev_involutive. now rewrite <- app_assoc.
Qed.

Lemma nth_match_whole r text : forall k m,
  nth_match r text k = Some m -> prefix m ++ matched m ++ suffix m = text.
Proof.
  induction k as [|k IH]; intros m H; cbn [nth_match] in H.
  - eapply exec_whole; exact H.
  - destruct (nth_match r text k) as [m0|] eqn:E; [|discriminate].
    destruct (exec_next_whole _ _ H) as (gap & P & S).
    rewrite <- (IH m0 eq_refl), P, S. now rewrite <- !app_assoc.
Qed.

Lemma nth_match_is_match r text : forall k m,
  nth_match r text k = Some m -> exists bef aft, match_at true r bef aft = Some m.
Proof.
  intros [|k] m H; cbn [nth_match] in H.
  - unfold exec in H. apply search_inv in H. destruct H as (sk & _ & _ & H). eauto.
  - destruct (nth_match r text k) as [m0|]; [|discriminate].
    unfold exec_next in H. apply search_inv in H.
    destruct H as (sk & _ & _ & H). eauto.
Qed.

(** X20. The blocks that the scan of [getPlantUmlTextFromIndex] finds
    lie in the text one after the other, without overlap: the k-th
    match is a part of the text made of the start marker, a newline,
    the body, a newline and the end marker, the number k selects that
    body, and the match after it starts behind its end. *)
Theorem blocks_lie_one_after_the_other text k m :
  nth_match regExBlock text k = Some m ->
  prefix m ++ matched m ++ suffix m = text /\
  top_block m /\
  getPlantUmlTextFromIndex text (Z.of_nat k) = group1 m /\
  (forall m', nth_match regExBlock text (S k) = Some m' ->
              exists gap, prefix m' = prefix m ++ matched m ++ gap).
Proof.
  intros H. split; [eapply nth_match_whole; exact H|]. split; [|split].
  - destruct (nth_match_is_match _ _ _ H) as (bef & aft & Hm).
    eapply block_match; exact Hm.
  - rewrite ExtractFacts.index_loop_result. now rewrite H.
  - intros m' H'. cbn [nth_match] in H'. rewrite H in H'.
    destruct (exec_next_whole _ _ H') as (gap & P & _). eauto.
Qed.

(** X17. A selector without a code unit that is syntax in a pattern (so
    every selector of letters, digits and underscores) is read as it is
    written when sub-blocks are taken by name.  The call returns, and
    what it returns is the bodies of all the matches, in the order of
    the text, one newline between two of them.  Every match is a
    sub-block that carries exactly that name: the start marker, white
    space, the name, a newline, the body, a newline and the end
    marker. *)
Theorem plain_sub_selector text sub :
  sub <> [] -> plain sub = true ->
  exists ms,
    all_matches (literal_selector sub_before sub_after sub) text = Some ms /\
    getPlantUmlTextFromSub text sub = inr (join LF (map group1 ms)) /\
    Forall (sub_block sub) ms.
Proof.
  intros Hne Hw.
  destruct (@all_matches_total (literal_selector sub_before sub_after sub) text)
    as (ms & Hms).
  { intros bef aft m. apply leading_char_match. }
  exists ms. split; [exact Hms|]. split.
  - unfold getPlantUmlTextFromSub, with_pattern.
    rewrite plain_sub_pattern by assumption.
    now rewrite getPlantUmlTextRegEx_join, Hms.
  - apply all_matches_are_matches in Hms.
    eapply Forall_impl; [|exact Hms].
    intros m (bef & aft & Hm). eapply literal_sub_match; exact Hm.
Qed.

(** X15. A selector that is no number and holds no code unit that is
    syntax in a pattern is read as it is written when blocks are taken
    by id.  The call returns, and what it returns is the bodies of all
    the matches, in the order of the text, one newline between two of
    them.  Every match is a block with exactly that id: the start
    marker with the id in parentheses, a newline, the body, a newline
    and the end marker. *)
Theorem plain_id_selector text id :
  plain id = true ->
  exists ms,
    all_matches (literal_selector id_before id_after id) text = Some ms /\
    getPlantUmlTextFromId text id = inr (join LF (map group1 ms)) /\
    Forall (id_block id) ms.
Proof.
  intros Hw.
  destruct (@all_matches_total (literal_selector id_before id_after id) text)
    as (ms & Hms).
  { intros bef aft m. apply leading_char_match. }
  exists ms. split; [exact Hms|]. split.
  - unfold getPlantUmlTextFromId, with_pattern.
    rewrite plain_id_pattern by assumption.
    now rewrite getPlantUmlTextRegEx_join, Hms.
  - apply all_matches_are_matches in Hms.
    eapply Forall_impl; [|exact Hms].
    intros m (bef & aft & Hm). eapply literal_id_match; exact Hm.
Qed.

End SelectorFacts.

(* ------------------------------------------------------------------ *)
(** ** The blocks of a text *)

Module BlockFacts.

Import MatcherFacts RepeatFacts ExtractFacts.
Import BlockCommentFacts(any_unit, any_unit_true).

(** The paired-delimiter scan, written on the text.  A block is the
    start marker, a newline (CR LF or LF), a body, a newline and the end
    marker; its body ends at the first newline that the end marker
    follows. *)
Definition start_marker : jsstring := js "@startuml".
Definition end_marker : jsstring := js "@enduml".

(** What follows the word [w] at the start of a text. *)
Fixpoint after_word (w s : jsstring) : option jsstring :=
  match w, s with
  | [], _ => Some s
  | c :: w', d :: s' => if (c =? d)%N then after_word w' s' else None
  | _ :: _, [] => None
  end.

(** What follows a newline at the start of a text. *)
Definition after_newline (s : jsstring) : option jsstring :=
  match s with
  | a :: r =>
      if (CR =? a)%N then
        match r with
        | b :: r' => if (LF =? b)%N then Some r' else None
        | [] => None
        end
      else if (LF =? a)%N then Some r
      else None
  | [] => None
  end.

(** What follows the end of a block at the start of a text. *)
Definition after_end (s : jsstring) : option jsstring :=
  match after_newline s with
  | Some r => after_word end_marker r
  | None => None
  end.

(** The body up to the first end of a block, and what follows that
    end. *)
Fixpoint find_end (s : jsstring) : option (jsstring * jsstring) :=
  match after_end s with
  | Some r => Some ([], r)
  | None =>
      match s with
      | a :: s' =>
          match find_end s' with
          | Some (body, r) => Some (a :: body, r)
          | None => None
          end
      | [] => None
      end
  end.

(** A block that starts where the text starts: its body and what
    follows it. *)
Definition block_here (s : jsstring) : option (jsstring * jsstring) :=
  match after_word start_marker s with
  | Some r =>
      match after_newline r with
      | Some r' => find_end r'
      | None => None
      end
  | None => None
  end.

(** The first block of a text, from the left. *)
Fixpoint first_block (s : jsstring) : option (jsstring * jsstring) :=
  match block_here s with
  | Some b => Some b
  | None =>
      match s with
      | _ :: s' => first_block s'
      | [] => None
      end
  end.

(** The bodies of the blocks of a text in the order of the text: after a
    block the scan goes on behind its end marker.  A block is not empty,
    so the text has no more blocks than code units. *)
Fixpoint blocks_from (fuel : nat) (s : jsstring) : list jsstring :=
  match fuel with
  | O => []
  | S fuel' =>
      match first_block s with
      | Some (body, r) => body :: blocks_from fuel' r
      | None => []
      end
  end.

Definition top_level_blocks (text : jsstring) : list jsstring :=
  blocks_from (length text) text.

(** *** What is left after a block *)






(** *** Where the block pattern matches *)











(** *** The successive matches *)





(** *** A text written as blocks *)

Definition block_text (nl1 body nl2 : jsstring) : jsstring :=
  start_marker ++ nl1 ++ body ++ nl2 ++ end_marker.

Definition newline_text (nl : jsstring) : Prop := nl = [CR; LF] \/ nl = [LF].

(** A text written as blocks one after the other: each block has a
    newline after its start marker and one before its end marker, its
    body holds no at sign and does not end with a carriage return, and
    the text between the blocks holds no at sign. *)
Inductive written_as : list jsstring -> jsstring -> Prop :=
| written_end gap :
    ~ In (chr "@") gap -> written_as [] gap
| written_block gap nl1 body nl2 bodies rest :
    ~ In (chr "@") gap ->
    newline_text nl1 -> newline_text nl2 ->
    ~ In (chr "@") body ->
    (forall b, body <> b ++ [CR]) ->
    written_as bodies rest ->
    written_as (body :: bodies) (gap ++ block_text nl1 body nl2 ++ rest).












End BlockFacts.

(* ------------------------------------------------------------------ *)
(** ** The include expansion *)

Module PlantUMLFacts.

(** How a computation may change the shared state: both arrays and the
    warnings only grow at their end, and a computation that returns a
    value leaves the inclusion stack as it found it. *)
Definition disciplined {A} (m : M A) : Prop :=
  forall st,
    (exists more, includeOnce (snd (m st)) = includeOnce st ++ more) /\
    (exists more, warnings (snd (m st)) = warnings st ++ more) /\
    (exists pushed,
        includeStack (snd (m st)) = includeStack st ++ pushed /\
        forall a, fst (m st) = inr a -> pushed = []).

Ltac unchanged :=
  repeat split; exists []; rewrite ?app_nil_r; try split; auto.

Lemma disciplined_ret {A} (a : A) : disciplined (ret a).
Proof. intros st; simpl. unchanged. Qed.

Lemma disciplined_fail {A} (f : failure) : disciplined (@fail A f).
Proof. intros st; simpl. unchanged. Qed.

Lemma disciplined_lift {A} (r : failure + A) : disciplined (lift r).
Proof. intros st; simpl. unchanged. Qed.

Lemma disciplined_warn w : disciplined (warn w).
Proof.
  intros st; simpl. repeat split;
    [exists [] | exists [w] | exists []]; rewrite ?app_nil_r; auto.
Qed.

Lemma disciplined_bind {A B} (m : M A) (k : A -> M B) :
  disciplined m -> (forall a, disciplined (k a)) -> disciplined (bind m k).
Proof.
  intros Hm Hk st. unfold bind.
  destruct (Hm st) as ((o1 & O1) & (w1 & W1) & (p1 & P1 & Q1)).
  destruct (m st) as [[f|a] st1] eqn:E; simpl in *.
  - repeat split; eauto.
    exists p1. split; [assumption | discriminate].
  - destruct (Hk a st1) as ((o2 & O2) & (w2 & W2) & (p2 & P2 & Q2)).
    rewrite (Q1 a eq_refl), app_nil_r in P1.
    repeat split.
    + exists (o1 ++ o2). now rewrite O2, O1, app_assoc.
    + exists (w1 ++ w2). now rewrite W2, W1, app_assoc.
    + exists p2. rewrite P2, P1. auto.
Qed.

(** The stack is pushed for the time of the nested call and popped when
    it returns; when it fails, the pop is not reached. *)
Lemma disciplined_nested {A} (p : jsstring) (m : M A) :
  disciplined m ->
  disciplined (push_stack p ;;; a <- m ;; pop_stack ;;; ret a).
Proof.
  intros Hm st. unfold bind, push_stack, pop_stack, ret. simpl.
  set (st0 := State (includeOnce st) (includeStack st ++ [p]) (warnings st)).
  destruct (Hm st0) as ((o1 & O1) & (w1 & W1) & (p1 & P1 & Q1)).
  destruct (m st0) as [[f|a] st1] eqn:E; simpl in *.
  - repeat split; eauto.
    exists ([p] ++ p1). rewrite P1, app_assoc. split; [reflexivity | discriminate].
  - rewrite (Q1 a eq_refl), app_nil_r in P1.
    repeat split; eauto.
    exists []. rewrite P1, JSFacts.removelast_snoc, app_nil_r. auto.
Qed.

Lemma disciplined_mapM {A B} (f : A -> M B) (l : list A) :
  (forall a, disciplined (f a)) -> disciplined (mapM f l).
Proof.
  intros Hf. induction l as [|a l IH]; simpl.
  - apply disciplined_ret.
  - apply disciplined_bind; [apply Hf|]. intros b.
    apply disciplined_bind; [apply IH|]. intros bs. apply disciplined_ret.
Qed.

Section Engine.

Variable vfs_exists : jsstring -> bool.
Variable vfs_read : jsstring -> jsstring + jsstring.
Variable path_join : jsstring -> jsstring -> jsstring.
Variable path_dirname : jsstring -> jsstring.
Variable URL_protocol : jsstring -> option jsstring.

Local Abbreviation readInclude := (readPlantUmlInclude vfs_exists vfs_read path_join URL_protocol).
Local Abbreviation expand := (expand_directive vfs_exists vfs_read path_join path_dirname URL_protocol).
Local Abbreviation replaceLine := (replace_line vfs_exists vfs_read path_join path_dirname URL_protocol).
Local Abbreviation preprocess := (preprocessPlantUmlIncludes vfs_exists vfs_read path_join path_dirname URL_protocol).
Local Abbreviation nestedCall := (nested vfs_exists vfs_read path_join path_dirname URL_protocol).
Local Abbreviation remote := (isRemoteUrl URL_protocol).

(** The path a local reference resolves to. *)
Definition resolve (dirPath url : jsstring) : jsstring :=
  if negb (vfs_exists (path_join dirPath url)) then url else path_join dirPath url.

Lemma preprocess_unfold fuel diagramText dirPath :
  preprocess fuel diagramText dirPath =
  (diagramProcessed <- mapM (replaceLine (nestedCall fuel) dirPath)
                         (split LF (strip_comments diagramText)) ;;
   ret (join LF diagramProcessed)).
Proof. destruct fuel; reflexivity. Qed.

Lemma disciplined_skipped w (r : include_result) :
  disciplined (_ <- warn w ;; ret r).
Proof.
  apply disciplined_bind; [apply disciplined_warn | intros; apply disciplined_ret].
Qed.

Lemma disciplined_read url dirPath : disciplined (readInclude url dirPath).
Proof.
  intros st. unfold readPlantUmlInclude.
  destruct (startsWith (js "<") url).
  { exact (disciplined_skipped _ _ st). }
  destruct (includes (includeStack st) url).
  { exact (disciplined_fail _ st). }
  destruct (remote url).
  { destruct (vfs_read url).
    - exact (disciplined_skipped _ _ st).
    - exact (disciplined_ret _ st). }
  cbv zeta.
  destruct (includes (includeStack st) _).
  { exact (disciplined_fail _ st). }
  destruct (vfs_read _).
  - exact (disciplined_fail _ st).
  - exact (disciplined_ret _ st).
Qed.

Lemma disciplined_once text filePath : disciplined (checkIncludeOnce text filePath).
Proof.
  intros st. unfold checkIncludeOnce.
  destruct (includes (includeOnce st) filePath).
  - exact (disciplined_fail _ st).
  - simpl. repeat split;
      [exists [filePath] | exists [] | exists []]; rewrite ?app_nil_r; auto.
Qed.

Lemma disciplined_expand recur line dirPath m :
  (forall t d, disciplined (recur t d)) ->
  disciplined (expand recur line dirPath m).
Proof.
  intros Hr. unfold expand_directive, include_file.
  destruct (directive_of m) as [d|]; [|apply disciplined_fail].
  apply disciplined_bind; [apply disciplined_read|]. intros res.
  destruct (skip res); [apply disciplined_ret|].
  apply disciplined_bind.
  { destruct (str_eqb _ _); [apply disciplined_once | apply disciplined_ret]. }
  intros _. apply disciplined_bind; [apply disciplined_lift|]. intros selected.
  apply disciplined_nested. apply Hr.
Qed.

Lemma disciplined_line recur dirPath line :
  (forall t d, disciplined (recur t d)) ->
  disciplined (replaceLine recur dirPath line).
Proof.
  intros Hr. unfold replace_line.
  destruct (first_match regExInclude line) as [m|]; [|apply disciplined_ret].
  apply disciplined_bind; [now apply disciplined_expand|].
  intros r. apply disciplined_ret.
Qed.

Lemma disciplined_preprocess fuel : forall diagramText dirPath,
  disciplined (preprocess fuel diagramText dirPath).
Proof.
  induction fuel as [|fuel IH]; intros diagramText dirPath;
    rewrite preprocess_unfold;
    (apply disciplined_bind; [|intros; apply disciplined_ret]);
    apply disciplined_mapM; intros line; apply disciplined_line; simpl.
  - intros; apply disciplined_fail.
  - exact IH.
Qed.

(** *** Failures end the call *)

Lemma mapM_app_fail {A B} (f : A -> M B) pre a post st outs st1 e st2 :
  mapM f pre st = (inr outs, st1) ->
  f a st1 = (inl e, st2) ->
  mapM f (pre ++ a :: post) st = (inl e, st2).
Proof.
  revert st outs. induction pre as [|b pre IH]; intros st outs Hpre Ha; simpl in *.
  - inversion Hpre; subst. unfold bind. now rewrite Ha.
  - unfold bind in *. destruct (f b st) as [[e'|b'] st'] eqn:E; [discriminate|].
    destruct (mapM f pre st') as [[e'|bs] st''] eqn:E2; [discriminate|].
    inversion Hpre; subst.
    erewrite IH; [reflexivity | eassumption | eassumption].
Qed.

Lemma mapM_unchanged {A} (f : A -> M A) l st :
  (forall a, In a l -> f a st = (inr a, st)) ->
  mapM f l st = (inr l, st).
Proof.
  induction l as [|a l IH]; intros H; simpl; [reflexivity|].
  unfold bind. rewrite (H a (or_introl eq_refl)), IH; [reflexivity|].
  intros b Hb. apply H. now right.
Qed.

(** A line that fails ends the call on its document with the same
    failure: the lines after it are not visited. *)
Lemma line_failure_aborts fuel diagramText dirPath st pre line post outs st1 f st2 :
  split LF (strip_comments diagramText) = pre ++ line :: post ->
  mapM (replaceLine (nestedCall fuel) dirPath) pre st = (inr outs, st1) ->
  replaceLine (nestedCall fuel) dirPath line st1 = (inl f, st2) ->
  preprocess fuel diagramText dirPath st = (inl f, st2).
Proof.
  intros Hsplit Hpre Hline. rewrite preprocess_unfold, Hsplit.
  unfold bind at 1.
  erewrite mapM_app_fail; [reflexivity | eassumption | eassumption].
Qed.

(** The lines before a directive leave the inclusion stack as it was. *)
Lemma siblings_see_same_stack fuel dirPath pre st outs st1 :
  mapM (replaceLine (nestedCall fuel) dirPath) pre st = (inr outs, st1) ->
  includeStack st1 = includeStack st.
Proof.
  intros H.
  assert (D : disciplined (mapM (replaceLine (nestedCall fuel) dirPath) pre)).
  { apply disciplined_mapM. intros line. apply disciplined_line.
    destruct fuel; simpl; intros; [apply disciplined_fail | apply disciplined_preprocess]. }
  destruct (D st) as (_ & _ & (p & P & Q)).
  rewrite H in *. simpl in *. rewrite (Q outs eq_refl), app_nil_r in P. exact P.
Qed.

(** *** Reading a reference *)

Lemma read_cycle_raw url dirPath st :
  startsWith (js "<") url = false ->
  In url (includeStack st) ->
  readInclude url dirPath st = (inl (Thrown (CycleError url)), st).
Proof.
  intros Hlib Hin. unfold readPlantUmlInclude. rewrite Hlib.
  apply includes_In in Hin. now rewrite Hin.
Qed.

Lemma read_cycle_resolved url dirPath st :
  startsWith (js "<") url = false ->
  ~ In url (includeStack st) ->
  remote url = false ->
  In (resolve dirPath url) (includeStack st) ->
  readInclude url dirPath st
  = (inl (Thrown (CycleError (resolve dirPath url))), st).
Proof.
  intros Hlib Hraw Hrem Hin. unfold readPlantUmlInclude. rewrite Hlib.
  apply includes_not_In in Hraw. rewrite Hraw, Hrem. cbv zeta.
  apply includes_In in Hin. unfold resolve in Hin. now rewrite Hin.
Qed.

(** The path named by the CycleError: the raw reference when it is on
    the stack, the resolved path otherwise. *)
Definition cycle_path (dirPath url : jsstring) (st : state) : jsstring :=
  if includes (includeStack st) url then url else resolve dirPath url.

Lemma read_cycle url dirPath st :
  startsWith (js "<") url = false ->
  In url (includeStack st) \/
    (remote url = false /\ In (resolve dirPath url) (includeStack st)) ->
  readInclude url dirPath st
  = (inl (Thrown (CycleError (cycle_path dirPath url st))), st).
Proof.
  intros Hlib H. unfold cycle_path.
  destruct (includes (includeStack st) url) eqn:E.
  - apply read_cycle_raw; [assumption | now apply includes_In].
  - destruct H as [H | [Hrem H]].
    + apply includes_In in H. congruence.
    + apply read_cycle_resolved; try assumption. now apply includes_not_In.
Qed.

Lemma line_read_failure recur dirPath line m d st f st' :
  first_match regExInclude line = Some m ->
  directive_of m = Some d ->
  readInclude (url d) dirPath st = (inl f, st') ->
  replaceLine recur dirPath line st = (inl f, st').
Proof.
  intros Hm Hd Hr. unfold replace_line, expand_directive, include_file.
  rewrite Hm, Hd. unfold bind. now rewrite Hr.
Qed.

(** *** The inclusion stack *)

(** A nested call that fails ends the directive with the same failure,
    and the path pushed for it stays on the stack. *)
Lemma nested_failure_propagates recur line dirPath m d res st st1 selected f st2 :
  directive_of m = Some d ->
  readInclude (url d) dirPath st = (inr res, st) ->
  skip res = false ->
  (if str_eqb (include d) include_once_kw
   then checkIncludeOnce (text res) (filePath res)
   else ret tt) st = (inr tt, st1) ->
  select (include d) (sub d) (text res) = inr selected ->
  recur selected (path_dirname (filePath res))
    (State (includeOnce st1) (includeStack st1 ++ [filePath res]) (warnings st1))
  = (inl f, st2) ->
  expand recur line dirPath m st = (inl f, st2).
Proof.
  intros Hd Hr Hs Ho Hsel Hrec. unfold expand_directive, include_file. rewrite Hd.
  unfold bind at 1. rewrite Hr, Hs.
  unfold bind at 1. rewrite Ho.
  unfold bind at 1. unfold lift. rewrite Hsel.
  unfold bind at 1. unfold push_stack at 1.
  unfold bind at 1. now rewrite Hrec.
Qed.

(** A reference that is read leaves the state alone and is not on the
    stack. *)
Lemma read_ok url dirPath st res st' :
  readInclude url dirPath st = (inr res, st') ->
  skip res = false ->
  st' = st /\ ~ In (filePath res) (includeStack st) /\
  vfs_read (filePath res) = inr (text res) /\
  filePath res = (if remote url then url else resolve dirPath url).
Proof.
  unfold readPlantUmlInclude.
  destruct (startsWith (js "<") url).
  { unfold bind, warn, ret; simpl. intros [= <- <-]. discriminate. }
  destruct (includes (includeStack st) url) eqn:Eraw.
  { discriminate. }
  destruct (remote url).
  { destruct (vfs_read url) eqn:Er.
    - unfold bind, warn, ret; simpl. intros [= <- <-]. discriminate.
    - unfold ret. intros [= <- <-] _. simpl.
      repeat split; auto. now apply includes_not_In. }
  cbv zeta. fold (resolve dirPath url).
  destruct (includes (includeStack st) (resolve dirPath url)) eqn:Eres.
  { discriminate. }
  destruct (vfs_read (resolve dirPath url)) eqn:Er.
  - discriminate.
  - unfold ret. intros [= <- <-] _. simpl.
    repeat split; auto. now apply includes_not_In.
Qed.


(** *** The one-shot guard *)


Lemma mapM_cons_inv {A B} (f : A -> M B) a l st outs st' :
  mapM f (a :: l) st = (inr outs, st') ->
  exists b bs st1,
    f a st = (inr b, st1) /\ mapM f l st1 = (inr bs, st') /\ outs = b :: bs.
Proof.
  simpl. unfold bind. destruct (f a st) as [[e|b] st0]; [discriminate|].
  destruct (mapM f l st0) as [[e|bs] st1] eqn:E; [discriminate|].
  intros [= <- <-]. exists b, bs, st0. auto.
Qed.

(** The lines of a document are expanded by disciplined computations. *)
Lemma disciplined_nestedCall fuel t d : disciplined (nestedCall fuel t d).
Proof.
  destruct fuel; simpl; [apply disciplined_fail | apply disciplined_preprocess].
Qed.




(** What a computation returns and does to the two arrays does not
    depend on the warnings written so far. *)
Definition uniform {A} (m : M A) : Prop :=
  forall st1 st2,
    includeOnce st1 = includeOnce st2 ->
    includeStack st1 = includeStack st2 ->
    fst (m st1) = fst (m st2) /\
    includeOnce (snd (m st1)) = includeOnce (snd (m st2)) /\
    includeStack (snd (m st1)) = includeStack (snd (m st2)).




Lemma uniform_warn w : uniform (warn w).
Proof. intros st1 st2 H1 H2; simpl; auto. Qed.












(** The line is only returned for a reference that is skipped. *)
Lemma include_file_line_irrelevant recur l1 l2 dirPath d res st :
  readInclude (url d) dirPath st = (inr res, st) ->
  skip res = false ->
  include_file vfs_exists vfs_read path_join path_dirname URL_protocol
    recur l1 dirPath d st
  = include_file vfs_exists vfs_read path_join path_dirname URL_protocol
      recur l2 dirPath d st.
Proof.
  intros Hr Hs. unfold include_file, bind. now rewrite Hr, Hs.
Qed.


(** *** Failed reads *)

(** A remote reference that cannot be read is skipped with a warning:
    no error, and the callback gives the line back. *)
Lemma remote_read_failure_is_soft url dirPath st e :
  startsWith (js "<") url = false ->
  ~ In url (includeStack st) ->
  remote url = true ->
  vfs_read url = inl e ->
  readInclude url dirPath st
  = (inr (IncludeResult true [] url),
     State (includeOnce st) (includeStack st) (warnings st ++ [SkipRemote url e])).
Proof.
  intros Hlib Hraw Hrem Hread. unfold readPlantUmlInclude.
  apply includes_not_In in Hraw. now rewrite Hlib, Hraw, Hrem, Hread.
Qed.

(** A local reference that cannot be read is a ReadError that carries
    the cause. *)
Lemma local_read_failure_is_hard url dirPath st e :
  startsWith (js "<") url = false ->
  ~ In url (includeStack st) ->
  remote url = false ->
  ~ In (resolve dirPath url) (includeStack st) ->
  vfs_read (resolve dirPath url) = inl e ->
  readInclude url dirPath st
  = (inl (Thrown (ReadError (resolve dirPath url) e)), st).
Proof.
  intros Hlib Hraw Hrem Hres Hread. unfold readPlantUmlInclude.
  apply includes_not_In in Hraw. apply includes_not_In in Hres.
  unfold resolve in *. now rewrite Hlib, Hraw, Hrem, Hres, Hread.
Qed.

(** A skipped directive: the callback returns the line, which replaces
    the text the pattern matched. *)
Lemma skipped_line recur dirPath line m d res st st' :
  first_match regExInclude line = Some m ->
  directive_of m = Some d ->
  readInclude (url d) dirPath st = (inr res, st') ->
  skip res = true ->
  replaceLine recur dirPath line st = (inr (prefix m ++ line ++ suffix m), st').
Proof.
  intros Hm Hd Hr Hs. unfold replace_line, expand_directive, include_file.
  rewrite Hm, Hd. unfold bind. now rewrite Hr, Hs.
Qed.

(** The text that follows the line in the result is what the pattern
    left unmatched: nothing on a line without line terminator, which
    therefore stays as it is, and otherwise the text from the first
    line terminator after the reference on, which comes twice. *)
Lemma skipped_line_tail recur dirPath line m d res st st' :
  first_match regExInclude line = Some m ->
  directive_of m = Some d ->
  readInclude (url d) dirPath st = (inr res, st') ->
  skip res = true ->
  replaceLine recur dirPath line st = (inr (line ++ suffix m), st') /\
  LineCommentFacts.line_ends (suffix m).
Proof.
  intros Hm Hd Hr Hs.
  destruct (DirectiveFacts.directive_first_match _ Hm) as (P & _ & L).
  split; [|exact L].
  rewrite (@skipped_line recur dirPath line m d res st st' Hm Hd Hr Hs), P. reflexivity.
Qed.

Lemma skipped_line_kept recur dirPath line m d res st st' :
  forallb LineCommentFacts.not_terminator line = true ->
  first_match regExInclude line = Some m ->
  directive_of m = Some d ->
  readInclude (url d) dirPath st = (inr res, st') ->
  skip res = true ->
  replaceLine recur dirPath line st = (inr line, st').
Proof.
  intros Hline Hm Hd Hr Hs.
  destruct (DirectiveFacts.directive_whole_line _ Hline Hm) as (P & _ & S).
  rewrite (@skipped_line recur dirPath line m d res st st' Hm Hd Hr Hs), P, S.
  now rewrite app_nil_r.
Qed.

(** *** Documents without directive *)

(** C6 (amended). A document in which neither comment pattern matches
    anywhere and no line holds a directive is returned as it is, code
    unit for code unit, and the shared state is not touched. *)
Theorem no_comment_no_directive_unchanged fuel diagramText dirPath st :
  has_block_comment diagramText = false ->
  has_line_comment diagramText = false ->
  existsb is_directive (split LF diagramText) = false ->
  preprocess fuel diagramText dirPath st = (inr diagramText, st).
Proof.
  unfold has_block_comment, has_line_comment. intros Hb Hl Hd.
  rewrite preprocess_unfold. unfold strip_comments, strip_block_comments,
    strip_line_comments.
  rewrite (MatcherFacts.replace_all_no_match _ _ [] diagramText)
    by (destruct (exec false regExCommentMultiLine diagramText); congruence).
  rewrite (MatcherFacts.replace_all_no_match _ _ [] diagramText)
    by (destruct (exec false regExCommentSingleLine diagramText); congruence).
  unfold bind. rewrite mapM_unchanged.
  - unfold ret. now rewrite JSFacts.join_split.
  - intros line Hin. unfold replace_line.
    assert (Hnone : is_directive line = false).
    { destruct (is_directive line) eqn:E; [|reflexivity].
      assert (existsb is_directive (split LF diagramText) = true)
        by (apply existsb_exists; eauto).
      congruence. }
    unfold is_directive in Hnone.
    now destruct (first_match regExInclude line).
Qed.

(** *** The depth of nested includes *)

Lemma select_not_fuel include sub text :
  select include sub text <> inl OutOfFuel.
Proof.
  assert (R : forall t r, getPlantUmlTextRegEx t r <> inl OutOfFuel).
  { intros t r.
    destruct (ExtractFacts.getPlantUmlTextRegEx_outcome t r) as [-> | [x ->]];
      discriminate. }
  assert (P : forall src t, with_pattern src (getPlantUmlTextRegEx t) <> inl OutOfFuel).
  { intros src t. unfold with_pattern. destruct (parse src); [apply R | discriminate]. }
  unfold select. destruct sub as [[|c s]|]; try discriminate.
  destruct (str_eqb include includesub_kw); [apply P|].
  destruct (parseInt (c :: s)); [discriminate | apply P].
Qed.

Section Depth.

(** The paths the file system can read are among [readable]. *)
Variable readable : list jsstring.
Hypothesis readable_complete :
  forall p t, vfs_read p = inr t -> In p readable.

(** The stack holds distinct readable paths, and the fuel covers the
    readable paths that are not on it. *)
Definition covered (fuel : nat) (stack : list jsstring) : Prop :=
  NoDup stack /\ incl stack readable /\ length readable <= fuel + length stack.

Lemma covered_push fuel stack p :
  covered fuel stack -> ~ In p stack -> In p readable ->
  exists fuel', fuel = S fuel' /\ covered fuel' (stack ++ [p]).
Proof.
  intros (Hnd & Hincl & Hlen) Hnot Hin.
  assert (Hnd' : NoDup (stack ++ [p])).
  { apply NoDup_app; [assumption | repeat constructor; intros [] | ].
    intros a Ha [->|[]]. contradiction. }
  assert (Hincl' : incl (stack ++ [p]) readable).
  { intros a Ha. apply in_app_or in Ha. destruct Ha as [Ha|[->|[]]]; auto. }
  pose proof (NoDup_incl_length Hnd' Hincl') as L.
  rewrite length_app in L. simpl in L.
  destruct fuel as [|fuel']; [lia|].
  exists fuel'. split; [reflexivity|].
  split; [assumption|]. split; [assumption|].
  rewrite length_app. simpl. lia.
Qed.

Lemma line_not_fuel fuel dirPath line st :
  (forall fuel', fuel = S fuel' -> forall t d st',
      covered fuel' (includeStack st') ->
      fst (preprocess fuel' t d st') <> inl OutOfFuel) ->
  covered fuel (includeStack st) ->
  fst (replaceLine (nestedCall fuel) dirPath line st) <> inl OutOfFuel.
Proof.
  intros IH Hcov. unfold replace_line.
  destruct (first_match regExInclude line) as [m|]; [|discriminate].
  unfold expand_directive, include_file.
  destruct (directive_of m) as [d|]; [|discriminate].
  unfold bind at 1. unfold bind at 1.
  destruct (readInclude (url d) dirPath st) as [[f|res] st1] eqn:Er.
  { simpl. intros Hf. injection Hf as ->.
    revert Er. unfold readPlantUmlInclude.
    destruct (startsWith _ _); [discriminate|].
    destruct (includes _ _); [discriminate|].
    destruct (remote _).
    - destruct (vfs_read _); discriminate.
    - cbv zeta. destruct (includes _ _); [discriminate|].
      destruct (vfs_read _); discriminate. }
  destruct (skip res) eqn:Es; [discriminate|].
  destruct (read_ok _ _ _ Er Es) as (-> & Hnot & Hread & _).
  unfold bind at 1.
  destruct ((if str_eqb (include d) include_once_kw
             then checkIncludeOnce (text res) (filePath res)
             else ret tt) st) as [[f|[]] st2] eqn:Eo.
  { simpl. intros Hf. injection Hf as ->. revert Eo.
    destruct (str_eqb _ _); [|discriminate].
    unfold checkIncludeOnce. destruct (includes _ _); discriminate. }
  assert (Hst2 : includeStack st2 = includeStack st).
  { revert Eo. destruct (str_eqb _ _).
    - unfold checkIncludeOnce. destruct (includes _ _); [discriminate|].
      now intros [= <-].
    - now intros [= <-]. }
  unfold bind at 1. unfold lift.
  destruct (select (include d) (sub d) (text res)) as [f|selected] eqn:Esel.
  { simpl. intros Hf. injection Hf as ->. now apply (select_not_fuel (include d) (sub d) (text res)). }
  unfold bind at 1. unfold push_stack at 1. unfold bind at 1.
  destruct (covered_push (filePath res) Hcov Hnot
              (readable_complete Hread)) as (fuel' & -> & Hcov').
  simpl nested.
  match goal with
  | |- context [preprocess fuel' selected ?dir ?st0] =>
      pose proof (IH fuel' eq_refl selected dir st0) as Hn;
      destruct (preprocess fuel' selected dir st0) as [[f|r] st3]
  end.
  - simpl in *. apply Hn. simpl. now rewrite Hst2.
  - discriminate.
Qed.

Ltac same_failure H :=
  simpl in *; let Hf := fresh in intros Hf; injection Hf as ->; now apply H.

Lemma lines_not_fuel fuel dirPath :
  (forall fuel', fuel = S fuel' -> forall t d st',
      covered fuel' (includeStack st') ->
      fst (preprocess fuel' t d st') <> inl OutOfFuel) ->
  forall lines st,
    covered fuel (includeStack st) ->
    fst (mapM (replaceLine (nestedCall fuel) dirPath) lines st) <> inl OutOfFuel.
Proof.
  intros IH. induction lines as [|line lines IHl]; intros st Hcov; simpl.
  - discriminate.
  - unfold bind at 1.
    pose proof (line_not_fuel dirPath line st IH Hcov) as Hline.
    destruct (replaceLine (nestedCall fuel) dirPath line st) as [[f|out] st1] eqn:E.
    + same_failure Hline.
    + assert (S : includeStack st1 = includeStack st).
      { apply (siblings_see_same_stack fuel dirPath [line] st (outs := [out])).
        simpl. unfold bind. now rewrite E. }
      unfold bind at 1.
      specialize (IHl st1). rewrite S in IHl. specialize (IHl Hcov).
      destruct (mapM _ lines st1) as [[f|outs] st2];
        [same_failure IHl | discriminate].
Qed.

(** Nested includes never go deeper than there are readable paths off
    the stack: with that much fuel the expansion ends, with a value or
    with a failure of its own. *)
Theorem expansion_depth_bounded : forall fuel diagramText dirPath st,
  covered fuel (includeStack st) ->
  fst (preprocess fuel diagramText dirPath st) <> inl OutOfFuel.
Proof.
  induction fuel as [|fuel IH]; intros diagramText dirPath st Hcov;
    rewrite preprocess_unfold; unfold bind at 1.
  - pose proof (@lines_not_fuel 0 dirPath ltac:(discriminate)
                  (split LF (strip_comments diagramText)) st Hcov) as H.
    destruct (mapM _ _ st) as [[f|outs] st1]; [same_failure H | discriminate].
  - assert (IH' : forall fuel', S fuel = S fuel' -> forall t d st',
               covered fuel' (includeStack st') ->
               fst (preprocess fuel' t d st') <> inl OutOfFuel).
    { intros fuel' [= <-]. exact IH. }
    pose proof (@lines_not_fuel (S fuel) dirPath IH'
                  (split LF (strip_comments diagramText)) st Hcov) as H.
    destruct (mapM _ _ st) as [[f|outs] st1]; [same_failure H | discriminate].
Qed.

End Depth.

(** *** Comment lines *)

(** C10. The lines that are scanned for directives are those of the
    text left by the two comment passes, the single-line pass last.
    That pass deletes every line with two apostrophes or more that a
    newline (LF, or CR LF) follows, whatever stands around the
    apostrophes, together with the newline; what precedes and what
    follows the line is treated as if each stood alone.  A line here
    is a run of code units without line terminator that starts at the
    start of the text or after a line terminator.  What follows the
    last LF of the text is kept as it is. *)
Theorem comment_lines_deleted_before_scan :
  (forall fuel diagramText dirPath,
     preprocess fuel diagramText dirPath
     = (diagramProcessed <-
          mapM (replaceLine (nestedCall fuel) dirPath)
            (split LF (strip_line_comments (strip_block_comments diagramText))) ;;
        ret (join LF diagramProcessed))) /\
  (forall pre line nl post,
     LineCommentFacts.line_start pre ->
     forallb LineCommentFacts.not_terminator line = true ->
     2 <= LineCommentFacts.apostrophes line ->
     nl = [LF] \/ nl = [CR; LF] ->
     strip_line_comments (pre ++ line ++ nl ++ post)
     = strip_line_comments pre ++ strip_line_comments post) /\
  (forall pre last,
     LineCommentFacts.line_start pre ->
     ~ In LF last ->
     strip_line_comments (pre ++ last) = strip_line_comments pre ++ last).
Proof.
  split; [|split].
  - apply preprocess_unfold.
  - apply LineCommentFacts.comment_line_deleted.
  - apply LineCommentFacts.last_line_kept.
Qed.

(** *** The fuel of the model *)

Lemma mapM_same_result {A B} (f g : A -> M B) :
  (forall a st, fst (f a st) <> inl OutOfFuel -> g a st = f a st) ->
  forall l st, fst (mapM f l st) <> inl OutOfFuel -> mapM g l st = mapM f l st.
Proof.
  intros H. induction l as [|a l IH]; intros st Hl; [reflexivity|].
  cbn [mapM] in *. unfold bind in *.
  destruct (f a st) as [[e|b] st1] eqn:E.
  - rewrite (H a st), E; [reflexivity|]. rewrite E. simpl in *.
    intros [= ->]. now apply Hl.
  - rewrite (H a st), E; [|rewrite E; discriminate].
    destruct (mapM f l st1) as [[e|bs] st2] eqn:E2.
    + rewrite IH, E2; [reflexivity|]. rewrite E2. simpl in *.
      intros [= ->]. now apply Hl.
    + rewrite IH, E2; [reflexivity|]. rewrite E2. discriminate.
Qed.

Lemma line_same_result recur recur' dirPath line st :
  (forall t d s, fst (recur t d s) <> inl OutOfFuel -> recur' t d s = recur t d s) ->
  fst (replaceLine recur dirPath line st) <> inl OutOfFuel ->
  replaceLine recur' dirPath line st = replaceLine recur dirPath line st.
Proof.
  intros H. unfold replace_line.
  destruct (first_match regExInclude line) as [m|]; [|reflexivity].
  unfold expand_directive. destruct (directive_of m) as [d|]; [|reflexivity].
  unfold include_file, bind, lift, push_stack, pop_stack, ret.
  destruct (readInclude (url d) dirPath st) as [[e|res] st1]; [reflexivity|].
  destruct (skip res); [reflexivity|].
  destruct ((if str_eqb (include d) include_once_kw
             then checkIncludeOnce (text res) (filePath res)
             else fun st => (inr tt, st)) st1)
    as [[e|[]] st2]; [reflexivity|].
  destruct (select (include d) (sub d) (text res)) as [e|selected]; [reflexivity|].
  intros Hl.
  destruct (recur selected (path_dirname (filePath res))
              (State (includeOnce st2) (includeStack st2 ++ [filePath res])
                 (warnings st2))) as [[e|expanded] st3] eqn:E.
  - rewrite H, E; [reflexivity|]. rewrite E. simpl in *.
    intros [= ->]. now apply Hl.
  - rewrite H, E; [reflexivity|]. rewrite E. discriminate.
Qed.

(** One more unit of fuel changes nothing for a call that did not run
    out of it. *)
Lemma one_more_fuel : forall fuel diagramText dirPath st,
  fst (preprocess fuel diagramText dirPath st) <> inl OutOfFuel ->
  preprocess (S fuel) diagramText dirPath st = preprocess fuel diagramText dirPath st.
Proof.
  induction fuel as [|fuel IH]; intros diagramText dirPath st Hends;
    rewrite !preprocess_unfold in *; unfold bind in *.
  - rewrite (@mapM_same_result _ _ (replaceLine (nestedCall 0) dirPath)
               (replaceLine (nestedCall 1) dirPath)); [reflexivity | |].
    + intros line s. apply line_same_result. intros t d s' Hn. now elim Hn.
    + destruct (mapM _ _ st) as [[e|outs] st1]; [|discriminate].
      simpl in *. intros [= ->]. now apply Hends.
  - rewrite (@mapM_same_result _ _ (replaceLine (nestedCall (S fuel)) dirPath)
               (replaceLine (nestedCall (S (S fuel))) dirPath)); [reflexivity | |].
    + intros line s. apply line_same_result. intros t d s'. apply IH.
    + destruct (mapM _ _ st) as [[e|outs] st1]; [|discriminate].
      simpl in *. intros [= ->]. now apply Hends.
Qed.

Lemma more_fuel : forall more fuel diagramText dirPath st,
  fst (preprocess fuel diagramText dirPath st) <> inl OutOfFuel ->
  preprocess (more + fuel) diagramText dirPath st
  = preprocess fuel diagramText dirPath st.
Proof.
  induction more as [|more IH]; intros fuel diagramText dirPath st H; [reflexivity|].
  cbn [Nat.add]. rewrite one_more_fuel; rewrite IH by exact H; [reflexivity | exact H].
Qed.

(** *** The two arrays *)

(** Neither array holds a path twice. *)
Definition distinct (st : state) : Prop :=
  NoDup (includeOnce st) /\ NoDup (includeStack st).

Lemma NoDup_snoc {A} (l : list A) a : NoDup l -> ~ In a l -> NoDup (l ++ [a]).
Proof.
  intros Hl Ha. induction Hl as [|b l Hb Hl IH]; simpl.
  - constructor; [intros [] | constructor].
  - constructor.
    + rewrite in_app_iff. intros [H | [H | []]]; [now apply Hb|].
      subst. apply Ha. now left.
    + apply IH. intros H. apply Ha. now right.
Qed.

Lemma NoDup_removelast {A} (l : list A) : NoDup l -> NoDup (removelast l).
Proof.
  intros Hl. induction Hl as [|b l Hb Hl IH]; [constructor|].
  cbn [removelast]. destruct l as [|c l]; [constructor|].
  constructor; [|exact IH].
  intros H. apply Hb. revert H. generalize (c :: l). clear.
  induction l as [|x l IH]; simpl; [intros []|].
  destruct l as [|y l]; [intros []|]. simpl. intros [H | H]; [now left|].
  right. now apply IH.
Qed.

Lemma distinct_read url dirPath st :
  distinct st -> distinct (snd (readInclude url dirPath st)).
Proof.
  intros D. unfold readPlantUmlInclude.
  destruct (startsWith (js "<") url); [exact D|].
  destruct (includes (includeStack st) url); [exact D|].
  destruct (remote url).
  { destruct (vfs_read url); exact D. }
  cbv zeta. destruct (includes (includeStack st) _); [exact D|].
  destruct (vfs_read _); exact D.
Qed.

Lemma distinct_line recur dirPath line :
  (forall t d s, distinct s -> distinct (snd (recur t d s))) ->
  forall st, distinct st -> distinct (snd (replaceLine recur dirPath line st)).
Proof.
  intros Hrec st D. unfold replace_line.
  destruct (first_match regExInclude line) as [m|]; [|exact D].
  unfold expand_directive. destruct (directive_of m) as [d|]; [|exact D].
  unfold include_file, bind, lift, push_stack, pop_stack, ret.
  pose proof (distinct_read (url d) dirPath D) as D1.
  destruct (readInclude (url d) dirPath st) as [[e|res] st1] eqn:R; [exact D1|].
  destruct (skip res) eqn:Hskip; [exact D1|].
  destruct (@read_ok _ _ _ _ _ R Hskip) as (-> & Hnew & _). clear D1.
  assert (Honce : forall st2 r,
    (if str_eqb (include d) include_once_kw
     then checkIncludeOnce (text res) (filePath res)
     else fun st => (inr tt, st)) st = (r, st2) ->
    distinct st2 /\ includeStack st2 = includeStack st).
  { intros st2 r. destruct (str_eqb (include d) include_once_kw).
    - unfold checkIncludeOnce.
      destruct (includes (includeOnce st) (filePath res)) eqn:I.
      + intros [= _ <-]. auto.
      + intros [= _ <-]. split; [|reflexivity]. destruct D as [D1 D2].
        split; [|exact D2]. cbn [includeOnce].
        apply NoDup_snoc; [exact D1 | now apply includes_not_In].
    - intros [= _ <-]. auto. }
  destruct ((if str_eqb (include d) include_once_kw
             then checkIncludeOnce (text res) (filePath res)
             else fun st => (inr tt, st)) st) as [[e|[]] st2] eqn:O;
    destruct (Honce _ _ eq_refl) as [D2 S2]; [exact D2|].
  destruct (select (include d) (sub d) (text res)) as [e|selected]; [exact D2|].
  assert (D3 : distinct (State (includeOnce st2) (includeStack st2 ++ [filePath res])
                           (warnings st2))).
  { destruct D2 as [A B]. split; [exact A|]. cbn [includeStack].
    apply NoDup_snoc; [exact B | now rewrite S2]. }
  pose proof (Hrec selected (path_dirname (filePath res)) _ D3) as D4.
  destruct (recur selected (path_dirname (filePath res)) _) as [[e|expanded] st3];
    [exact D4|].
  destruct D4 as [A B]. split; [exact A|]. cbn [snd includeStack].
  now apply NoDup_removelast.
Qed.

Lemma distinct_lines recur dirPath :
  (forall t d s, distinct s -> distinct (snd (recur t d s))) ->
  forall lines st, distinct st ->
    distinct (snd (mapM (replaceLine recur dirPath) lines st)).
Proof.
  intros Hrec. induction lines as [|line lines IH]; intros st D; [exact D|].
  cbn [mapM]. unfold bind, ret.
  pose proof (@distinct_line recur dirPath line Hrec st D) as D1.
  destruct (replaceLine recur dirPath line st) as [[e|out] st1]; [exact D1|].
  specialize (IH st1 D1).
  destruct (mapM (replaceLine recur dirPath) lines st1) as [[e|outs] st2]; exact IH.
Qed.

(** X2. The Inclusion Stack and the Include-Once Set never hold a path
    twice: when neither does at the start of a call, neither does when
    the call ends, whether it returns or fails. *)
Theorem arrays_hold_no_path_twice : forall fuel diagramText dirPath st,
  distinct st -> distinct (snd (preprocess fuel diagramText dirPath st)).
Proof.
  induction fuel as [|fuel IH]; intros diagramText dirPath st D;
    rewrite preprocess_unfold; unfold bind, ret.
  - assert (H := @distinct_lines (nestedCall 0) dirPath
                   ltac:(intros t d s Ds; exact Ds)
                   (split LF (strip_comments diagramText)) st D).
    destruct (mapM _ _ st) as [[e|outs] st1]; exact H.
  - assert (H := @distinct_lines (nestedCall (S fuel)) dirPath
                   ltac:(intros t d s Ds; now apply IH)
                   (split LF (strip_comments diagramText)) st D).
    destruct (mapM _ _ st) as [[e|outs] st1]; exact H.
Qed.

(** X3. Within a call no entry of the Include-Once Set and no warning is
    removed or moved: at the end of the call, whether it returns or
    fails, both hold what they held at its start, followed by what the
    call added. *)
Theorem once_set_and_warnings_only_grow fuel diagramText dirPath st :
  let final :=
    snd (preprocessPlantUmlIncludes vfs_exists vfs_read path_join path_dirname
           URL_protocol fuel diagramText dirPath st) in
  (exists added, includeOnce final = includeOnce st ++ added) /\
  (exists logged, warnings final = warnings st ++ logged).
Proof.
  destruct (disciplined_preprocess fuel diagramText dirPath st) as (O & W & _).
  split; assumption.
Qed.

(** *** Lines without directive *)

Lemma line_without_directive recur dirPath line st :
  is_directive line = false -> replaceLine recur dirPath line st = (inr line, st).
Proof.
  unfold is_directive, replace_line.
  now destruct (first_match regExInclude line).
Qed.

Lemma mapM_positions {A} (f : A -> M A) : forall l st outs st',
  mapM f l st = (inr outs, st') ->
  length outs = length l /\
  forall i a, nth_error l i = Some a -> (forall s, f a s = (inr a, s)) ->
              nth_error outs i = Some a.
Proof.
  induction l as [|a l IH]; intros st outs st' H.
  - injection H as <- <-. split; [reflexivity|]. intros [|i] b Hb; discriminate.
  - apply mapM_cons_inv in H. destruct H as (b & bs & st1 & Ha & Hl & ->).
    destruct (IH _ _ _ Hl) as [L P]. split; [simpl; now rewrite L|].
    intros [|i] c Hc Hf; simpl in *.
    + injection Hc as ->. rewrite Hf in Ha. now injection Ha as <- _.
    + now apply P.
Qed.

(** X6. The lines of the result stand where the lines of the document
    stood: a call that returns gives one text per line of the document
    (after the comment passes), joined by newlines, and a line that
    holds no directive is given back as it is, at its place. *)
Theorem lines_without_directive_stay_in_place fuel diagramText dirPath st out st' :
  preprocess fuel diagramText dirPath st = (inr out, st') ->
  exists outs,
    out = join LF outs /\
    length outs = length (split LF (strip_comments diagramText)) /\
    forall i line,
      nth_error (split LF (strip_comments diagramText)) i = Some line ->
      is_directive line = false ->
      nth_error outs i = Some line.
Proof.
  rewrite preprocess_unfold. unfold bind, ret.
  destruct (mapM _ _ st) as [[e|outs] st1] eqn:E; [discriminate|].
  intros [= <- <-]. exists outs. split; [reflexivity|].
  destruct (mapM_positions _ _ _ E) as [L P]. split; [exact L|].
  intros i line Hi Hd. apply (P i line Hi).
  intros s. now apply line_without_directive.
Qed.

(** X7. A document without apostrophe in which no line starts, after
    its leading white space, with an exclamation mark is returned as it
    is, code unit for code unit, and the shared state is not touched:
    it holds no comment and no directive. *)
Theorem plain_text_is_returned_as_it_is fuel diagramText dirPath st :
  ~ In LineCommentFacts.apostrophe diagramText ->
  (forall line, In line (split LF diagramText) ->
                startsWith (js "!") (trimStart line) = false) ->
  preprocess fuel diagramText dirPath st = (inr diagramText, st).
Proof.
  intros Hquote Hmark. rewrite preprocess_unfold. unfold strip_comments.
  rewrite (@BlockCommentFacts.no_apostrophe_no_block _ Hquote).
  rewrite (@LineCommentFacts.no_apostrophe_no_line_comment _ Hquote).
  unfold bind. rewrite mapM_unchanged.
  - unfold ret. now rewrite JSFacts.join_split.
  - intros line Hin. apply line_without_directive.
    apply DirectiveFacts.no_mark_no_directive. now apply Hmark.
Qed.

(** *** Directives that are left alone *)

Lemma read_library url dirPath st :
  startsWith (js "<") url = true ->
  readInclude url dirPath st
  = (inr (IncludeResult true [] url),
     State (includeOnce st) (includeStack st) (warnings st ++ [SkipStdlib url])).
Proof. intros H. unfold readPlantUmlInclude. now rewrite H. Qed.

(** X8. A reference that starts with a less-than sign names the standard
    library and is never read: on a line without line terminator the
    directive is given back as it is, whatever the file system holds and
    whatever is on the inclusion stack, and one warning is logged. *)
Theorem library_reference_is_left_alone recur dirPath line m d st :
  forallb LineCommentFacts.not_terminator line = true ->
  first_match regExInclude line = Some m ->
  directive_of m = Some d ->
  startsWith (js "<") (url d) = true ->
  replaceLine recur dirPath line st
  = (inr line,
     State (includeOnce st) (includeStack st)
       (warnings st ++ [SkipStdlib (url d)])).
Proof.
  intros Hline Hm Hd Hlib.
  eapply skipped_line_kept;
    [exact Hline | exact Hm | exact Hd | now apply read_library | reflexivity].
Qed.

(** X9. A remote reference that cannot be read is no error: on a line
    without line terminator the directive is given back as it is, one
    warning with the cause is logged, and both arrays stay as they
    were. *)
Theorem unreadable_remote_reference_is_left_alone recur dirPath line m d st e :
  forallb LineCommentFacts.not_terminator line = true ->
  first_match regExInclude line = Some m ->
  directive_of m = Some d ->
  startsWith (js "<") (url d) = false ->
  ~ In (url d) (includeStack st) ->
  remote (url d) = true ->
  vfs_read (url d) = inl e ->
  replaceLine recur dirPath line st
  = (inr line,
     State (includeOnce st) (includeStack st)
       (warnings st ++ [SkipRemote (url d) e])).
Proof.
  intros Hline Hm Hd Hlib Hraw Hrem Hread.
  eapply skipped_line_kept;
    [exact Hline | exact Hm | exact Hd
    | now apply remote_read_failure_is_soft | reflexivity].
Qed.

(** X10. A local reference that cannot be read ends the call on its
    document with a ReadError that names the resolved path and carries
    the cause: the lines before it were expanded, the lines after it
    are not visited and no text is returned. *)
Theorem unreadable_local_reference_is_an_error
    fuel diagramText dirPath st pre line post outs st1 m d e :
  split LF (strip_comments diagramText) = pre ++ line :: post ->
  mapM (replaceLine (nestedCall fuel) dirPath) pre st = (inr outs, st1) ->
  first_match regExInclude line = Some m ->
  directive_of m = Some d ->
  startsWith (js "<") (url d) = false ->
  ~ In (url d) (includeStack st) ->
  remote (url d) = false ->
  ~ In (resolve dirPath (url d)) (includeStack st) ->
  vfs_read (resolve dirPath (url d)) = inl e ->
  preprocess fuel diagramText dirPath st
  = (inl (Thrown (ReadError (resolve dirPath (url d)) e)), st1).
Proof.
  intros Hsplit Hpre Hm Hd Hlib Hraw Hrem Hres Hread.
  pose proof (siblings_see_same_stack _ _ _ _ Hpre) as Hstack.
  eapply line_failure_aborts; try eassumption.
  eapply line_read_failure; try eassumption.
  apply local_read_failure_is_hard; try assumption; now rewrite Hstack.
Qed.

(** *** Directives that are expanded *)

(** X11. A directive takes the place of its whole line: on a line
    without line terminator, once the reference is read, the one-shot
    guard passed and the blocks selected, the line becomes what the
    nested call returns for the selected text, and nothing of the line
    is kept, not even the text after the reference.  The nested call
    runs in the directory of the file, with the path of the file on the
    inclusion stack, and the path is taken off when it returns. *)
Theorem directive_line_becomes_its_expansion
    recur dirPath line m d res st st1 selected expanded st2 :
  forallb LineCommentFacts.not_terminator line = true ->
  first_match regExInclude line = Some m ->
  directive_of m = Some d ->
  readInclude (url d) dirPath st = (inr res, st) ->
  skip res = false ->
  (if str_eqb (include d) include_once_kw
   then checkIncludeOnce (text res) (filePath res)
   else ret tt) st = (inr tt, st1) ->
  select (include d) (sub d) (text res) = inr selected ->
  recur selected (path_dirname (filePath res))
    (State (includeOnce st1) (includeStack st1 ++ [filePath res]) (warnings st1))
  = (inr expanded, st2) ->
  replaceLine recur dirPath line st
  = (inr expanded,
     State (includeOnce st2) (removelast (includeStack st2)) (warnings st2)).
Proof.
  intros Hline Hm Hd Hr Hs Ho Hsel Hrec.
  destruct (DirectiveFacts.directive_whole_line _ Hline Hm) as (P & _ & S).
  unfold replace_line, expand_directive, include_file.
  rewrite Hm, Hd. unfold bind, lift, push_stack, pop_stack, ret in *.
  rewrite Hr, Hs, Ho, Hsel, Hrec, P, S. now rewrite app_nil_r.
Qed.

(** *** Calls in progress

    A frame is a call of the engine on the lines of a document: the
    depth left for nested includes, the lines, the directory their
    references are resolved in and the state the call starts from. *)
Record frame := Frame {
  f_fuel : nat;
  f_lines : list jsstring;
  f_dir : jsstring;
  f_state : state
}.

Definition expand_lines (f : frame) : (failure + list jsstring) * state :=
  mapM (replaceLine (nestedCall (f_fuel f)) (f_dir f)) (f_lines f) (f_state f).

(** The call on a document. *)
Definition document (fuel : nat) (diagramText dirPath : jsstring) (st : state)
  : frame :=
  Frame fuel (split LF (strip_comments diagramText)) dirPath st.

Lemma preprocess_document fuel diagramText dirPath st :
  preprocess fuel diagramText dirPath st
  = match expand_lines (document fuel diagramText dirPath st) with
    | (inr outs, st') => (inr (join LF outs), st')
    | (inl e, st') => (inl e, st')
    end.
Proof. rewrite preprocess_unfold. reflexivity. Qed.

Lemma document_fails fuel diagramText dirPath st e st' :
  expand_lines (document fuel diagramText dirPath st) = (inl e, st') <->
  preprocess fuel diagramText dirPath st = (inl e, st').
Proof.
  rewrite preprocess_document.
  destruct (expand_lines _) as [[e0|outs] st0]; split; congruence.
Qed.

(** The one-shot guard of the callback, and the state with a path
    pushed on the inclusion stack. *)
Definition guard (d : directive) (res : include_result) : M unit :=
  if str_eqb (include d) include_once_kw
  then checkIncludeOnce (text res) (filePath res)
  else ret tt.

Definition pushed (st : state) (p : jsstring) : state :=
  State (includeOnce st) (includeStack st ++ [p]) (warnings st).

Definition popped (st : state) : state :=
  State (includeOnce st) (removelast (includeStack st)) (warnings st).

(** The guard passes or fails with a DuplicateIncludeError; only a
    directive of the include_once kind consults the set and adds to
    it. *)
Lemma guard_cases d res st r st' :
  guard d res st = (r, st') ->
  (r = inr tt /\ str_eqb (include d) include_once_kw = false /\ st' = st) \/
  (r = inr tt /\ include d = include_once_kw /\
   ~ In (filePath res) (includeOnce st) /\
   st' = State (includeOnce st ++ [filePath res]) (includeStack st) (warnings st)) \/
  (r = inl (Thrown (DuplicateIncludeError (filePath res))) /\
   include d = include_once_kw /\ In (filePath res) (includeOnce st) /\ st' = st).
Proof.
  unfold guard. destruct (str_eqb (include d) include_once_kw) eqn:K.
  - apply str_eqb_eq in K. unfold checkIncludeOnce.
    destruct (includes (includeOnce st) (filePath res)) eqn:I.
    + intros [= <- <-]. right. right. apply includes_In in I. auto.
    + intros [= <- <-]. right. left. apply includes_not_In in I. auto.
  - intros [= <- <-]. left. auto.
Qed.

Lemma guard_stack d res st r st' :
  guard d res st = (r, st') ->
  includeStack st' = includeStack st /\ warnings st' = warnings st.
Proof.
  intros H. apply guard_cases in H.
  destruct H as [(_ & _ & ->) | [(_ & _ & _ & ->) | (_ & _ & _ & ->)]]; auto.
Qed.

(** A read fails with a CycleError or a ReadError and leaves the state
    as it was. *)
Lemma read_failure_kind url dirPath st e st' :
  readInclude url dirPath st = (inl e, st') ->
  st' = st /\
  ((exists p, e = Thrown (CycleError p)) \/
   (exists p cause, e = Thrown (ReadError p cause))).
Proof.
  unfold readPlantUmlInclude.
  destruct (startsWith (js "<") url); [discriminate|].
  destruct (includes (includeStack st) url).
  { intros [= <- <-]. eauto. }
  destruct (remote url).
  { destruct (vfs_read url); discriminate. }
  cbv zeta. destruct (includes (includeStack st) _).
  { intros [= <- <-]. eauto. }
  destruct (vfs_read _); [|discriminate].
  intros [= <- <-]. eauto.
Qed.


(** The selection of blocks fails only inside the pattern of a
    selector: the pattern is rejected, or the loop over its matches
    does not end. *)
Lemma select_failure_kind include sub content f :
  select include sub content = inl f ->
  f = NeverReturns \/ exists source, f = SyntaxError source.
Proof.
  assert (P : forall src t,
            with_pattern src (getPlantUmlTextRegEx t) = inl f ->
            f = NeverReturns \/ exists source, f = SyntaxError source).
  { intros src t. unfold with_pattern. destruct (parse src) as [r|].
    - destruct (ExtractFacts.getPlantUmlTextRegEx_outcome t r) as [-> | [x ->]];
        [intros [= <-]; auto | discriminate].
    - intros [= <-]. eauto. }
  unfold select. destruct sub as [[|c s]|]; try discriminate.
  destruct (str_eqb include includesub_kw); [apply P|].
  destruct (parseInt (c :: s)); [discriminate | apply P].
Qed.

(** How the callback runs on a line: every way it can end. *)
Inductive line_run (recur : jsstring -> jsstring -> M jsstring)
    (dirPath line : jsstring) (st : state) : failure + jsstring -> state -> Prop :=
| line_plain :
    first_match regExInclude line = None ->
    line_run recur dirPath line st (inr line) st
| line_unread m :
    first_match regExInclude line = Some m -> directive_of m = None ->
    line_run recur dirPath line st (inl TypeError) st
| line_read_fails m d e :
    first_match regExInclude line = Some m -> directive_of m = Some d ->
    readInclude (url d) dirPath st = (inl e, st) ->
    line_run recur dirPath line st (inl e) st
| line_skipped m d res st' :
    first_match regExInclude line = Some m -> directive_of m = Some d ->
    readInclude (url d) dirPath st = (inr res, st') -> skip res = true ->
    line_run recur dirPath line st (inr (prefix m ++ line ++ suffix m)) st'
| line_guard_fails m d res :
    first_match regExInclude line = Some m -> directive_of m = Some d ->
    readInclude (url d) dirPath st = (inr res, st) -> skip res = false ->
    guard d res st = (inl (Thrown (DuplicateIncludeError (filePath res))), st) ->
    line_run recur dirPath line st
      (inl (Thrown (DuplicateIncludeError (filePath res)))) st
| line_select_fails m d res st2 f :
    first_match regExInclude line = Some m -> directive_of m = Some d ->
    readInclude (url d) dirPath st = (inr res, st) -> skip res = false ->
    guard d res st = (inr tt, st2) ->
    select (include d) (sub d) (text res) = inl f ->
    line_run recur dirPath line st (inl f) st2
| line_nested_fails m d res st2 selected f st3 :
    first_match regExInclude line = Some m -> directive_of m = Some d ->
    readInclude (url d) dirPath st = (inr res, st) -> skip res = false ->
    guard d res st = (inr tt, st2) ->
    select (include d) (sub d) (text res) = inr selected ->
    recur selected (path_dirname (filePath res)) (pushed st2 (filePath res))
    = (inl f, st3) ->
    line_run recur dirPath line st (inl f) st3
| line_expanded m d res st2 selected expanded st3 :
    first_match regExInclude line = Some m -> directive_of m = Some d ->
    readInclude (url d) dirPath st = (inr res, st) -> skip res = false ->
    guard d res st = (inr tt, st2) ->
    select (include d) (sub d) (text res) = inr selected ->
    recur selected (path_dirname (filePath res)) (pushed st2 (filePath res))
    = (inr expanded, st3) ->
    line_run recur dirPath line st
      (inr (prefix m ++ expanded ++ suffix m)) (popped st3).

(** The relation says what the callback does, no more and no less. *)
Lemma line_run_spec recur dirPath line st r st' :
  replaceLine recur dirPath line st = (r, st') <->
  line_run recur dirPath line st r st'.
Proof.
  split.
  - unfold replace_line.
    destruct (first_match regExInclude line) as [m|] eqn:Hm.
    2:{ intros [= <- <-]. now constructor. }
    unfold expand_directive. destruct (directive_of m) as [d|] eqn:Hd.
    2:{ intros [= <- <-]. eapply line_unread; eassumption. }
    unfold include_file.
    unfold bind at 1. unfold bind at 1.
    destruct (readInclude (url d) dirPath st) as [[e|res] st1] eqn:Hr.
    { intros [= <- <-].
      destruct (read_failure_kind _ _ _ Hr) as [-> _].
      eapply line_read_fails; eassumption. }
    cbv beta iota.
    destruct (skip res) eqn:Hs.
    { intros [= <- <-]. eapply line_skipped; eassumption. }
    destruct (read_ok _ _ _ Hr Hs) as (-> & _).
    change (if str_eqb (include d) include_once_kw
            then checkIncludeOnce (text res) (filePath res) else ret tt)
      with (guard d res).
    unfold bind at 1.
    destruct (guard d res st) as [[e|[]] st2] eqn:Hg.
    { intros [= <- <-].
      destruct (guard_cases _ _ _ Hg)
        as [(E & _) | [(E & _) | ([= ->] & _ & _ & ->)]]; try discriminate E.
      eapply line_guard_fails; eassumption. }
    cbv beta iota. unfold bind at 1. unfold lift.
    destruct (select (include d) (sub d) (text res)) as [f|selected] eqn:Hsel.
    { intros [= <- <-]. eapply line_select_fails; eassumption. }
    cbv beta iota. unfold bind at 1. unfold push_stack at 1. cbv beta iota.
    unfold bind at 1. fold (pushed st2 (filePath res)).
    destruct (recur selected (path_dirname (filePath res)) (pushed st2 (filePath res)))
      as [[f|expanded] st3] eqn:Hrec.
    { intros [= <- <-]. eapply line_nested_fails; eassumption. }
    unfold bind, pop_stack, ret. fold (popped st3).
    intros [= <- <-]. eapply line_expanded; eassumption.
  - intros H. unfold replace_line, expand_directive, include_file.
    destruct H as [Hm | m Hm Hd | m d e Hm Hd Hr | m d res st1 Hm Hd Hr Hs
                  | m d res Hm Hd Hr Hs Hg | m d res st2 f Hm Hd Hr Hs Hg Hsel
                  | m d res st2 selected f st3 Hm Hd Hr Hs Hg Hsel Hrec
                  | m d res st2 selected expanded st3 Hm Hd Hr Hs Hg Hsel Hrec];
      rewrite Hm; try reflexivity; rewrite Hd; try reflexivity;
      unfold bind at 1; unfold bind at 1; rewrite Hr; try reflexivity;
      cbv beta iota; rewrite Hs; try reflexivity;
      change (if str_eqb (include d) include_once_kw
              then checkIncludeOnce (text res) (filePath res) else ret tt)
        with (guard d res);
      unfold bind at 1; rewrite Hg; try reflexivity;
      cbv beta iota; unfold bind at 1; unfold lift; rewrite Hsel; try reflexivity;
      cbv beta iota; unfold bind at 1; unfold push_stack at 1; cbv beta iota;
      unfold bind at 1; fold (pushed st2 (filePath res)); rewrite Hrec;
      reflexivity.
Qed.

(** The directive [d] of a frame is reached: the lines before its line
    expand, and leave the state [st1]. *)
Inductive reaches (f : frame) (d : directive) (st1 : state) : Prop :=
| Reaches pre line post outs m :
    f_lines f = pre ++ line :: post ->
    mapM (replaceLine (nestedCall (f_fuel f)) (f_dir f)) pre (f_state f)
    = (inr outs, st1) ->
    first_match regExInclude line = Some m ->
    directive_of m = Some d ->
    reaches f d st1.

(** The frame [f] calls the frame [f'] for the file [p]: a directive of
    [f] is reached, its reference is read as the file [p], the one-shot
    guard passes and blocks are selected; [f'] is the call on the
    selected text, in the directory of the file, with the path of the
    file pushed on the inclusion stack. *)
Inductive calls (f : frame) (p : jsstring) (f' : frame) : Prop :=
| Calls d st1 res st2 selected fuel' :
    reaches f d st1 ->
    readInclude (url d) (f_dir f) st1 = (inr res, st1) ->
    skip res = false ->
    guard d res st1 = (inr tt, st2) ->
    select (include d) (sub d) (text res) = inr selected ->
    f_fuel f = S fuel' ->
    p = filePath res ->
    f' = document fuel' selected (path_dirname p) (pushed st2 p) ->
    calls f p f'.

(** The includes that are open one inside the other between a frame and
    a frame below it, outermost first. *)
Inductive chain : frame -> list jsstring -> frame -> Prop :=
| chain_here f : chain f [] f
| chain_step f p f1 paths f' :
    calls f p f1 -> chain f1 paths f' -> chain f (p :: paths) f'.

Lemma reaches_stack f d st1 :
  reaches f d st1 -> includeStack st1 = includeStack (f_state f).
Proof. intros [pre line post outs m _ Hpre _ _]. eapply siblings_see_same_stack, Hpre. Qed.

(** The inclusion stack of a frame that is called is the stack of the
    caller with the path of the file at its end. *)
Lemma calls_stack f p f' :
  calls f p f' -> includeStack (f_state f') = includeStack (f_state f) ++ [p].
Proof.
  intros [d st1 res st2 selected fuel' Hr _ _ Hg _ _ -> ->].
  cbn [document f_state pushed includeStack].
  destruct (guard_stack _ _ _ Hg) as [-> _]. now rewrite (reaches_stack Hr).
Qed.

Lemma calls_fuel f p f' : calls f p f' -> f_fuel f = S (f_fuel f').
Proof. intros [d st1 res st2 selected fuel' _ _ _ _ _ E _ ->]. exact E. Qed.

(** Below a chain of includes the inclusion stack holds, after what it
    held at the start, the paths of the chain. *)
Lemma chain_stack f paths f' :
  chain f paths f' ->
  includeStack (f_state f') = includeStack (f_state f) ++ paths.
Proof.
  induction 1 as [f | f p f1 paths f' Hc _ IH].
  - now rewrite app_nil_r.
  - rewrite IH, (calls_stack Hc), <- app_assoc. reflexivity.
Qed.

Lemma chain_fuel f paths f' :
  chain f paths f' -> f_fuel f = length paths + f_fuel f'.
Proof.
  induction 1 as [f | f p f1 paths f' Hc _ IH]; [reflexivity|].
  rewrite (calls_fuel Hc), IH. reflexivity.
Qed.

(** A line that fails after the lines before it expanded ends the call
    of its frame. *)
Lemma reached_line_fails f pre line post outs st1 e st2 :
  f_lines f = pre ++ line :: post ->
  mapM (replaceLine (nestedCall (f_fuel f)) (f_dir f)) pre (f_state f)
  = (inr outs, st1) ->
  replaceLine (nestedCall (f_fuel f)) (f_dir f) line st1 = (inl e, st2) ->
  expand_lines f = (inl e, st2).
Proof.
  intros Hl Hpre Hline. unfold expand_lines. rewrite Hl.
  eapply mapM_app_fail; eassumption.
Qed.

(** A call that fails ends its caller, and so every call above it, with
    the same failure and the same state: nothing runs after it. *)
Lemma calls_fails f p f' e st' :
  calls f p f' -> expand_lines f' = (inl e, st') -> expand_lines f = (inl e, st').
Proof.
  intros [d st1 res st2 selected fuel' [pre line post outs m Hl Hpre Hm Hd]
            Hr Hs Hg Hsel Hfuel -> ->] Hfail.
  eapply reached_line_fails; [exact Hl | exact Hpre|].
  apply line_run_spec. eapply line_nested_fails; try eassumption.
  rewrite Hfuel. cbn [nested]. now apply document_fails.
Qed.

Lemma chain_fails f paths f' e st' :
  chain f paths f' -> expand_lines f' = (inl e, st') -> expand_lines f = (inl e, st').
Proof.
  induction 1 as [f | f p f1 paths f' Hc _ IH]; intros H; [exact H|].
  eapply calls_fails; [exact Hc | now apply IH].
Qed.

(** A reference that is on the inclusion stack when its directive is
    reached, by its raw text or, for a local reference, by its resolved
    path, ends the call of the frame with a CycleError. *)
Lemma cycle_at_directive f d st1 :
  reaches f d st1 ->
  startsWith (js "<") (url d) = false ->
  In (url d) (includeStack st1) \/
    (remote (url d) = false /\ In (resolve (f_dir f) (url d)) (includeStack st1)) ->
  expand_lines f
  = (inl (Thrown (CycleError (cycle_path (f_dir f) (url d) st1))), st1).
Proof.
  intros [pre line post outs m Hl Hpre Hm Hd] Hlib Hon.
  eapply reached_line_fails; [exact Hl | exact Hpre|].
  eapply line_read_failure; [exact Hm | exact Hd|].
  now apply read_cycle.
Qed.


(** *** Where a failure comes from *)

Lemma mapM_fail_inv {A B} (f : A -> M B) : forall l st e st',
  mapM f l st = (inl e, st') ->
  exists pre a post outs st1,
    l = pre ++ a :: post /\
    mapM f pre st = (inr outs, st1) /\
    f a st1 = (inl e, st').
Proof.
  induction l as [|a l IH]; intros st e st' H; [discriminate|].
  cbn [mapM] in H. unfold bind at 1 in H.
  destruct (f a st) as [[e0|b] s1] eqn:Ea.
  - injection H as <- <-. exists [], a, l, [], st. auto.
  - unfold bind at 1 in H.
    destruct (mapM f l s1) as [[e1|bs] s2] eqn:El; [|discriminate].
    injection H as <- <-.
    destruct (IH _ _ _ El) as (pre & a' & post & outs & st1 & -> & Hpre & Ha).
    exists (a :: pre), a', post, (b :: outs), st1.
    split; [reflexivity|]. split; [|exact Ha].
    cbn [mapM]. unfold bind. now rewrite Ea, Hpre.
Qed.

(** The failure [e] is raised by a line of the frame itself, which
    leaves the state [st']: the reference of a directive is not read,
    the one-shot guard rejects its file, the selection of blocks fails,
    or no depth is left for the nested call. *)
Inductive raises (f : frame) : failure -> state -> Prop :=
| raises_read d st1 e :
    reaches f d st1 ->
    readInclude (url d) (f_dir f) st1 = (inl e, st1) ->
    raises f e st1
| raises_guard d st1 res :
    reaches f d st1 ->
    readInclude (url d) (f_dir f) st1 = (inr res, st1) -> skip res = false ->
    guard d res st1 = (inl (Thrown (DuplicateIncludeError (filePath res))), st1) ->
    raises f (Thrown (DuplicateIncludeError (filePath res))) st1
| raises_select d st1 res st2 e :
    reaches f d st1 ->
    readInclude (url d) (f_dir f) st1 = (inr res, st1) -> skip res = false ->
    guard d res st1 = (inr tt, st2) ->
    select (include d) (sub d) (text res) = inl e ->
    raises f e st2
| raises_depth d st1 res st2 selected :
    reaches f d st1 ->
    readInclude (url d) (f_dir f) st1 = (inr res, st1) -> skip res = false ->
    guard d res st1 = (inr tt, st2) ->
    select (include d) (sub d) (text res) = inr selected ->
    f_fuel f = 0 ->
    raises f OutOfFuel (pushed st2 (filePath res)).

(** Every failure of a call is raised by a line of its frame or of a
    frame below it, at the end of a chain of includes. *)
Lemma failure_origin_lines fuel :
  (forall t d s e s',
     nestedCall fuel t d s = (inl e, s') ->
     (fuel = 0 /\ e = OutOfFuel /\ s' = s) \/
     (exists fuel' paths f',
        fuel = S fuel' /\ chain (document fuel' t d s) paths f' /\ raises f' e s')) ->
  forall lines dirPath st e st',
    expand_lines (Frame fuel lines dirPath st) = (inl e, st') ->
    exists paths f',
      chain (Frame fuel lines dirPath st) paths f' /\ raises f' e st'.
Proof.
  intros Hnested lines dirPath st e st' H.
  unfold expand_lines in H; cbn [f_fuel f_lines f_dir f_state] in H.
  apply mapM_fail_inv in H.
  destruct H as (pre & line & post & outs & st1 & -> & Hpre & Hline).
  set (f := Frame fuel (pre ++ line :: post) dirPath st).
  assert (Hreach : forall m d,
            first_match regExInclude line = Some m -> directive_of m = Some d ->
            reaches f d st1).
  { intros m d Hm Hd. econstructor; try eassumption; reflexivity. }
  apply line_run_spec in Hline.
  inversion Hline as [ | m Hm Hd | m d e0 Hm Hd Hr | | m d res Hm Hd Hr Hs Hg
                     | m d res st2 f0 Hm Hd Hr Hs Hg Hsel
                     | m d res st2 selected f0 st3 Hm Hd Hr Hs Hg Hsel Hrec | ];
    subst.
  - destruct (DirectiveFacts.directive_is_read _ Hm) as (d0 & Hd0). congruence.
  - exists [], f. split; [constructor|].
    eapply raises_read; [eapply Hreach; eassumption | exact Hr].
  - exists [], f. split; [constructor|].
    eapply raises_guard; [eapply Hreach; eassumption | exact Hr | exact Hs | exact Hg].
  - exists [], f. split; [constructor|].
    eapply raises_select;
      [eapply Hreach; eassumption | exact Hr | exact Hs | exact Hg | exact Hsel].
  - apply Hnested in Hrec.
    destruct Hrec as [(-> & -> & ->) | (fuel' & paths & f' & -> & Hchain & Hraise)].
    + exists [], f. split; [constructor|].
      eapply raises_depth;
        [eapply Hreach; eassumption | exact Hr | exact Hs | exact Hg | exact Hsel
        | reflexivity].
    + exists (filePath res :: paths), f'. split; [|exact Hraise].
      eapply chain_step; [|exact Hchain].
      eapply Calls with (d := d) (st1 := st1);
        [eapply Hreach; eassumption | exact Hr | exact Hs | exact Hg | exact Hsel
        | reflexivity | reflexivity | reflexivity].
Qed.

Lemma failure_origin : forall fuel lines dirPath st e st',
  expand_lines (Frame fuel lines dirPath st) = (inl e, st') ->
  exists paths f',
    chain (Frame fuel lines dirPath st) paths f' /\ raises f' e st'.
Proof.
  induction fuel as [|fuel IH]; apply failure_origin_lines.
  - intros t d s e s' H. left. cbn [nested] in H. now injection H as <- <-.
  - intros t d s e s' H. right. cbn [nested] in H. apply document_fails in H.
    destruct (IH _ _ _ _ _ H) as (paths & f' & Hchain & Hraise).
    exists fuel, paths, f'. auto.
Qed.

(** What is raised: a thrown error, a failure of the selection of
    blocks, or the end of the depth. *)
Lemma raises_kind f e st' :
  raises f e st' ->
  e = OutOfFuel \/
  (exists err, e = Thrown err) \/
  (exists include sub content,
     select include sub content = inl e /\
     (e = NeverReturns \/ exists source, e = SyntaxError source)).
Proof.
  intros [d st1 e0 _ Hr | d st1 res _ _ _ _ | d st1 res st2 e0 _ _ _ _ Hsel | ].
  - right. left. destruct (read_failure_kind _ _ _ Hr) as [_ [[p ->] | (p & c & ->)]]; eauto.
  - right. left. eauto.
  - right. right. exists (include d), (sub d), (text res).
    split; [exact Hsel | now apply select_failure_kind in Hsel].
  - now left.
Qed.

(** A failure that is raised leaves the inclusion stack of the frame as
    it was, but for the path pushed when the depth ends. *)
Lemma raises_stack f e st' :
  raises f e st' -> e <> OutOfFuel ->
  includeStack st' = includeStack (f_state f).
Proof.
  intros [d st1 e0 Hreach _ | d st1 res Hreach _ _ _
         | d st1 res st2 e0 Hreach _ _ Hg _ | ] Hne.
  - exact (reaches_stack Hreach).
  - exact (reaches_stack Hreach).
  - destruct (guard_stack _ _ _ Hg) as [-> _]. exact (reaches_stack Hreach).
  - congruence.
Qed.

(** *** Cycles and failures below a chain of includes *)

(** C1. A document whose chain of includes leads to a directive that
    refers to a file of the chain, or to a file that was already on the
    inclusion stack, fails with a CycleError, whatever the depth of the
    chain: the failure ends every call of the chain and the call on the
    document, and more fuel changes nothing.  The reference is compared
    with the stack by its raw text first, before it is classified or
    resolved, and a local reference by its resolved path afterwards;
    the error names the raw text in the first case and the resolved
    path in the second.  When the directive is reached the stack holds,
    after what it held at the start, the paths of the chain, outermost
    first.  A reference that starts with a less-than sign is a library
    reference and is skipped before any comparison. *)
Theorem cycle_in_include_chain
    fuel more diagramText dirPath st paths f' d st1 :
  chain (document fuel diagramText dirPath st) paths f' ->
  reaches f' d st1 ->
  startsWith (js "<") (url d) = false ->
  In (url d) (includeStack st ++ paths) \/
    (remote (url d) = false /\
     In (resolve (f_dir f') (url d)) (includeStack st ++ paths)) ->
  includeStack st1 = includeStack st ++ paths /\
  preprocess (more + fuel) diagramText dirPath st
  = (inl (Thrown (CycleError
                    (if includes (includeStack st ++ paths) (url d)
                     then url d else resolve (f_dir f') (url d)))), st1).
Proof.
  intros Hchain Hreach Hlib Hon.
  assert (Hstack : includeStack st1 = includeStack st ++ paths).
  { rewrite (reaches_stack Hreach). exact (chain_stack Hchain). }
  split; [exact Hstack|].
  assert (Hfail : preprocess fuel diagramText dirPath st
                  = (inl (Thrown (CycleError (cycle_path (f_dir f') (url d) st1))), st1)).
  { apply document_fails. eapply chain_fails; [exact Hchain|].
    apply cycle_at_directive; [exact Hreach | exact Hlib | now rewrite Hstack]. }
  unfold cycle_path in Hfail. rewrite Hstack in Hfail.
  rewrite more_fuel; [exact Hfail|]. rewrite Hfail. discriminate.
Qed.

(** C4 (amended). The path pushed before the nested call is popped when
    that call returns: a call that returns leaves the inclusion stack
    as it found it, and so does every line before a directive, so the
    directives of one document all see the same stack.  When a nested
    call fails, at any depth, the pop is not reached: the failure ends
    the call on the document with the state the nested call left,
    nothing runs after it, and the stack still holds, after what it
    held at the start, the paths of all the includes that were open,
    outermost first.  Every failure of a call comes about in this way
    (the end of the fuel of the model aside): it is raised by a line at
    the end of a chain of includes, none of which is closed, and the
    stack it leaves holds the paths of that chain after what it held at
    the start. *)
Theorem stack_popped_on_return_only fuel diagramText dirPath st :
  (forall r, fst (preprocess fuel diagramText dirPath st) = inr r ->
     includeStack (snd (preprocess fuel diagramText dirPath st)) = includeStack st) /\
  (forall pre outs st1,
     mapM (replaceLine (nestedCall fuel) dirPath) pre st = (inr outs, st1) ->
     includeStack st1 = includeStack st) /\
  (forall paths f' e st',
     chain (document fuel diagramText dirPath st) paths f' ->
     expand_lines f' = (inl e, st') ->
     preprocess fuel diagramText dirPath st = (inl e, st') /\
     exists more, includeStack st' = includeStack st ++ paths ++ more) /\
  (forall e st',
     preprocess fuel diagramText dirPath st = (inl e, st') ->
     e <> OutOfFuel ->
     exists paths f',
       chain (document fuel diagramText dirPath st) paths f' /\
       raises f' e st' /\
       includeStack st' = includeStack st ++ paths).
Proof.
  destruct (disciplined_preprocess fuel diagramText dirPath st)
    as (_ & _ & (p & P & Q)).
  split; [|split; [|split]].
  - intros r Hr. rewrite P, (Q r Hr). apply app_nil_r.
  - intros pre outs st1. apply siblings_see_same_stack.
  - intros paths f' e st' Hchain Hfail. split.
    + apply document_fails. eapply chain_fails; eassumption.
    + assert (D : disciplined (mapM (replaceLine (nestedCall (f_fuel f')) (f_dir f'))
                                 (f_lines f'))).
      { apply disciplined_mapM. intros line. apply disciplined_line.
        apply disciplined_nestedCall. }
      destruct (D (f_state f')) as (_ & _ & (more & M & _)).
      unfold expand_lines in Hfail. rewrite Hfail in M. cbn [snd] in M.
      exists more. rewrite M, (chain_stack Hchain), <- app_assoc. reflexivity.
  - intros e st' Hfail Hne. apply document_fails in Hfail.
    destruct (failure_origin _ _ _ _ Hfail) as (paths & f' & Hchain & Hraise).
    exists paths, f'. split; [exact Hchain|]. split; [exact Hraise|].
    rewrite (raises_stack Hraise Hne). exact (chain_stack Hchain).
Qed.

(** *** The depth of a top-level call *)

(** X1. Includes never nest deeper than there are paths the file system
    can read: with at least that much fuel a top-level call does not
    run out of fuel, and every larger amount of fuel gives the same
    result and the same state.  What the call gives is then a text, one
    of the thrown errors, or a failure of the selection of blocks: the
    pattern built around a selector is rejected, or the loop over its
    matches does not end. *)
Theorem include_depth_is_bounded readable fuel more diagramText :
  (forall p t, vfs_read p = inr t -> In p readable) ->
  length readable <= fuel ->
  let result :=
    preprocessPlantUML vfs_exists vfs_read path_join path_dirname URL_protocol
      fuel diagramText in
  ((exists out, fst result = inr out) \/
   (exists err, fst result = inl (Thrown err)) \/
   (exists f include sub content,
      fst result = inl f /\ select include sub content = inl f /\
      (f = NeverReturns \/ exists source, f = SyntaxError source))) /\
  preprocessPlantUML vfs_exists vfs_read path_join path_dirname URL_protocol
    (more + fuel) diagramText
  = result.
Proof.
  intros Hreadable Hfuel. unfold preprocessPlantUML. cbv zeta.
  assert (Hends : fst (preprocess fuel diagramText (js ".") initial) <> inl OutOfFuel).
  { apply (@expansion_depth_bounded readable Hreadable).
    repeat split; [constructor | intros p [] | simpl; lia]. }
  split; [|now apply more_fuel].
  destruct (preprocess fuel diagramText (js ".") initial) as [[e|out] st'] eqn:E;
    [|left; exists out; reflexivity].
  right. cbn [fst] in *. apply document_fails in E.
  destruct (failure_origin _ _ _ _ E) as (paths & f' & _ & Hraise).
  destruct (raises_kind Hraise) as [-> | [[err ->] | (i & s & c & Hsel & Hk)]].
  - now elim Hends.
  - left. exists err. reflexivity.
  - right. exists e, i, s, c. split; [reflexivity|]. split; assumption.
Qed.

(** *** The Include-Once Set across a call *)




















End Engine.

End PlantUMLFacts.


(* ------------------------------------------------------------------ *)
(** ** The Vega-Lite transform *)

Module VegaLiteFacts.

Import VegaLite MatcherFacts RepeatFacts.

Definition full_stop : jschar := 46%N.

Definition not_full_stop (ch : jschar) : bool :=
  class_match true [ISingle full_stop] ch.

(** The extension of a reference: what follows its last full stop,
    when there is one and something follows it. *)
Fixpoint after_last_dot (u : jsstring) : option jsstring :=
  match u with
  | [] => None
  | ch :: u' =>
      if (full_stop =? ch)%N && negb (str_eqb u' []) && forallb not_full_stop u'
      then Some u'
      else after_last_dot u'
  end.

(** A greedy star before a pattern that only matches at the end of the
    text. *)
Lemma star_greedy_to_end p (k : cont) :
  (forall y, after y <> [] -> k y = None) ->
  forall aft bef cs,
    star_greedy p k bef aft cs
    = if forallb p aft then k (MState (rev aft ++ bef) [] cs) else None.
Proof.
  intros Hk. induction aft as [|ch aft IH]; intros bef cs; [reflexivity|].
  cbn [star_greedy forallb].
  destruct (p ch); cbn [andb].
  - rewrite IH. unfold orelse. cbn [rev]. rewrite <- app_assoc. cbn [app].
    destruct (forallb p aft).
    + destruct (k _); [reflexivity|]. apply Hk. discriminate.
    + apply Hk. discriminate.
  - apply Hk. discriminate.
Qed.

Definition extension_group : regex :=
  Group 1 (Quant 1 None true (Class true [ISingle full_stop])).

Lemma extension_group_spec (k : cont) b aft cs :
  matcher false extension_group true (MState b aft cs) k
  = plus_greedy not_full_stop
      (fun y => k (MState (before y) (after y)
                     ((1, between (MState b aft cs) y) :: caps y)))
      b aft cs.
Proof.
  unfold extension_group. cbn [matcher groups].
  apply (repeat_plus_greedy not_full_stop). unfold input_length. simpl. lia.
Qed.

Lemma regExExtension_parts :
  regExExtension
  = Seq (Quant 0 (Some 1) true (Seq (Char full_stop) extension_group)) Eol.
Proof. reflexivity. Qed.

(** The pattern at one position: the end of the text, or a full stop
    followed to the end by code units other than a full stop. *)
Lemma extension_match_at bef aft :
  match_at false regExExtension bef aft
  = match aft with
    | [] => Some (Result (rev bef) [] [] [])
    | ch :: rest =>
        if (full_stop =? ch)%N && negb (str_eqb rest []) && forallb not_full_stop rest
        then Some (Result (rev bef) aft [] [(1, rest)])
        else None
    end.
Proof.
  unfold match_at. rewrite regExExtension_parts.
  change (matcher false (Seq ?q Eol) true ?x ?c)
    with (matcher false q true x (fun y => matcher false Eol true y c)).
  set (eol := fun y : mstate => matcher false Eol true y (fun z => Some z)).
  assert (Heol : forall y, after y <> [] -> eol y = None).
  { intros y Hy. unfold eol. cbn [matcher]. destruct (after y); [congruence | reflexivity]. }
  assert (Hend : forall b cs, eol (MState b [] cs) = Some (MState b [] cs))
    by reflexivity.
  change (matcher false (Quant 0 (Some 1) true ?a) true ?x ?c)
    with (repeat_matcher (fun x' c' => matcher false a true x' c') (groups a) true c
            (S (0 + input_length x)) 0 (Some 1) x).
  rewrite repeat_optional.
  change (clear _ (MState bef aft [])) with (MState bef aft []).
  change (matcher false (Seq (Char full_stop) extension_group) true ?x ?c)
    with (match_char (N.eqb full_stop) true x
            (fun y => matcher false extension_group true y c)).
  unfold orelse.
  destruct aft as [|ch rest].
  - rewrite match_char_nil, Hend. cbn [before after caps].
    unfold between, pos. cbn [before after]. now rewrite Nat.sub_diag.
  - rewrite match_char_cons.
    destruct (full_stop =? ch)%N eqn:Edot; cbn [andb].
    2:{ now rewrite Heol by discriminate. }
    rewrite extension_group_spec.
    destruct rest as [|a rest].
    + cbn [plus_greedy str_eqb negb andb]. now rewrite Heol by discriminate.
    + cbn [plus_greedy str_eqb negb andb forallb].
      destruct (not_full_stop a) eqn:Ea; cbn [andb].
      2:{ now rewrite Heol by discriminate. }
      rewrite star_greedy_to_end.
      2:{ intros y Hy. cbn [before after caps].
          unfold pos at 1. cbn [before].
          destruct (_ =? _)%nat; [reflexivity|]. apply Heol. exact Hy. }
      destruct (forallb not_full_stop rest) eqn:Eall.
      2:{ now rewrite Heol by discriminate. }
      cbn [before after caps]. unfold pos at 1 2. cbn [before].
      replace (length (rev rest ++ a :: ch :: bef) =? length bef)%nat with false.
      2:{ symmetry. apply Nat.eqb_neq. rewrite length_app. simpl. lia. }
      rewrite Hend. cbn [before after caps].
      pose proof (between_span (ch :: bef) (a :: rest) [] [] []) as B1.
      rewrite app_nil_r in B1. cbn [rev] in B1. rewrite <- app_assoc in B1.
      cbn [app] in B1. rewrite B1.
      f_equal. f_equal. unfold between, pos. cbn [before after].
      rewrite length_app, length_rev. cbn [length].
      replace (length rest + S (S (length bef)) - length bef)
        with (S (S (length rest))) by lia.
      cbn [firstn]. now rewrite firstn_all.
Qed.

(** [exec] finds the first such position: the extension is what
    follows the last full stop. *)
Lemma extension_search : forall aft bef,
  exists m, search false regExExtension bef aft = Some m /\
            group m 1 = after_last_dot aft.
Proof.
  induction aft as [|ch rest IH]; intros bef;
    pose proof (extension_match_at bef) as Hat.
  - specialize (Hat []). cbv iota in Hat.
    eexists. split; [apply search_here; exact Hat | reflexivity].
  - specialize (Hat (ch :: rest)). cbv iota in Hat. cbn [after_last_dot].
    destruct ((full_stop =? ch)%N && negb (str_eqb rest []) &&
              forallb not_full_stop rest).
    + eexists. split; [apply search_here; exact Hat | reflexivity].
    + rewrite (search_next _ _ _ _ _ Hat). apply IH.
Qed.

Theorem extension_spec u : extension u = Some (after_last_dot u).
Proof.
  unfold extension, exec.
  destruct (extension_search u []) as (m & -> & Hg). now rewrite Hg.
Qed.

(** *** The extension of a reference *)

Lemma after_last_dot_none u :
  forallb not_full_stop u = true -> after_last_dot u = None.
Proof.
  induction u as [|ch u IH]; [reflexivity|]. cbn [forallb after_last_dot].
  intros H. apply andb_prop in H. destruct H as [Hc Hu].
  unfold not_full_stop, class_match in Hc. cbn [existsb item_match] in Hc.
  rewrite N.eqb_sym in Hc.
  destruct (full_stop =? ch)%N; [discriminate Hc|]. now apply IH.
Qed.

Lemma after_last_dot_found ext : forall stem,
  ext <> [] -> forallb not_full_stop ext = true ->
  after_last_dot (stem ++ full_stop :: ext) = Some ext.
Proof.
  intros stem Hne Hext. induction stem as [|ch stem IH].
  - cbn [app after_last_dot]. rewrite N.eqb_refl, Hext.
    destruct ext; [congruence | reflexivity].
  - cbn [app after_last_dot].
    assert (Hdot : forallb not_full_stop (stem ++ full_stop :: ext) = false).
    { rewrite forallb_app. cbn [forallb].
      replace (not_full_stop full_stop) with false by reflexivity.
      now rewrite andb_false_r. }
    rewrite Hdot, andb_false_r. exact IH.
Qed.

Lemma after_last_dot_end : forall stem, after_last_dot (stem ++ [full_stop]) = None.
Proof.
  induction stem as [|ch stem IH].
  - reflexivity.
  - cbn [app after_last_dot].
    assert (Hdot : forallb not_full_stop (stem ++ [full_stop]) = false).
    { rewrite forallb_app. cbn [forallb].
      replace (not_full_stop full_stop) with false by reflexivity.
      now rewrite andb_false_r. }
    rewrite Hdot, andb_false_r. exact IH.
Qed.

(** X12. The extension pattern matches every text, so reading its first
    group never fails.  The group holds what follows the last full stop
    of the reference when something follows it; it is undefined for a
    reference without full stop and for one that ends in a full stop. *)
Theorem extension_is_what_follows_the_last_full_stop :
  (forall u, exists captured, extension u = Some captured) /\
  (forall stem ext,
     ext <> [] -> forallb not_full_stop ext = true ->
     extension (stem ++ full_stop :: ext) = Some (Some ext)) /\
  (forall u, forallb not_full_stop u = true -> extension u = Some None) /\
  (forall stem, extension (stem ++ [full_stop]) = Some None).
Proof.
  split; [|split; [|split]].
  - intros u. eexists. apply extension_spec.
  - intros stem ext Hne Hext. now rewrite extension_spec, after_last_dot_found.
  - intros u Hu. now rewrite extension_spec, after_last_dot_none.
  - intros stem. now rewrite extension_spec, after_last_dot_end.
Qed.

(** *** The format type of a reference *)










(** *** Members of an object *)













Section Transform.

Variable JSON5_parse : jsstring -> jsstring + value.
Variable vfs_read : value -> jsstring + value.
Variable URL_protocol : jsstring -> option jsstring.

Local Abbreviation transform := (preprocessVegaLite JSON5_parse vfs_read URL_protocol).



(** Only an object has a member that counts as true. *)
Lemma truthy_member v k :
  truthy (get v k) = true -> exists members, v = VObject members.
Proof. destruct v; try discriminate. eauto. Qed.

Lemma data_url_guard diagramObject :
  truthy (get (get diagramObject (js "data")) (js "url")) = true ->
  negb (truthy diagramObject)
  || negb (truthy (get diagramObject (js "data")))
  || negb (truthy (get (get diagramObject (js "data")) (js "url"))) = false.
Proof.
  intros H. rewrite H.
  destruct (truthy_member _ _ H) as (ms & Hd). rewrite Hd.
  assert (Ho : truthy (get diagramObject (js "data")) = true) by now rewrite Hd.
  destruct (truthy_member _ _ Ho) as (mo & ->). reflexivity.
Qed.

(** X13. How the transform fails.  A document that does not parse is a
    ParseError with the cause and the document.  When the referenced
    data cannot be read, a remote reference gives the document back as
    it is, with one warning, and a local reference is an error that
    names the reference and carries the cause. *)
Theorem data_that_cannot_be_inlined diagramText :
  (forall cause,
     JSON5_parse diagramText = inl cause ->
     transform diagramText = (inl (ParseError cause diagramText), [])) /\
  (forall diagramObject cause,
     JSON5_parse diagramText = inr diagramObject ->
     truthy (get (get diagramObject (js "data")) (js "url")) = true ->
     vfs_read (get (get diagramObject (js "data")) (js "url")) = inl cause ->
     transform diagramText
     = if isRemoteUrl URL_protocol
            (ToString (get (get diagramObject (js "data")) (js "url")))
       then (inr diagramText,
             [ToString (get (get diagramObject (js "data")) (js "url"))])
       else (inl (LocalReadError
                    (ToString (get (get diagramObject (js "data")) (js "url")))
                    cause), [])).
Proof.
  split.
  - intros cause H. unfold preprocessVegaLite. now rewrite H.
  - intros diagramObject cause Hparse Hurl Hread. unfold preprocessVegaLite.
    rewrite Hparse, (data_url_guard _ Hurl), Hread. reflexivity.
Qed.


End Transform.

End VegaLiteFacts.
(* ------------------------------------------------------------------ *)
(** ** Runs on concrete documents *)

Module Runs.

Import Reference PlantUMLFacts.
Local Open Scope string_scope.

Definition lines (l : list string) : jsstring := join LF (map js l).

(** Two files that include each other. *)
Definition fs_cycle : files :=
  [(js "a", js "!include b"); (js "b", js "!include a")].

(** A file with plain text, one that includes it once, and one whose
    include cannot be read. *)
Definition fs_once : files :=
  [(js "foo.txt", js "hello");
   (js "c", js "!include_once foo.txt");
   (js "d", js "!include missing")].

Definition on_stack (stack : list string) : state :=
  State [] (map js stack) [].

(** From the top: [a] includes [b], which includes [a] again.  The
    chain of the two includes leads to the directive of [b], whose
    reference is on the stack by then. *)
Definition include_match (u : string) : result :=
  Result [] (js ("!include " ++ u)) [] [(3, []); (2, js u); (1, js "include")].

Lemma cycle_witness :
  run fs_cycle (1 + 2) (js "!include a")
  = (inl (Thrown (CycleError (js "a"))), on_stack ["a"; "b"]).
Proof.
  unfold run, preprocessPlantUML.
  pose (f0 := document 2 (js "!include a") (js ".") initial).
  pose (f1 := document 1 (js "!include b") (js ".") (on_stack ["a"])).
  pose (f2 := document 0 (js "!include a") (js ".") (on_stack ["a"; "b"])).
  assert (R0 : reaches (vfs_exists fs_cycle) (vfs_read fs_cycle) path_join dirname
                 URL_protocol f0 (Directive (js "include") (js "a") None) initial).
  { apply (@Reaches _ _ _ _ _ f0 _ _ [] (js "!include a") [] [] (include_match "a"));
      vm_compute; reflexivity. }
  assert (R1 : reaches (vfs_exists fs_cycle) (vfs_read fs_cycle) path_join dirname
                 URL_protocol f1 (Directive (js "include") (js "b") None)
                 (on_stack ["a"])).
  { apply (@Reaches _ _ _ _ _ f1 _ _ [] (js "!include b") [] [] (include_match "b"));
      vm_compute; reflexivity. }
  assert (R2 : reaches (vfs_exists fs_cycle) (vfs_read fs_cycle) path_join dirname
                 URL_protocol f2 (Directive (js "include") (js "a") None)
                 (on_stack ["a"; "b"])).
  { apply (@Reaches _ _ _ _ _ f2 _ _ [] (js "!include a") [] [] (include_match "a"));
      vm_compute; reflexivity. }
  assert (C0 : calls (vfs_exists fs_cycle) (vfs_read fs_cycle) path_join dirname
                 URL_protocol f0 (js "a") f1).
  { apply (@Calls _ _ _ _ _ f0 (js "a") f1 _ _
             (IncludeResult false (js "!include b") (js "a")) initial
             (js "!include b") 1 R0); vm_compute; reflexivity. }
  assert (C1 : calls (vfs_exists fs_cycle) (vfs_read fs_cycle) path_join dirname
                 URL_protocol f1 (js "b") f2).
  { apply (@Calls _ _ _ _ _ f1 (js "b") f2 _ _
             (IncludeResult false (js "!include a") (js "b")) (on_stack ["a"])
             (js "!include a") 0 R1); vm_compute; reflexivity. }
  refine (proj2 (@cycle_in_include_chain
                   (vfs_exists fs_cycle) (vfs_read fs_cycle) path_join dirname
                   URL_protocol 2 1 (js "!include a") (js ".") initial
                   [js "a"; js "b"] f2 (Directive (js "include") (js "a") None)
                   (on_stack ["a"; "b"])
                   (chain_step C0 (chain_step C1 (chain_here _ _ _ _ _ f2)))
                   R2 eq_refl (or_introl _))).
  simpl. left. reflexivity.
Defined.

(** The same run, and the state it leaves. *)
Example cycle_from_the_top :
  run fs_cycle 2 (js "!include a")
  = (inl (Thrown (CycleError (js "a"))), on_stack ["a"; "b"]).
Proof. vm_compute. reflexivity. Qed.

(** The resolved path is compared as well: in directory [x], the
    reference [../a] resolves to [a]. *)
Example cycle_by_resolved_path :
  run_from fs_cycle 0 (js "!include ../a") (js "x") (on_stack ["a"])
  = (inl (Thrown (CycleError (js "a"))), on_stack ["a"]).
Proof. vm_compute. reflexivity. Qed.

(** A failing nested include leaves its path on the stack. *)
Lemma stack_kept_on_failure :
  fst (run fs_once 1 (js "!include d"))
  = inl (Thrown (ReadError (js "missing") (js "ENOENT"))) /\
  includeStack (snd (run fs_once 1 (js "!include d"))) = [js "d"] /\
  includeStack (snd (run fs_once 1 (js "!include d"))) <> includeStack initial.
Proof. vm_compute. repeat split. discriminate. Qed.


(** Two plain includes of a file without directive both expand. *)
Example plain_include_twice :
  run fs_once 1 (lines ["!include foo.txt"; "!include foo.txt"])
  = (inr (lines ["hello"; "hello"]), initial).
Proof. vm_compute. reflexivity. Qed.


(** A document with an apostrophe pair and no directive loses a line. *)
Lemma comment_line_removed :
  existsb is_directive (split LF (lines ["a 'b' c"; "d"])) = false /\
  fst (run [] 0 (lines ["a 'b' c"; "d"])) = inr (js "d") /\
  js "d" <> lines ["a 'b' c"; "d"].
Proof. vm_compute. repeat split. discriminate. Qed.

(** White space and empty lines are kept. *)
Lemma unchanged_witness :
  run [] 0 (lines ["  a   b "; ""; "@startuml"; "  Bob -> Alice"; ""])
  = (inr (lines ["  a   b "; ""; "@startuml"; "  Bob -> Alice"; ""]), initial).
Proof.
  unfold run, preprocessPlantUML.
  apply no_comment_no_directive_unchanged; vm_compute; reflexivity.
Defined.

(** C5 (as the code runs). The keyword in upper case is not seen as a
    directive: the pattern is matched with the case of its letters, so
    the line stays as it is, where the lower-case spelling is expanded;
    the callback, which turns the keyword to lower case, is not reached. *)
Lemma upper_case_keyword_not_expanded :
  is_directive (js "!INCLUDE foo.txt") = false /\
  is_directive (js "!Include_Once foo.txt") = false /\
  run fs_once 1 (js "!INCLUDE foo.txt") = (inr (js "!INCLUDE foo.txt"), initial) /\
  run fs_once 1 (js "!include foo.txt") = (inr (js "hello"), initial).
Proof. vm_compute. repeat split. Qed.

(** C3 (as the code runs). A remote reference that cannot be read, on
    a line that goes on after a carriage return: no error, one warning,
    and the callback returns the whole line, which replaces only the
    text up to the carriage return, so the carriage return comes twice
    and the line is not what it was. *)
Lemma skipped_line_tail_twice :
  fst (run [] 0 (js "!include http://example.com/a.puml x" ++ [CR])%list)
  = inr (js "!include http://example.com/a.puml x" ++ [CR; CR])%list /\
  warnings (snd (run [] 0 (js "!include http://example.com/a.puml x" ++ [CR])%list))
  = [SkipRemote (js "http://example.com/a.puml") (js "ENOENT")].
Proof. vm_compute. split; reflexivity. Qed.

(** The same reference on a line that the pattern matches whole. *)
Example skipped_line_untouched :
  run [] 0 (js "!include http://example.com/a.puml")
  = (inr (js "!include http://example.com/a.puml"),
     State [] [] [SkipRemote (js "http://example.com/a.puml") (js "ENOENT")]).
Proof. vm_compute. reflexivity. Qed.

Example local_read_failure :
  run [] 0 (js "!include missing.puml")
  = (inl (Thrown (ReadError (js "missing.puml") (js "ENOENT"))), initial).
Proof. vm_compute. reflexivity. Qed.

(** A file with two sub-blocks named [A] and one named [abc]. *)
Definition subs : jsstring :=
  lines ["!startsub A"; "one"; "!endsub";
         "!startsub abc"; "X"; "!endsub";
         "!startsub A"; "two"; "!endsub"].

Example sub_blocks_joined :
  getPlantUmlTextFromSub subs (js "A") = inr (lines ["one"; "two"]) /\
  getPlantUmlTextFromSub subs (js "B") = inr [].
Proof. vm_compute. split; reflexivity. Qed.

(** C7 (as the code runs). The selector is put into the pattern text as
    it is and read as a pattern: [a.c] finds the block named [abc],
    which does not carry that name, an alternative in the selector
    yields matches without a body, and a selector that is no pattern is
    a SyntaxError. *)
Lemma selector_read_as_pattern :
  getPlantUmlTextFromSub subs (js "a.c") = inr (js "X") /\
  getPlantUmlTextFromSub subs (js "A|abc")
  = inr (lines ["undefined"; "X"; "undefined"]) /\
  getPlantUmlTextFromSub subs (js "C++") = inl (SyntaxError (subPattern (js "C++"))) /\
  fst (run [(js "subs", subs)] 1 (js "!includesub subs!a.c")) = inr (js "X").
Proof. vm_compute. repeat split. Qed.

(** A file with three top-level blocks. *)
Definition blocks : jsstring :=
  lines ["@startuml"; "one"; "@enduml";
         "@startuml"; "two"; "@enduml";
         "@startuml"; "three"; "@enduml"].

Example three_blocks :
  nth_block blocks 0 = Some (js "one") /\
  nth_block blocks 1 = Some (js "two") /\
  nth_block blocks 2 = Some (js "three") /\
  nth_block blocks 3 = None /\
  getPlantUmlTextFromIndex blocks 1 = js "two" /\
  getPlantUmlTextFromIndex blocks 3 = [] /\
  getPlantUmlTextFromIndex blocks 7 = [] /\
  run [(js "blocks", blocks)] 1 (js "!include blocks!1") = (inr (js "two"), initial) /\
  run [(js "blocks", blocks)] 1 (js "!include blocks!3") = (inr [], initial).
Proof. vm_compute. repeat split. Qed.

(** The same file as the scan of the text sees it, and written as
    blocks. *)
Ltac no_at_sign := vm_compute; intuition discriminate.
Ltac no_last_CR :=
  let b := fresh in let Hb := fresh in
  intros b Hb; apply (f_equal (@rev _)) in Hb; rewrite rev_app_distr in Hb;
  vm_compute in Hb; discriminate Hb.

Example three_blocks_scanned :
  BlockFacts.top_level_blocks blocks = [js "one"; js "two"; js "three"] /\
  BlockFacts.written_as [js "one"; js "two"; js "three"] blocks.
Proof.
  split; [vm_compute; reflexivity|].
  apply (@BlockFacts.written_block [] [LF] (js "one") [LF]);
    [no_at_sign | now right | now right | no_at_sign | no_last_CR |].
  apply (@BlockFacts.written_block [LF] [LF] (js "two") [LF]);
    [no_at_sign | now right | now right | no_at_sign | no_last_CR |].
  apply (@BlockFacts.written_block [LF] [LF] (js "three") [LF] [] []);
    [no_at_sign | now right | now right | no_at_sign | no_last_CR |].
  constructor. intros [].
Qed.




(** *** The Vega-Lite transform *)

Import VegaLite VegaLiteFacts.

(** A parser that knows one document, and a file system that reads the
    files of a list. *)
Definition parse_only (document : jsstring) (v : value) (t : jsstring)
  : jsstring + value :=
  if str_eqb t document then inr v else inl (js "SyntaxError").

Definition read_files (fs : files) (u : value) : jsstring + value :=
  match u with
  | VString p =>
      match lookup fs p with
      | Some t => inr (VString t)
      | None => inl (js "ENOENT")
      end
  | _ => inl (js "ENOENT")
  end.

Definition chart_text : jsstring := js "{data: {url: 'data.csv'}, mark: 'bar'}".

Definition chart : value :=
  VObject [(js "data", VObject [(js "url", VString (js "data.csv"))]);
           (js "mark", VString (js "bar"))].

Definition chart_files : files := [(js "data.csv", lines ["a,b"; "1,2"])].

Definition chart_inlined : value :=
  VObject [(js "data",
            VObject [(js "values", VString (lines ["a,b"; "1,2"]));
                     (js "format", VObject [(js "type", VString (js "csv"))])]);
           (js "mark", VString (js "bar"))].

Example chart_run :
  preprocessVegaLite (parse_only chart_text chart) (read_files chart_files)
    URL_protocol chart_text
  = (inr (JSON_stringify chart_inlined), []).
Proof. vm_compute. reflexivity. Qed.

Example extensions :
  map (fun u => format_type (after_last_dot (js u)))
    ["data.csv"; "a.b/c.tsv"; "data.CSV"; "data"; "data."; "x.topojson"; "x.yaml"]
  = map js ["csv"; "tsv"; "json"; "json"; "json"; "topojson"; "json"].
Proof. vm_compute. reflexivity. Qed.


(** A document without [data.url] comes back as it is. *)
Example no_data_url :
  preprocessVegaLite
    (parse_only (js "{mark: 'bar'}") (VObject [(js "mark", VString (js "bar"))]))
    (read_files []) URL_protocol (js "{mark: 'bar'}")
  = (inr (js "{mark: 'bar'}"), []).
Proof. vm_compute. reflexivity. Qed.

(** *** Comment lines *)

(** Apostrophes in ordinary text delete the line; the last line stays
    when no newline follows it. *)
Example apostrophes_in_text :
  strip_line_comments (lines ["Bob -> Alice : don't say 'no"; "Alice -> Bob : ok"])
  = js "Alice -> Bob : ok" /\
  strip_line_comments (lines ["Alice -> Bob : ok"; "Bob -> Alice : don't say 'no"])
  = lines ["Alice -> Bob : ok"; "Bob -> Alice : don't say 'no"].
Proof. vm_compute. split; reflexivity. Qed.

(** A directive on a deleted line is not expanded. *)
Example directive_on_comment_line :
  run fs_once 1 (lines ["!include foo.txt ' once 'more"; "x"])
  = (inr (js "x"), initial).
Proof. vm_compute. reflexivity. Qed.

(** *** Further runs *)

(** The two files of [fs_cycle] are all it can read: two units of fuel
    are enough, and more change nothing. *)
Lemma fuel_witness :
  ((exists out, fst (run fs_cycle 2 (js "!include a")) = inr out) \/
   (exists err, fst (run fs_cycle 2 (js "!include a")) = inl (Thrown err)) \/
   (exists f include sub content,
      fst (run fs_cycle 2 (js "!include a")) = inl f /\
      PlantUML.select include sub content = inl f /\
      (f = NeverReturns \/ exists source, f = SyntaxError source))) /\
  run fs_cycle (5 + 2) (js "!include a") = run fs_cycle 2 (js "!include a").
Proof.
  unfold run.
  apply (@include_depth_is_bounded
           (Reference.vfs_exists fs_cycle) (Reference.vfs_read fs_cycle)
           path_join dirname Reference.URL_protocol [js "a"; js "b"]).
  - intros p t. unfold Reference.vfs_read, fs_cycle. cbn [lookup].
    destruct (str_eqb_spec (js "a") p) as [<-|_]; [intros _; now left|].
    destruct (str_eqb_spec (js "b") p) as [<-|_]; [intros _; right; now left|].
    discriminate.
  - simpl. lia.
Defined.

(** A selector with an empty alternative: the pattern matches the empty
    text, and the loop over its matches does not end. *)
Example selector_loop :
  fst (run [(js "subs", subs)] 1 (js "!includesub subs!x||y")) = inl NeverReturns /\
  fst (run [(js "subs", subs)] 1 (js "!includesub subs!C++"))
  = inl (SyntaxError (subPattern (js "C++"))).
Proof. vm_compute. split; reflexivity. Qed.

Lemma distinct_witness :
  distinct (snd (run fs_once 2 (lines ["!include_once foo.txt"; "!include c"]))).
Proof.
  unfold run, PlantUML.preprocessPlantUML.
  apply arrays_hold_no_path_twice. split; constructor.
Defined.

Example arrays_after_a_failure :
  run fs_once 2 (lines ["!include_once foo.txt"; "!include c"])
  = (inl (Thrown (DuplicateIncludeError (js "foo.txt"))),
     State [js "foo.txt"] [js "c"] []).
Proof. vm_compute. reflexivity. Qed.

Lemma text_before_directive_witness :
  is_directive (js "note: !include foo.txt") = false.
Proof. apply DirectiveFacts.directive_starts_its_line. reflexivity. Defined.

Lemma lines_in_place_witness :
  exists outs,
    lines ["a"; "hello"; "  b "] = join LF outs /\
    length outs
    = length (split LF (strip_comments (lines ["a"; "!include foo.txt"; "  b "]))) /\
    forall i line,
      nth_error (split LF (strip_comments (lines ["a"; "!include foo.txt"; "  b "]))) i
      = Some line ->
      is_directive line = false -> nth_error outs i = Some line.
Proof.
  apply (@lines_without_directive_stay_in_place
           (Reference.vfs_exists fs_once) (Reference.vfs_read fs_once)
           path_join dirname Reference.URL_protocol 1
           (lines ["a"; "!include foo.txt"; "  b "]) (js ".") initial _ initial).
  vm_compute. reflexivity.
Defined.

Lemma plain_text_witness :
  run fs_once 0 (lines ["Bob -> Alice : hi!"; "  note right: done"; ""])
  = (inr (lines ["Bob -> Alice : hi!"; "  note right: done"; ""]), initial).
Proof.
  unfold run, PlantUML.preprocessPlantUML.
  apply plain_text_is_returned_as_it_is.
  - intros H. vm_compute in H.
    repeat (destruct H as [H | H]; [discriminate H|]). exact H.
  - intros line H. vm_compute in H.
    repeat (destruct H as [<- | H]; [reflexivity|]). destruct H.
Defined.

(** A library reference, a remote reference that cannot be read and a
    local one that cannot be read. *)
Lemma library_reference_witness :
  replace_line (Reference.vfs_exists []) (Reference.vfs_read []) path_join dirname
    Reference.URL_protocol
    (nested (Reference.vfs_exists []) (Reference.vfs_read []) path_join dirname
       Reference.URL_protocol 0)
    (js ".") (js "!include <C4/C4_Container>") (on_stack ["<C4/C4_Container>"])
  = (inr (js "!include <C4/C4_Container>"),
     State [] [js "<C4/C4_Container>"] [SkipStdlib (js "<C4/C4_Container>")]).
Proof.
  refine (@library_reference_is_left_alone
            (Reference.vfs_exists []) (Reference.vfs_read []) path_join dirname
            Reference.URL_protocol _ (js ".") (js "!include <C4/C4_Container>")
            (Result [] (js "!include <C4/C4_Container>") []
               [(3, []); (2, js "<C4/C4_Container>"); (1, js "include")])
            (Directive (js "include") (js "<C4/C4_Container>") None)
            (on_stack ["<C4/C4_Container>"]) _ _ _ _); vm_compute; reflexivity.
Defined.

Lemma remote_reference_witness :
  replace_line (Reference.vfs_exists []) (Reference.vfs_read []) path_join dirname
    Reference.URL_protocol
    (nested (Reference.vfs_exists []) (Reference.vfs_read []) path_join dirname
       Reference.URL_protocol 0)
    (js ".") (js "!include http://example.com/a.puml  ") initial
  = (inr (js "!include http://example.com/a.puml  "),
     State [] [] [SkipRemote (js "http://example.com/a.puml") (js "ENOENT")]).
Proof.
  refine (@unreadable_remote_reference_is_left_alone
            (Reference.vfs_exists []) (Reference.vfs_read []) path_join dirname
            Reference.URL_protocol _ (js ".")
            (js "!include http://example.com/a.puml  ")
            (Result [] (js "!include http://example.com/a.puml  ") []
               [(3, js "  "); (2, js "http://example.com/a.puml"); (1, js "include")])
            (Directive (js "include") (js "http://example.com/a.puml") None)
            initial (js "ENOENT") _ _ _ _ _ _ _);
    try (vm_compute; reflexivity).
  intros [].
Defined.

Lemma local_reference_witness :
  run [] 0 (lines ["a"; "!include missing.puml"; "b"])
  = (inl (Thrown (ReadError (js "missing.puml") (js "ENOENT"))), initial).
Proof.
  unfold run, PlantUML.preprocessPlantUML.
  refine (@unreadable_local_reference_is_an_error
            (Reference.vfs_exists []) (Reference.vfs_read []) path_join dirname
            Reference.URL_protocol 0 (lines ["a"; "!include missing.puml"; "b"])
            (js ".") initial [js "a"] (js "!include missing.puml") [js "b"]
            [js "a"] initial
            (Result [] (js "!include missing.puml") []
               [(3, []); (2, js "missing.puml"); (1, js "include")])
            (Directive (js "include") (js "missing.puml") None)
            (js "ENOENT") _ _ _ _ _ _ _ _ _);
    try (vm_compute; reflexivity); intros [].
Defined.

(** A directive with text after the reference: the whole line becomes
    the text of the file. *)
Lemma expansion_witness :
  replace_line (Reference.vfs_exists fs_once) (Reference.vfs_read fs_once)
    path_join dirname Reference.URL_protocol
    (nested (Reference.vfs_exists fs_once) (Reference.vfs_read fs_once)
       path_join dirname Reference.URL_protocol 1)
    (js ".") (js "  !include foo.txt and more") initial
  = (inr (js "hello"), initial).
Proof.
  refine (@directive_line_becomes_its_expansion
            (Reference.vfs_exists fs_once) (Reference.vfs_read fs_once)
            path_join dirname Reference.URL_protocol _ (js ".")
            (js "  !include foo.txt and more")
            (Result [] (js "  !include foo.txt and more") []
               [(3, js " and more"); (2, js "foo.txt"); (1, js "include")])
            (Directive (js "include") (js "foo.txt") None)
            (IncludeResult false (js "hello") (js "foo.txt"))
            initial initial (js "hello") (js "hello")
            (State [] [js "foo.txt"] []) _ _ _ _ _ _ _ _); vm_compute; reflexivity.
Defined.
Lemma directive_kind_witness :
  exists ws kw sp rest,
    js "  !include_once foo.txt!1" = (ws ++ chr "!" :: kw ++ sp :: rest)%list /\
    forallb is_space ws = true /\
    In kw DirectiveFacts.kinds /\
    is_space sp = true /\
    group (Result [] (js "  !include_once foo.txt!1") []
             [(3, []); (2, js "foo.txt!1"); (1, js "include_once")]) 1 = Some kw /\
    toLowerCase (js "include_once") = kw.
Proof.
  refine (@DirectiveFacts.directive_kind_is_one_of_five
            (js "  !include_once foo.txt!1")
            (Result [] (js "  !include_once foo.txt!1") []
               [(3, []); (2, js "foo.txt!1"); (1, js "include_once")])
            (Directive (toLowerCase (js "include_once")) (js "foo.txt") (Some (js "1")))
            _ _); vm_compute; reflexivity.
Defined.

(** A line with one apostrophe between two lines. *)
Lemma kept_line_witness :
  strip_line_comments (lines ["x"; "don't"; "y"])
  = (strip_line_comments (js "x" ++ [LF]) ++ js "don't"
     ++ strip_line_comments (LF :: js "y"))%list.
Proof.
  refine (@LineCommentFacts.line_with_one_apostrophe_is_kept
            (js "x" ++ [LF])%list (js "don't") (LF :: js "y") _ _ _ _ _).
  - right. exists (js "x"), LF. split; reflexivity.
  - reflexivity.
  - discriminate.
  - vm_compute. lia.
  - reflexivity.
Defined.

Example kept_line_run :
  strip_line_comments (lines ["x"; "don't"; "y"]) = lines ["x"; "don't"; "y"].
Proof. vm_compute. reflexivity. Qed.

(** Block comments. *)
Example block_comment_runs :
  strip_block_comments (js "a /' one '/ b /' two") = js "a  b /' two" /\
  strip_block_comments (lines ["a /' one"; "two '/ b"]) = js "a  b" /\
  strip_block_comments (js "/'/ a '/ b") = js " b".
Proof. vm_compute. repeat split. Qed.

(** Blocks by id, and by name. *)
Definition ids : jsstring :=
  lines ["@startuml(id=A1)"; "one"; "@enduml";
         "@startuml(id=B)"; "two"; "@enduml";
         "@startuml(id=A1)"; "three"; "@enduml"].

Lemma plain_id_witness :
  exists ms,
    all_matches
      (SelectorFacts.literal_selector SelectorFacts.id_before SelectorFacts.id_after
         (js "A1")) ids = Some ms /\
    getPlantUmlTextFromId ids (js "A1") = inr (join LF (map group1 ms)) /\
    Forall (SelectorFacts.id_block (js "A1")) ms.
Proof. apply SelectorFacts.plain_id_selector. reflexivity. Defined.

Example blocks_by_id :
  getPlantUmlTextFromId ids (js "A1") = inr (lines ["one"; "three"]) /\
  fst (run [(js "ids", ids)] 1 (js "!include ids!B")) = inr (js "two").
Proof. vm_compute. split; reflexivity. Qed.

Lemma plain_sub_witness :
  exists ms,
    all_matches
      (SelectorFacts.literal_selector SelectorFacts.sub_before
         SelectorFacts.sub_after (js "A")) subs = Some ms /\
    getPlantUmlTextFromSub subs (js "A") = inr (join LF (map group1 ms)) /\
    Forall (SelectorFacts.sub_block (js "A")) ms.
Proof. apply SelectorFacts.plain_sub_selector; [discriminate | reflexivity]. Defined.

(** The blocks of a text of two blocks, the first one taken by its
    number. *)
Lemma blocks_in_order_witness :
  exists m,
    nth_match regExBlock blocks 0 = Some m /\
    (prefix m ++ matched m ++ suffix m)%list = blocks /\
    SelectorFacts.top_block m /\
    getPlantUmlTextFromIndex blocks (Z.of_nat 0) = group1 m /\
    (forall m', nth_match regExBlock blocks 1 = Some m' ->
                exists gap, prefix m' = (prefix m ++ matched m ++ gap)%list).
Proof.
  eexists. split; [vm_compute; reflexivity|].
  apply SelectorFacts.blocks_lie_one_after_the_other. vm_compute. reflexivity.
Defined.

(** The first block, and texts without block. *)
Example first_block_runs :
  getPlantUmlTextOrFirstBlock blocks = js "one" /\
  getPlantUmlTextOrFirstBlock (js "hello") = js "hello" /\
  getPlantUmlTextFromIndex (js "hello") 0 = [] /\
  getPlantUmlTextFromIndex blocks (-1) = [] /\
  run [(js "foo.txt", js "hello")] 1 (js "!include foo.txt") = (inr (js "hello"), initial).
Proof. vm_compute. repeat split. Qed.



Example unreadable_data :
  preprocessVegaLite (parse_only chart_text chart) (read_files [])
    Reference.URL_protocol chart_text
  = (inl (LocalReadError (js "data.csv") (js "ENOENT")), []) /\
  preprocessVegaLite
    (parse_only chart_text
       (VObject [(js "data", VObject [(js "url", VString (js "https://x.org/d.csv"))])]))
    (read_files []) Reference.URL_protocol chart_text
  = (inr chart_text, [js "https://x.org/d.csv"]) /\
  preprocessVegaLite (parse_only chart_text chart) (read_files chart_files)
    Reference.URL_protocol (js "{")
  = (inl (ParseError (js "SyntaxError") (js "{")), []).
Proof. vm_compute. repeat split. Qed.

End Runs.
